(** * Versions service: structural diff, three-way merge, ancestry, store

    A shallow embedding of [VersionsService] (versions.service.ts): the
    document model, the diff engine, the three-way merge, the bounded
    ancestor walk and the Prisma-backed operations (createBranch, diff,
    restore, merge), followed by the properties established about them.

    Modelling conventions.
    - A JavaScript [Map<string, T>] is an association list in insertion
      order: [set] on a key already present replaces the value in place,
      on a new key appends.  [Array.from(m.values())] is [values].
    - A JavaScript [Set<string>] is a duplicate-free list in insertion order.
    - Optional fields ([x?: T]) are [option]; [!!x] is [truthy];
      [x ?? d] is [nullish].
    - A string is the sequence of its UTF-8 bytes.
    - A Prisma table is a list of rows, oldest first; a write returns the
      store it leaves behind together with a result or the error thrown.
      Ids and timestamps that the client and the database generate are
      inputs of the write. *)

From Stdlib Require Import List String Ascii Bool Arith ZArith Lia Permutation.
Import ListNotations.
Local Open Scope string_scope.
Local Open Scope list_scope.

(** ** JavaScript containers *)

Module JsMap.
Section Def.
Context {V : Type}.

Definition t : Type := list (string * V).

Definition empty : t := [].

Fixpoint get (m : t) (k : string) : option V :=
  match m with
  | [] => None
  | (k', v) :: m' => if String.eqb k' k then Some v else get m' k
  end.

Definition has (m : t) (k : string) : bool :=
  match get m k with Some _ => true | None => false end.

Fixpoint set (m : t) (k : string) (v : V) : t :=
  match m with
  | [] => [(k, v)]
  | (k', v') :: m' =>
      if String.eqb k' k then (k', v) :: m' else (k', v') :: set m' k v
  end.

Definition keys (m : t) : list string := map fst m.
Definition values (m : t) : list V := map snd m.
Definition entries (m : t) : list (string * V) := m.

(** [new Map(pairs)] and the [for (...) m.set(k, v)] idiom. *)
Definition of_list (l : list (string * V)) : t :=
  fold_left (fun m kv => set m (fst kv) (snd kv)) l empty.
End Def.
Arguments t : clear implicits.
End JsMap.

Module JsSet.
Definition t : Type := list string.

Definition empty : t := [].

Definition has (s : t) (x : string) : bool := existsb (String.eqb x) s.

Definition add (s : t) (x : string) : t := if has s x then s else s ++ [x].

(** [new Set(array)] *)
Definition of_list (l : list string) : t := fold_left add l empty.
End JsSet.

(** [!!x] on an optional boolean *)
Definition truthy (x : option bool) : bool :=
  match x with Some b => b | None => false end.

(** [x ?? d] *)
Definition nullish {A : Type} (x : option A) (d : A) : A :=
  match x with Some a => a | None => d end.

(** [x ?? y] where [y] may itself be undefined *)
Definition nullishOpt {A : Type} (x y : option A) : option A :=
  match x with Some a => Some a | None => y end.

(** truthiness of [arr.length] *)
Definition nonEmpty {A : Type} (l : list A) : bool :=
  match l with [] => false | _ :: _ => true end.

(** [===] on [string | undefined] *)
Definition optStrEqb (x y : option string) : bool :=
  match x, y with
  | Some a, Some b => String.eqb a b
  | None, None => true
  | _, _ => false
  end.

(** ** Document model (types Attr, Entity, Relation, DSL) *)

Record Attr := mkAttr {
  a_name : string;
  a_type : string;
  a_pk : option bool;
  a_unique : option bool;
  a_nullable : option bool
}.

Record Entity := mkEntity {
  e_name : string;
  e_stereotype : option string;
  e_attrs : list Attr
}.

Inductive RelKind := association | aggregation | composition.

Record Relation := mkRelation {
  r_from : string;
  r_to : string;
  r_kind : RelKind;
  r_fromCard : option string;
  r_toCard : option string
}.

(** [constraints?: any[]]: the elements are opaque to the service; they are
    carried as serialized text. *)
Definition Constraint : Type := string.

Record DSL := mkDSL {
  entities : list Entity;
  relations : list Relation;
  constraints : option (list Constraint)
}.

Definition kindEqb (x y : RelKind) : bool :=
  match x, y with
  | association, association | aggregation, aggregation
  | composition, composition => true
  | _, _ => false
  end.

(** ** Diff engine *)

Definition indexByName {T : Type} (name : T -> string) (arr : list T)
  : JsMap.t T :=
  fold_left (fun m it => JsMap.set m (name it) it) arr JsMap.empty.

Definition sameAttr (a b : Attr) : bool :=
  String.eqb (a_name a) (a_name b) && String.eqb (a_type a) (a_type b)
  && Bool.eqb (truthy (a_pk a)) (truthy (a_pk b))
  && Bool.eqb (truthy (a_unique a)) (truthy (a_unique b))
  && Bool.eqb (truthy (a_nullable a)) (truthy (a_nullable b)).

Record AttrChange := mkAttrChange {
  ac_name : string;
  ac_from : Attr;
  ac_to : Attr
}.

Record EntityChange := mkEntityChange {
  ec_name : string;
  ec_stereotype_from : option string;
  ec_stereotype_to : option string;
  ec_attrAdded : list Attr;
  ec_attrRemoved : list Attr;
  ec_attrChanged : list AttrChange
}.

Record EntityDiff := mkEntityDiff {
  ed_added : list Entity;
  ed_removed : list Entity;
  ed_changed : list EntityChange
}.

(** Body of [for (const [an, atA] of attrsA)]: the state is
    [(attrRemoved, attrChanged)]. *)
Definition diffAttrStep (attrsB : JsMap.t Attr)
    (st : list Attr * list AttrChange) (kv : string * Attr)
  : list Attr * list AttrChange :=
  let '(attrRemoved, attrChanged) := st in
  let '(an, atA) := kv in
  match JsMap.get attrsB an with
  | None => (attrRemoved ++ [atA], attrChanged)
  | Some atB =>
      if negb (sameAttr atA atB)
      then (attrRemoved, attrChanged ++ [mkAttrChange an atA atB])
      else (attrRemoved, attrChanged)
  end.

(** [for (const [k, vB] of B) if (!A.has(k)) added.push(vB)] *)
Definition pushAbsent {T : Type} (A : JsMap.t T)
    (added : list T) (kv : string * T) : list T :=
  if negb (JsMap.has A (fst kv)) then added ++ [snd kv] else added.

(** Body of [for (const [name, eA] of A)]: the state is [(removed, changed)]. *)
Definition diffEntityStep (B : JsMap.t Entity)
    (st : list Entity * list EntityChange) (kv : string * Entity)
  : list Entity * list EntityChange :=
  let '(removed, changed) := st in
  let '(name, eA) := kv in
  match JsMap.get B name with
  | None => (removed ++ [eA], changed)
  | Some eB =>
      let attrsA := indexByName a_name (e_attrs eA) in
      let attrsB := indexByName a_name (e_attrs eB) in
      let '(attrRemoved, attrChanged) :=
        fold_left (diffAttrStep attrsB) (JsMap.entries attrsA) ([], []) in
      let attrAdded := fold_left (pushAbsent attrsA) (JsMap.entries attrsB) [] in
      if negb (optStrEqb (e_stereotype eA) (e_stereotype eB))
         || nonEmpty attrAdded || nonEmpty attrRemoved || nonEmpty attrChanged
      then (removed,
            changed ++ [mkEntityChange name (e_stereotype eA) (e_stereotype eB)
                          attrAdded attrRemoved attrChanged])
      else (removed, changed)
  end.

Definition diffEntities (a b : list Entity) : EntityDiff :=
  let A := indexByName e_name a in
  let B := indexByName e_name b in
  let '(removed, changed) :=
    fold_left (diffEntityStep B) (JsMap.entries A) ([], []) in
  let added := fold_left (pushAbsent A) (JsMap.entries B) [] in
  mkEntityDiff added removed changed.

Definition keyRel (r : Relation) : string :=
  (r_from r ++ "::" ++ r_to r)%string.

Record RelChange := mkRelChange {
  rc_key : string;
  rc_from : Relation;
  rc_to : Relation
}.

Record RelationDiff := mkRelationDiff {
  rd_added : list Relation;
  rd_removed : list Relation;
  rd_changed : list RelChange
}.

(** The test of line 101: kind, fromCard or toCard differ. *)
Definition relDiffers (rA rB : Relation) : bool :=
  negb (kindEqb (r_kind rA) (r_kind rB))
  || negb (String.eqb (nullish (r_fromCard rA) "") (nullish (r_fromCard rB) ""))
  || negb (String.eqb (nullish (r_toCard rA) "") (nullish (r_toCard rB) "")).

Definition diffRelationStep (B : JsMap.t Relation)
    (st : list Relation * list RelChange) (kv : string * Relation)
  : list Relation * list RelChange :=
  let '(removed, changed) := st in
  let '(k, rA) := kv in
  match JsMap.get B k with
  | None => (removed ++ [rA], changed)
  | Some rB =>
      if relDiffers rA rB
      then (removed, changed ++ [mkRelChange k rA rB])
      else (removed, changed)
  end.

Definition diffRelations (a b : list Relation) : RelationDiff :=
  let A := JsMap.of_list (map (fun r => (keyRel r, r)) a) in
  let B := JsMap.of_list (map (fun r => (keyRel r, r)) b) in
  let '(removed, changed) :=
    fold_left (diffRelationStep B) (JsMap.entries A) ([], []) in
  let added := fold_left (pushAbsent A) (JsMap.entries B) [] in
  mkRelationDiff added removed changed.

(** ** Merge engine *)

(** The three shapes pushed onto [conflicts]: [type:'entity.stereotype'],
    [type:'attr'] and [type:'relation']. *)
Inductive Conflict :=
| CStereotype (name : string) (ours theirs : option string)
| CAttr (entity attr : string) (ours theirs : Attr)
| CRelation (key : string) (ours theirs : Relation).

Definition indexEntities (d : DSL) : JsMap.t Entity :=
  fold_left (fun m e => JsMap.set m (e_name e) e) (entities d) JsMap.empty.

Definition indexRelations (d : DSL) : JsMap.t Relation :=
  fold_left (fun m r => JsMap.set m (keyRel r) r) (relations d) JsMap.empty.

(** [pick = (x?: string) => (x ?? '')] *)
Definition pick (x : option string) : string := nullish x "".

(** [b?.stereotype] and [b?.attrs ?? []] for a possibly absent base entity *)
Definition stereotypeOf (b : option Entity) : option string :=
  match b with Some e => e_stereotype e | None => None end.

Definition attrsOf (b : option Entity) : list Attr :=
  match b with Some e => e_attrs e | None => [] end.

(** [attrs.find(a => a.name === an)] *)
Definition findAttr (an : string) (attrs : list Attr) : option Attr :=
  find (fun a => String.eqb (a_name a) an) attrs.

(** [same] of line 230: type and the three flags, not the name *)
Definition same (x y : Attr) : bool :=
  String.eqb (a_type x) (a_type y)
  && Bool.eqb (truthy (a_pk x)) (truthy (a_pk y))
  && Bool.eqb (truthy (a_unique x)) (truthy (a_unique y))
  && Bool.eqb (truthy (a_nullable x)) (truthy (a_nullable y)).

(** [eq] of line 256 *)
Definition eqRel (x y : Relation) : bool :=
  kindEqb (r_kind x) (r_kind y)
  && String.eqb (nullish (r_fromCard x) "") (nullish (r_fromCard y) "")
  && String.eqb (nullish (r_toCard x) "") (nullish (r_toCard y) "").

(** Body of [for (const an of names)] (lines 221-238); the state is
    [(mAttrs, conflicts)]. *)
Definition mergeAttrStep (name : string) (b : option Entity) (o t : Entity)
    (st : JsMap.t Attr * list Conflict) (an : string)
  : JsMap.t Attr * list Conflict :=
  let '(mAttrs, conflicts) := st in
  let bo := findAttr an (attrsOf b) in
  let ao := findAttr an (e_attrs o) in
  let att := findAttr an (e_attrs t) in
  match bo, ao, att with
  | None, Some ao, None => (JsMap.set mAttrs an ao, conflicts)
  | None, None, Some att => (JsMap.set mAttrs an att, conflicts)
  | Some _, None, None => (mAttrs, conflicts)            (* deleted both *)
  | Some _, Some ao, None => (JsMap.set mAttrs an ao, conflicts)
  | Some _, None, Some att => (JsMap.set mAttrs an att, conflicts)
  | _, Some ao, Some att =>
      if negb (same ao att)
         && match bo with
            | None => true
            | Some bo => negb (same ao bo) && negb (same att bo)
            end
      then (JsMap.set mAttrs an ao, conflicts ++ [CAttr name an ao att])
      else (JsMap.set mAttrs an ao, conflicts)   (* equal or one equals base *)
  | None, None, None => (mAttrs, conflicts)
  end.

(** The stereotype test of line 214 *)
Definition stereotypeConflict (b : option Entity) (o t : Entity) : bool :=
  negb (String.eqb (pick (e_stereotype o)) (pick (e_stereotype t)))
  && negb (String.eqb (pick (e_stereotype o)) (pick (stereotypeOf b)))
  && negb (String.eqb (pick (e_stereotype t)) (pick (stereotypeOf b))).

(** Body of [for (const name of allNames)] (lines 204-240); the state is
    [(resEntities, conflicts)]. *)
Definition mergeEntityStep (bE oE tE : JsMap.t Entity)
    (st : JsMap.t Entity * list Conflict) (name : string)
  : JsMap.t Entity * list Conflict :=
  let '(resEntities, conflicts) := st in
  let b := JsMap.get bE name in
  match b, JsMap.get oE name, JsMap.get tE name with
  | None, Some o, None => (JsMap.set resEntities name o, conflicts)
  | None, None, Some t => (JsMap.set resEntities name t, conflicts)
  | Some _, None, None => (resEntities, conflicts)
  | Some _, Some o, None => (JsMap.set resEntities name o, conflicts)
  | Some _, None, Some t => (JsMap.set resEntities name t, conflicts)
  | None, None, None => (resEntities, conflicts)        (* if (!o || !t) *)
  | _, Some o, Some t =>
      let conflicts1 :=
        if stereotypeConflict b o t
        then conflicts ++ [CStereotype name (e_stereotype o) (e_stereotype t)]
        else conflicts in
      let names :=
        JsSet.of_list (map a_name (e_attrs o) ++ map a_name (e_attrs t)
                       ++ map a_name (attrsOf b)) in
      let '(mAttrs, conflicts2) :=
        fold_left (mergeAttrStep name b o t) names (JsMap.empty, conflicts1) in
      (JsMap.set resEntities name
         (mkEntity name
            (nullishOpt (nullishOpt (e_stereotype o) (e_stereotype t))
               (stereotypeOf b))
            (JsMap.values mAttrs)),
       conflicts2)
  end.

(** Body of [for (const k of allR)] (lines 248-262) *)
Definition mergeRelationStep (bR oR tR : JsMap.t Relation)
    (st : JsMap.t Relation * list Conflict) (k : string)
  : JsMap.t Relation * list Conflict :=
  let '(resRelations, conflicts) := st in
  let b := JsMap.get bR k in
  match b, JsMap.get oR k, JsMap.get tR k with
  | None, Some o, None => (JsMap.set resRelations k o, conflicts)
  | None, None, Some t => (JsMap.set resRelations k t, conflicts)
  | Some _, None, None => (resRelations, conflicts)
  | Some _, Some o, None => (JsMap.set resRelations k o, conflicts)
  | Some _, None, Some t => (JsMap.set resRelations k t, conflicts)
  | None, None, None => (resRelations, conflicts)
  | _, Some o, Some t =>
      if negb (eqRel o t)
         && match b with
            | None => true
            | Some b => negb (eqRel o b) && negb (eqRel t b)
            end
      then (JsMap.set resRelations k o, conflicts ++ [CRelation k o t])
      else (JsMap.set resRelations k o, conflicts)
  end.

Record MergeOutcome := mkMergeOutcome {
  result : DSL;
  conflicts : list Conflict
}.

Definition threeWayMerge (base ours theirs : DSL) : MergeOutcome :=
  let bE := indexEntities base in
  let oE := indexEntities ours in
  let tE := indexEntities theirs in
  let allNames :=
    JsSet.of_list (JsMap.keys bE ++ JsMap.keys oE ++ JsMap.keys tE) in
  let '(resEntities, conflicts0) :=
    fold_left (mergeEntityStep bE oE tE) allNames (JsMap.empty, []) in
  let bR := indexRelations base in
  let oR := indexRelations ours in
  let tR := indexRelations theirs in
  let allR := JsSet.of_list (JsMap.keys bR ++ JsMap.keys oR ++ JsMap.keys tR) in
  let '(resRelations, conflicts1) :=
    fold_left (mergeRelationStep bR oR tR) allR (JsMap.empty, conflicts0) in
  mkMergeOutcome
    (mkDSL (JsMap.values resEntities) (JsMap.values resRelations)
       (Some (nullish (constraints base) [])))
    conflicts1.

(** ** Persistent store (the Prisma tables the service touches) *)

Inductive Error :=
| BadRequest (msg : string)
| NotFound (msg : string)
| UniqueViolation (target : string)      (* Prisma P2002 *)
| RecordNotFound (target : string).      (* Prisma P2025 *)

Inductive Result (A : Type) :=
| Ok (a : A)
| Err (e : Error).
Arguments Ok {A} a.
Arguments Err {A} e.

Record Branch := mkBranch {
  b_id : string;
  b_projectId : string;
  b_name : string;
  b_isDefault : bool;
  b_createdById : string
}.

Record ModelVersion := mkModelVersion {
  v_id : string;
  v_projectId : string;
  v_branchId : string;
  v_parentVersionId : option string;
  v_authorId : string;
  v_message : option string;
  v_content : DSL;
  v_createdAt : Z
}.

Inductive MergeStatus := COMPLETED | CONFLICTS | ABORTED.

Record Merge := mkMerge {
  m_id : string;
  m_projectId : string;
  m_sourceBranchId : string;
  m_targetBranchId : string;
  m_sourceVersionId : string;
  m_targetVersionId : string;
  m_resultVersionId : option string;
  m_status : MergeStatus;
  m_conflicts : option (list Conflict);
  m_createdById : string
}.

Record DiffSummary := mkDiffSummary {
  s_entities : nat * nat * nat;        (* added, removed, changed *)
  s_relations : nat * nat * nat
}.

Record DiffReport := mkDiffReport {
  dr_summary : DiffSummary;
  dr_entities : EntityDiff;
  dr_relations : RelationDiff
}.

Record ModelDiff := mkModelDiff {
  d_projectId : string;
  d_fromVersionId : string;
  d_toVersionId : string;
  d_diff : DiffReport
}.

Inductive AuditMeta :=
| MetaBranchCreate (name : string)
| MetaRestore (restoreFrom : string)
| MetaMerge (nconflicts : nat) (resultVersionId : string).

Record AuditLog := mkAuditLog {
  au_projectId : string;
  au_actorId : string;
  au_action : string;
  au_targetType : string;
  au_targetId : string;
  au_metadata : AuditMeta
}.

Record Store := mkStore {
  branches : list Branch;
  versions : list ModelVersion;
  diffs : list ModelDiff;
  merges : list Merge;
  audits : list AuditLog
}.

(** *** Reads *)

(** [modelVersion.findFirst({ where: { id, projectId } })] *)
Definition findVersion (s : Store) (projectId versionId : string)
  : option ModelVersion :=
  find (fun v => String.eqb (v_id v) versionId
                 && String.eqb (v_projectId v) projectId) (versions s).

Definition getVersion (s : Store) (projectId versionId : string)
  : Result ModelVersion :=
  match findVersion s projectId versionId with
  | Some v => Ok v
  | None => Err (NotFound "Versión no encontrada")
  end.

(** [orderBy: { createdAt: 'desc' }] then first row: a row of maximal
    [createdAt]; among equal timestamps the oldest row is taken. *)
Fixpoint latestOf (rows : list ModelVersion) : option ModelVersion :=
  match rows with
  | [] => None
  | v :: rest =>
      match latestOf rest with
      | Some w => if (v_createdAt v <? v_createdAt w)%Z then Some w else Some v
      | None => Some v
      end
  end.

(** [modelVersion.findFirst({ where: { projectId, branchId },
     orderBy: { createdAt: 'desc' } })] *)
Definition latestOnBranch (s : Store) (projectId branchId : string)
  : option ModelVersion :=
  latestOf (filter (fun v => String.eqb (v_projectId v) projectId
                             && String.eqb (v_branchId v) branchId)
              (versions s)).

(** *** Writes: a store-passing monad in which a thrown error keeps the
    writes made before it (no call of the service opens a transaction). *)

Definition Db (A : Type) : Type := Store -> Result A * Store.

Definition ret {A : Type} (a : A) : Db A := fun s => (Ok a, s).

Definition throw {A : Type} (e : Error) : Db A := fun s => (Err e, s).

Definition bind {A B : Type} (c : Db A) (k : A -> Db B) : Db B :=
  fun s =>
    match c s with
    | (Ok a, s') => k a s'
    | (Err e, s') => (Err e, s')
    end.

Definition read {A : Type} (q : Store -> Result A) : Db A :=
  fun s => (q s, s).

Declare Scope db_scope.
Delimit Scope db_scope with db.
Notation "x <- c ;; k" := (bind c (fun x => k))
  (at level 61, c at next level, right associativity) : db_scope.
Notation "c ;;; k" := (bind c (fun _ => k))
  (at level 61, right associativity) : db_scope.
Local Open Scope db_scope.

(** [branch.create]: primary key [id], unique index [(projectId, name)]. *)
Definition branchCreate (row : Branch) : Db Branch :=
  fun s =>
    if existsb (fun b => String.eqb (b_id b) (b_id row)) (branches s)
    then (Err (UniqueViolation "Branch_pkey"), s)
    else if existsb (fun b => String.eqb (b_projectId b) (b_projectId row)
                              && String.eqb (b_name b) (b_name row))
              (branches s)
    then (Err (UniqueViolation "Branch_projectId_name_key"), s)
    else (Ok row,
          mkStore (branches s ++ [row]) (versions s) (diffs s) (merges s)
            (audits s)).

(** [modelVersion.create]: primary key [id]. *)
Definition versionCreate (row : ModelVersion) : Db ModelVersion :=
  fun s =>
    if existsb (fun v => String.eqb (v_id v) (v_id row)) (versions s)
    then (Err (UniqueViolation "ModelVersion_pkey"), s)
    else (Ok row,
          mkStore (branches s) (versions s ++ [row]) (diffs s) (merges s)
            (audits s)).

(** [merge.create]: primary key [id]. *)
Definition mergeCreate (row : Merge) : Db Merge :=
  fun s =>
    if existsb (fun m => String.eqb (m_id m) (m_id row)) (merges s)
    then (Err (UniqueViolation "Merge_pkey"), s)
    else (Ok row,
          mkStore (branches s) (versions s) (diffs s) (merges s ++ [row])
            (audits s)).

Definition setResultVersion (rid : string) (m : Merge) : Merge :=
  mkMerge (m_id m) (m_projectId m) (m_sourceBranchId m) (m_targetBranchId m)
    (m_sourceVersionId m) (m_targetVersionId m) (Some rid) (m_status m)
    (m_conflicts m) (m_createdById m).

(** [merge.update({ where: { id }, data: { resultVersionId } })] *)
Definition mergeUpdate (id rid : string) : Db unit :=
  fun s =>
    if existsb (fun m => String.eqb (m_id m) id) (merges s)
    then (Ok tt,
          mkStore (branches s) (versions s) (diffs s)
            (map (fun m => if String.eqb (m_id m) id
                           then setResultVersion rid m else m) (merges s))
            (audits s))
    else (Err (RecordNotFound "Merge"), s).

(** [auditLog.create] *)
Definition auditCreate (row : AuditLog) : Db unit :=
  fun s =>
    (Ok tt,
     mkStore (branches s) (versions s) (diffs s) (merges s) (audits s ++ [row])).

(** [modelDiff.upsert] on the unique pair [(fromVersionId, toVersionId)]:
    the stored diff is replaced when the pair exists, a row is appended
    otherwise. *)
Definition diffUpsert (row : ModelDiff) : Db unit :=
  fun s =>
    let hit d := String.eqb (d_fromVersionId d) (d_fromVersionId row)
                 && String.eqb (d_toVersionId d) (d_toVersionId row) in
    (Ok tt,
     mkStore (branches s) (versions s)
       (if existsb hit (diffs s)
        then map (fun d => if hit d
                           then mkModelDiff (d_projectId d) (d_fromVersionId d)
                                  (d_toVersionId d) (d_diff row)
                           else d) (diffs s)
        else diffs s ++ [row])
       (merges s) (audits s)).

(** ** Service operations *)

(** Truthiness of a JavaScript string: non-empty. *)
Definition strTruthy (x : string) : bool :=
  match x with EmptyString => false | String _ _ => true end.

(** *** [String.prototype.trim]

    Strings are the UTF-8 bytes of the JavaScript string, as string literals
    of this file are.  [trim] removes, from both ends, every character that
    ECMAScript counts as WhiteSpace or LineTerminator: TAB, LF, VT, FF, CR,
    SPACE, U+00A0, U+1680, U+2000..U+200A, U+2028, U+2029, U+202F, U+205F,
    U+3000 and U+FEFF.  In UTF-8 a lead byte is never a continuation byte,
    so an encoding found at either end of a well-formed string is a whole
    character of it. *)

Definition bytes (l : list nat) : string :=
  string_of_list_ascii (map ascii_of_nat l).

(** The UTF-8 encodings of the characters [trim] strips. *)
Definition whiteSpace : list string :=
  map bytes
    [ [9]; [10]; [11]; [12]; [13]; [32];                    (* TAB..CR, SPACE *)
      [194; 160];                                            (* U+00A0 *)
      [225; 154; 128];                                       (* U+1680 *)
      [226; 128; 128]; [226; 128; 129]; [226; 128; 130];     (* U+2000.. *)
      [226; 128; 131]; [226; 128; 132]; [226; 128; 133];
      [226; 128; 134]; [226; 128; 135]; [226; 128; 136];
      [226; 128; 137]; [226; 128; 138];                      (* ..U+200A *)
      [226; 128; 168]; [226; 128; 169];                      (* U+2028, U+2029 *)
      [226; 128; 175];                                       (* U+202F *)
      [226; 129; 159];                                       (* U+205F *)
      [227; 128; 128];                                       (* U+3000 *)
      [239; 187; 191] ].                                     (* U+FEFF *)

(** [Some rest] when [x] is [pre] followed by [rest]. *)
Fixpoint dropPrefix (pre x : string) : option string :=
  match pre, x with
  | EmptyString, _ => Some x
  | String a pre', String c x' =>
      if Ascii.eqb a c then dropPrefix pre' x' else None
  | String _ _, EmptyString => None
  end.

(** [Some rest] when [x] starts with one of [seqs]. *)
Fixpoint dropWhite (seqs : list string) (x : string) : option string :=
  match seqs with
  | [] => None
  | q :: seqs' =>
      match dropPrefix q x with
      | Some rest => Some rest
      | None => dropWhite seqs' x
      end
  end.

(** Strip leading [seqs], at most [n] of them. *)
Fixpoint trimStartN (n : nat) (seqs : list string) (x : string) : string :=
  match n with
  | O => x
  | S n' =>
      match dropWhite seqs x with
      | Some rest => trimStartN n' seqs rest
      | None => x
      end
  end.

Definition revString (x : string) : string :=
  string_of_list_ascii (rev (list_ascii_of_string x)).

(** Every stripped character takes at least one byte, so the length of the
    string bounds the number of rounds. *)
Definition trimStart (x : string) : string :=
  trimStartN (String.length x) whiteSpace x.

Definition trimEnd (x : string) : string :=
  revString (trimStartN (String.length x) (map revString whiteSpace)
               (revString x)).

Definition trim (x : string) : string := trimEnd (trimStart x).

(** *** [String.prototype.slice]

    [slice(0, n)] keeps the first [n] UTF-16 code units.  A character of one
    to three bytes is one unit; a character of four bytes is two, a
    surrogate pair.  When the cut falls inside a pair the high surrogate is
    kept alone, written in three bytes as any other code unit of its range
    would be. *)

Definition isContinuation (c : ascii) : bool :=
  let b := nat_of_ascii c in Nat.leb 128 b && Nat.ltb b 192.

(** The high surrogate of the four-byte character that starts with
    [b0 b1 b2]. *)
Definition highSurrogate (b0 b1 b2 : ascii) : string :=
  let h := (nat_of_ascii b0 mod 8) * 256 + (nat_of_ascii b1 mod 64) * 4
           + (nat_of_ascii b2 mod 64) / 16 - 64 in
  bytes [237; 160 + h / 64; 128 + h mod 64].

Fixpoint sliceUnits (n : nat) (x : string) : string :=
  match x with
  | EmptyString => EmptyString
  | String c rest =>
      if isContinuation c then String c (sliceUnits n rest)
      else
        match n with
        | O => EmptyString
        | S n' =>
            if Nat.ltb (nat_of_ascii c) 240 then String c (sliceUnits n' rest)
            else
              match n' with
              | O =>
                  match rest with
                  | String c1 (String c2 _) => highSurrogate c c1 c2
                  | _ => EmptyString
                  end
              | S n'' => String c (sliceUnits n'' rest)
              end
        end
  end.

(** [id.slice(0, 7)] *)
Definition slice7 (id : string) : string := sliceUnits 7 id.

(** *** Branches *)

Definition createBranch (projectId userId name : string)
    (fromVersionId : option string)
    (newBranchId newVersionId : string) (now : Z) : Db Branch :=
  if negb (strTruthy (trim name))
  then throw (BadRequest "Nombre de rama requerido")
  else
    created <- branchCreate (mkBranch newBranchId projectId (trim name) false userId) ;;
    match fromVersionId with
    | Some fid =>
        if strTruthy fid
        then
          base <- read (fun s => Ok (findVersion s projectId fid)) ;;
          match base with
          | None => throw (NotFound "Versión base no encontrada")
          | Some base =>
              versionCreate
                (mkModelVersion newVersionId projectId (b_id created)
                   (Some (v_id base)) userId
                   (Some ("branch: " ++ name ++ " from " ++ slice7 (v_id base))%string)
                   (v_content base) now) ;;;
              ret tt
          end
        else ret tt
    | None => ret tt
    end ;;;
    auditCreate (mkAuditLog projectId userId "BRANCH_CREATE" "Branch"
                   (b_id created) (MetaBranchCreate name)) ;;;
    ret created.

(** *** Diff *)

Definition diff (projectId fromVersionId toVersionId : string) : Db DiffReport :=
  if String.eqb fromVersionId toVersionId
  then throw (BadRequest "Seleccione dos versiones distintas")
  else
    A <- read (fun s => getVersion s projectId fromVersionId) ;;
    B <- read (fun s => getVersion s projectId toVersionId) ;;
    let a := v_content A in
    let b := v_content B in
    let ents := diffEntities (entities a) (entities b) in
    let rels := diffRelations (relations a) (relations b) in
    let summary :=
      mkDiffSummary
        (List.length (ed_added ents), List.length (ed_removed ents),
         List.length (ed_changed ents))
        (List.length (rd_added rels), List.length (rd_removed rels),
         List.length (rd_changed rels)) in
    let report := mkDiffReport summary ents rels in
    diffUpsert (mkModelDiff projectId fromVersionId toVersionId report) ;;;
    ret report.

(** *** Restore *)

Definition restore (projectId userId versionId : string)
    (message : option string) (newVersionId : string) (now : Z)
  : Db ModelVersion :=
  v <- read (fun s => getVersion s projectId versionId) ;;
  latest <- read (fun s => Ok (latestOnBranch s projectId (v_branchId v))) ;;
  created <- versionCreate
               (mkModelVersion newVersionId projectId (v_branchId v)
                  (match latest with Some l => Some (v_id l) | None => None end)
                  userId
                  (Some (nullish message ("restore: " ++ slice7 (v_id v))%string))
                  (v_content v) now) ;;
  auditCreate (mkAuditLog projectId userId "MODEL_SNAPSHOT" "ModelVersion"
                 (v_id created) (MetaRestore (v_id v))) ;;;
  ret created.

(** *** Ancestry *)

(** The [while (cur && limit-- > 0)] loop of [traceParents]; [cur] is
    always an object, so the loop runs while the counter is positive. *)
Fixpoint traceLoop (s : Store) (projectId : string) (cur : ModelVersion)
    (limit : nat) (visited : JsSet.t) : Result JsSet.t :=
  match limit with
  | O => Ok visited
  | S limit' =>
      let visited := JsSet.add visited (v_id cur) in
      match v_parentVersionId cur with
      | None => Ok visited
      | Some pid =>
          if strTruthy pid
          then match getVersion s projectId pid with
               | Ok next => traceLoop s projectId next limit' visited
               | Err e => Err e
               end
          else Ok visited
      end
  end.

Definition traceParents (s : Store) (projectId startId : string) (limit : nat)
  : Result JsSet.t :=
  match getVersion s projectId startId with
  | Ok cur => traceLoop s projectId cur limit JsSet.empty
  | Err e => Err e
  end.

(** The second walk, over [bId]'s chain. *)
Fixpoint ancestorLoop (s : Store) (projectId : string) (aAnc : JsSet.t)
    (cur : ModelVersion) (limit : nat) : Result (option ModelVersion) :=
  match limit with
  | O => Ok None
  | S limit' =>
      if JsSet.has aAnc (v_id cur) then Ok (Some cur)
      else
        match v_parentVersionId cur with
        | None => Ok None
        | Some pid =>
            if strTruthy pid
            then match getVersion s projectId pid with
                 | Ok next => ancestorLoop s projectId aAnc next limit'
                 | Err e => Err e
                 end
            else Ok None
        end
  end.

Definition findCommonAncestor (s : Store) (projectId aId bId : string)
  : Result (option ModelVersion) :=
  match traceParents s projectId aId 200 with
  | Err e => Err e
  | Ok aAnc =>
      match getVersion s projectId bId with
      | Err e => Err e
      | Ok cur => ancestorLoop s projectId aAnc cur 200
      end
  end.

(** *** Merge *)

Record MergeParams := mkMergeParams {
  sourceBranchId : string;
  targetBranchId : string;
  sourceVersionId : string;
  targetVersionId : string
}.

Record MergeReply := mkMergeReply {
  mergeId : string;
  status : MergeStatus;
  reply_conflicts : list Conflict;
  resultVersionId : string
}.

Definition emptyDSL : DSL := mkDSL [] [] (Some []).

Definition merge (projectId userId : string) (params : MergeParams)
    (newMergeId newVersionId : string) (now : Z) : Db MergeReply :=
  src <- read (fun s => getVersion s projectId (sourceVersionId params)) ;;
  dst <- read (fun s => getVersion s projectId (targetVersionId params)) ;;
  if negb (String.eqb (v_branchId src) (sourceBranchId params))
     || negb (String.eqb (v_branchId dst) (targetBranchId params))
  then throw (BadRequest "Las versiones no corresponden a las ramas indicadas")
  else
    ancestor <- read (fun s =>
                  findCommonAncestor s projectId (sourceVersionId params)
                    (targetVersionId params)) ;;
    let base := match ancestor with
                | Some a => v_content a
                | None => emptyDSL
                end in
    let ours := v_content dst in
    let theirs := v_content src in
    let out := threeWayMerge base ours theirs in
    let st := if nonEmpty (conflicts out) then CONFLICTS else COMPLETED in
    mergeRec <- mergeCreate
                  (mkMerge newMergeId projectId (sourceBranchId params)
                     (targetBranchId params) (sourceVersionId params)
                     (targetVersionId params) None st
                     (if nonEmpty (conflicts out) then Some (conflicts out)
                      else None)
                     userId) ;;
    created <- versionCreate
                 (mkModelVersion newVersionId projectId (targetBranchId params)
                    (Some (targetVersionId params)) userId
                    (Some (if nonEmpty (conflicts out)
                           then "merge (with conflicts)" else "merge"))
                    (result out) now) ;;
    mergeUpdate (m_id mergeRec) (v_id created) ;;;
    auditCreate (mkAuditLog projectId userId "MERGE" "Merge" (m_id mergeRec)
                   (MetaMerge (List.length (conflicts out)) (v_id created))) ;;;
    ret (mkMergeReply (m_id mergeRec) st (conflicts out) (v_id created)).

(** * Definitions used by the properties *)

(** ** Closed forms of the loops

    The loops of the diff and of the merge, written as list expressions;
    the properties below relate them to the loops and are stated with
    them. *)

(** Indexing a list by a key function, the [for (...) m.set(key(x), x)]
    idiom shared by [indexByName], [indexEntities], [indexRelations] and
    [new Map(a.map(r => [keyRel(r), r]))]. *)
Definition indexFrom {V : Type} (key : V -> string) (l : list V)
    (m0 : JsMap.t V)
  : JsMap.t V :=
  fold_left (fun m x => JsMap.set m (key x) x) l m0.

(** Values whose key the other map lacks, in iteration order. *)
Definition onlyIn {T : Type} (A B : JsMap.t T) : list T :=
  flat_map (fun kv => if JsMap.has B (fst kv) then [] else [snd kv]) A.

(** Pairs of values under a key both maps have, in the order of [A]. *)
Definition common {T : Type} (A B : JsMap.t T) : list (string * T * T) :=
  flat_map (fun kv => match JsMap.get B (fst kv) with
                      | Some w => [(fst kv, snd kv, w)]
                      | None => []
                      end) A.

Definition flip3 {T : Type} (p : string * T * T) : string * T * T :=
  let '(k, x, y) := p in (k, y, x).

Definition chg3 {T C : Type} (chg : string -> T -> T -> list C)
    (p : string * T * T) : list C :=
  let '(k, x, y) := p in chg k x y.

Definition attrChg (an : string) (atA atB : Attr) : list AttrChange :=
  if negb (sameAttr atA atB) then [mkAttrChange an atA atB] else [].

Definition entityChg (name : string) (eA eB : Entity) : list EntityChange :=
  let attrsA := indexByName a_name (e_attrs eA) in
  let attrsB := indexByName a_name (e_attrs eB) in
  let attrAdded := onlyIn attrsB attrsA in
  let attrRemoved := onlyIn attrsA attrsB in
  let attrChanged := flat_map (chg3 attrChg) (common attrsA attrsB) in
  if negb (optStrEqb (e_stereotype eA) (e_stereotype eB))
     || nonEmpty attrAdded || nonEmpty attrRemoved || nonEmpty attrChanged
  then [mkEntityChange name (e_stereotype eA) (e_stereotype eB)
          attrAdded attrRemoved attrChanged]
  else [].

Definition relChg (k : string) (rA rB : Relation) : list RelChange :=
  if relDiffers rA rB then [mkRelChange k rA rB] else [].

Definition relIndex (a : list Relation) : JsMap.t Relation :=
  JsMap.of_list (map (fun r => (keyRel r, r)) a).

Definition setOpt {V : Type} (m : JsMap.t V) (k : string) (ov : option V)
  : JsMap.t V :=
  match ov with Some v => JsMap.set m k v | None => m end.

(** The entries a loop over distinct keys leaves in an initially empty
    map: one per key that resolves to a value, in iteration order. *)
Definition collected {V : Type} (out : string -> option V * list Conflict)
    (l : list string) : JsMap.t V :=
  flat_map (fun k => match fst (out k) with
                     | Some v => [(k, v)]
                     | None => []
                     end) l.

Definition attrConflictTest (bo : option Attr) (ao att : Attr) : bool :=
  negb (same ao att)
  && match bo with
     | None => true
     | Some bo => negb (same ao bo) && negb (same att bo)
     end.

Definition attrOutcome (name : string) (b : option Entity) (o t : Entity)
    (an : string) : option Attr * list Conflict :=
  match findAttr an (attrsOf b), findAttr an (e_attrs o),
        findAttr an (e_attrs t) with
  | bo, Some ao, Some att =>
      (Some ao,
       if attrConflictTest bo ao att then [CAttr name an ao att] else [])
  | _, Some ao, None => (Some ao, [])
  | _, None, Some att => (Some att, [])
  | _, None, None => (None, [])
  end.

Definition attrNames (b : option Entity) (o t : Entity) : JsSet.t :=
  JsSet.of_list (map a_name (e_attrs o) ++ map a_name (e_attrs t)
                 ++ map a_name (attrsOf b)).

Definition mergedEntity (name : string) (b : option Entity) (o t : Entity)
  : Entity :=
  mkEntity name
    (nullishOpt (nullishOpt (e_stereotype o) (e_stereotype t)) (stereotypeOf b))
    (JsMap.values (collected (attrOutcome name b o t) (attrNames b o t))).

Definition entityOutcome (bE oE tE : JsMap.t Entity) (name : string)
  : option Entity * list Conflict :=
  let b := JsMap.get bE name in
  match JsMap.get oE name, JsMap.get tE name with
  | Some o, Some t =>
      (Some (mergedEntity name b o t),
       (if stereotypeConflict b o t
        then [CStereotype name (e_stereotype o) (e_stereotype t)] else [])
       ++ flat_map (fun an => snd (attrOutcome name b o t an)) (attrNames b o t))
  | Some o, None => (Some o, [])
  | None, Some t => (Some t, [])
  | None, None => (None, [])
  end.

Definition relConflictTest (b : option Relation) (o t : Relation) : bool :=
  negb (eqRel o t)
  && match b with
     | None => true
     | Some b => negb (eqRel o b) && negb (eqRel t b)
     end.

Definition relOutcome (bR oR tR : JsMap.t Relation) (k : string)
  : option Relation * list Conflict :=
  match JsMap.get oR k, JsMap.get tR k with
  | Some o, Some t =>
      (Some o,
       if relConflictTest (JsMap.get bR k) o t then [CRelation k o t] else [])
  | Some o, None => (Some o, [])
  | None, Some t => (Some t, [])
  | None, None => (None, [])
  end.

Definition allKeys {V : Type} (b o t : JsMap.t V) : JsSet.t :=
  JsSet.of_list (JsMap.keys b ++ JsMap.keys o ++ JsMap.keys t).

(** ** Vocabulary of the statements *)

Definition swapAttrChange (c : AttrChange) : AttrChange :=
  mkAttrChange (ac_name c) (ac_to c) (ac_from c).

Definition swapRelChange (c : RelChange) : RelChange :=
  mkRelChange (rc_key c) (rc_to c) (rc_from c).

(** [c'] is [c] read in the other direction: same entity, stereotype
    from/to exchanged, added and removed attributes exchanged, and the
    changed attributes the same set with from/to exchanged. *)
Definition mirrorEntityChange (c c' : EntityChange) : Prop :=
  ec_name c' = ec_name c
  /\ ec_stereotype_from c' = ec_stereotype_to c
  /\ ec_stereotype_to c' = ec_stereotype_from c
  /\ ec_attrAdded c' = ec_attrRemoved c
  /\ ec_attrRemoved c' = ec_attrAdded c
  /\ Permutation (map swapAttrChange (ec_attrChanged c)) (ec_attrChanged c').

Inductive ConflictKey :=
| KStereotype (name : string)
| KAttr (entity attr : string)
| KRelation (key : string).

Definition keyOf (c : Conflict) : ConflictKey :=
  match c with
  | CStereotype name _ _ => KStereotype name
  | CAttr entity attr _ _ => KAttr entity attr
  | CRelation key _ _ => KRelation key
  end.

Definition keyEqb (x y : ConflictKey) : bool :=
  match x, y with
  | KStereotype a, KStereotype b => String.eqb a b
  | KAttr a1 a2, KAttr b1 b2 => String.eqb a1 b1 && String.eqb a2 b2
  | KRelation a, KRelation b => String.eqb a b
  | _, _ => false
  end.

(** The conflicts recorded for one key. *)
Definition conflictsAt (key : ConflictKey) (cs : list Conflict) : list Conflict :=
  filter (fun c => keyEqb (keyOf c) key) cs.

(** The version reached from [cur] after [n] parent links, if the chain is
    that long and every link resolves in the project. *)
Fixpoint walk (s : Store) (projectId : string) (cur : ModelVersion) (n : nat)
  : option ModelVersion :=
  match n with
  | O => Some cur
  | S n' =>
      match v_parentVersionId cur with
      | None => None
      | Some pid =>
          if strTruthy pid
          then match findVersion s projectId pid with
               | Some next => walk s projectId next n'
               | None => None
               end
          else None
      end
  end.

(** Every parent link of a version of the project resolves in the project
    (chains may still be cyclic). *)
Definition parentClosed (s : Store) (projectId : string) : Prop :=
  forall v pid,
    In v (versions s) -> v_projectId v = projectId ->
    v_parentVersionId v = Some pid -> strTruthy pid = true ->
    findVersion s projectId pid <> None.

(** The rows [merge] writes, given the three documents' merge outcome. *)
Definition mergeRow (p u : string) (params : MergeParams) (mid : string)
    (rid : option string) (out : MergeOutcome) : Merge :=
  mkMerge mid p (sourceBranchId params) (targetBranchId params)
    (sourceVersionId params) (targetVersionId params) rid
    (if nonEmpty (conflicts out) then CONFLICTS else COMPLETED)
    (if nonEmpty (conflicts out) then Some (conflicts out) else None) u.

Definition resultRow (p u : string) (params : MergeParams) (vid : string)
    (now : Z) (out : MergeOutcome) : ModelVersion :=
  mkModelVersion vid p (targetBranchId params) (Some (targetVersionId params))
    u (Some (if nonEmpty (conflicts out)
             then "merge (with conflicts)" else "merge"))
    (result out) now.

Definition mergeAudit (p u mid vid : string) (out : MergeOutcome) : AuditLog :=
  mkAuditLog p u "MERGE" "Merge" mid
    (MetaMerge (List.length (conflicts out)) vid).

(** ** Sample documents and stores *)

Definition tc_attr (ty : string) : Attr := mkAttr "email" ty None None None.

Definition tc_rel (k : RelKind) : Relation :=
  mkRelation "User" "Order" k (Some "1") (Some "*").

Definition tc_doc (st ty : string) (k : RelKind) : DSL :=
  mkDSL [mkEntity "User" (Some st) [tc_attr ty]] [tc_rel k] None.

Definition ff_X : DSL :=
  mkDSL [mkEntity "User" None [tc_attr "varchar"]] [] (Some []).

Definition ff_Y : DSL := mkDSL [] [] (Some []).

Definition ff_Z : DSL :=
  mkDSL [mkEntity "Payment" None []] [tc_rel association] None.

Definition rs_version (id : string) (parent : option string) (ty : string)
    (t : Z) : ModelVersion :=
  mkModelVersion id "p" "main" parent "alice" None
    (mkDSL [mkEntity "User" None [tc_attr ty]] [] None) t.

Definition rs_store : Store :=
  mkStore [mkBranch "main" "p" "main" true "alice"]
    [rs_version "v1" None "varchar" 10; rs_version "v2" (Some "v1") "text" 20]
    [] [] [].

(** A store whose parent links form cycles: v1 and v2 point at each other,
    v3 points at itself. *)
Definition cyc_version (id parent : string) : ModelVersion :=
  mkModelVersion id "p" "main" (Some parent) "alice" None emptyDSL 0.

Definition cyc_store : Store :=
  mkStore [] [cyc_version "v1" "v2"; cyc_version "v2" "v1";
              cyc_version "v3" "v3"] [] [] [].

Definition mg_version (id branch : string) (parent : option string)
    (ty : string) (t : Z) : ModelVersion :=
  mkModelVersion id "p" branch parent "alice" None
    (mkDSL [mkEntity "User" None [tc_attr ty]] [] None) t.

Definition mg_store : Store :=
  mkStore [mkBranch "main" "p" "main" true "alice";
           mkBranch "feat" "p" "feature" false "alice"]
    [mg_version "v1" "main" None "varchar" 10;
     mg_version "v2" "feat" (Some "v1") "text" 20]
    [] [] [].

Definition mg_params : MergeParams := mkMergeParams "feat" "main" "v2" "v1".

Definition df_store : Store :=
  mkStore [mkBranch "main" "p" "main" true "alice"]
    [rs_version "v1" None "varchar" 10;
     rs_version "v2" (Some "v1") "varchar" 20]
    [] [] [].

(** ** Vocabulary of the further properties *)

(** Two maps agree up to [R]: they have the same keys and the values under
    each key are related by [R]. *)
Definition agree {T : Type} (R : T -> T -> Prop) (A B : JsMap.t T) : Prop :=
  forall k,
    match JsMap.get A k, JsMap.get B k with
    | Some x, Some y => R x y
    | None, None => True
    | _, _ => False
    end.

(** Two entities the diff does not tell apart: equal stereotypes, the same
    attribute names, and under each name attributes equal by [sameAttr]. *)
Definition sameEntity (x y : Entity) : Prop :=
  e_stereotype x = e_stereotype y
  /\ agree (fun a b => sameAttr a b = true)
       (indexByName a_name (e_attrs x)) (indexByName a_name (e_attrs y)).

Definition cacheHit (a b : string) (d : ModelDiff) : bool :=
  String.eqb (d_fromVersionId d) a && String.eqb (d_toVersionId d) b.

Definition cacheUpdate (row d : ModelDiff) : ModelDiff :=
  if cacheHit (d_fromVersionId row) (d_toVersionId row) d
  then mkModelDiff (d_projectId d) (d_fromVersionId d) (d_toVersionId d)
         (d_diff row)
  else d.

Definition branchAudit (p u bid name : string) : AuditLog :=
  mkAuditLog p u "BRANCH_CREATE" "Branch" bid (MetaBranchCreate name).

(** [s'] is [s] with rows appended to the branch, version, merge and audit
    tables: at most one version, which belongs to project [p] and whose
    parent link, if any, resolves in [p]. *)
Definition grows (p : string) (s s' : Store) : Prop :=
  exists lb lv lm la,
    branches s' = branches s ++ lb
    /\ versions s' = versions s ++ lv
    /\ merges s' = merges s ++ lm
    /\ audits s' = audits s ++ la
    /\ List.length lv <= 1
    /\ forall v, In v lv ->
         v_projectId v = p
         /\ forall pid, v_parentVersionId v = Some pid ->
                        findVersion s p pid <> None.

(** ** Further sample documents and stores *)

Definition dj_ours : DSL :=
  mkDSL [mkEntity "Invoice" None [tc_attr "varchar"]] [] None.

Definition an_version (id : string) (parent : option string) : ModelVersion :=
  mkModelVersion id "p" "main" parent "alice" None emptyDSL 0.

(** v1 <- v2 <- v3 and v2 <- v4: v3 and v4 fork at v2. *)
Definition an_store : Store :=
  mkStore [] [an_version "v1" None; an_version "v2" (Some "v1");
              an_version "v3" (Some "v2"); an_version "v4" (Some "v2")]
    [] [] [].

Definition dg_store : Store :=
  mkStore [] [an_version "v2" (Some "v1"); an_version "v3" (Some "v2")]
    [] [] [].

(** Vocabulary of [trim]. *)

(** The concatenation of a list of strings. *)
Definition joined (ws : list string) : string :=
  fold_right String.append "" ws.

(** [x] begins with none of [seqs]. *)
Definition startsClean (seqs : list string) (x : string) : Prop :=
  dropWhite seqs x = None.

(** * Properties *)

(** ** Facts about the containers *)

Section JsMapFacts.
Context {V : Type}.
Implicit Types (m : JsMap.t V) (k : string) (v : V).

Lemma get_In m k v : JsMap.get m k = Some v -> In (k, v) m.
Proof.
  induction m as [|[k' v'] m IH]; simpl; [discriminate|].
  destruct (String.eqb_spec k' k) as [->|Hne].
  - intros [= ->]. now left.
  - intros H. right. auto.
Qed.

Lemma get_None_keys m k : JsMap.get m k = None <-> ~ In k (JsMap.keys m).
Proof.
  induction m as [|[k' v'] m IH]; simpl.
  - tauto.
  - destruct (String.eqb_spec k' k) as [->|Hne].
    + split; [discriminate|]. intros H. exfalso. apply H. now left.
    + rewrite IH. intuition congruence.
Qed.

Lemma get_Some_keys m k v : JsMap.get m k = Some v -> In k (JsMap.keys m).
Proof.
  intros H. apply get_In in H. apply (in_map fst) in H. exact H.
Qed.

Lemma In_get m k v :
  NoDup (JsMap.keys m) -> In (k, v) m -> JsMap.get m k = Some v.
Proof.
  induction m as [|[k' v'] m IH]; simpl; [tauto|].
  intros Hnd [Heq|Hin].
  - injection Heq as -> ->. now rewrite String.eqb_refl.
  - inversion Hnd as [|? ? Hnotin Hnd']; subst.
    destruct (String.eqb_spec k' k) as [->|Hne]; [|auto].
    exfalso. apply Hnotin. apply (in_map fst) in Hin. exact Hin.
Qed.

Lemma has_get m k :
  JsMap.has m k = match JsMap.get m k with Some _ => true | None => false end.
Proof. reflexivity. Qed.

Lemma set_fresh m k v :
  ~ In k (JsMap.keys m) -> JsMap.set m k v = m ++ [(k, v)].
Proof.
  induction m as [|[k' v'] m IH]; simpl; [reflexivity|].
  intros Hn. destruct (String.eqb_spec k' k) as [->|Hne].
  - exfalso. apply Hn. now left.
  - rewrite IH; [reflexivity|]. intros H. apply Hn. now right.
Qed.

Lemma keys_set m k v :
  JsMap.keys (JsMap.set m k v) =
  if JsMap.has m k then JsMap.keys m else JsMap.keys m ++ [k].
Proof.
  unfold JsMap.has.
  induction m as [|[k' v'] m IH]; simpl; [reflexivity|].
  destruct (String.eqb_spec k' k) as [->|Hne]; simpl; [reflexivity|].
  rewrite IH. now destruct (JsMap.get m k).
Qed.

Lemma NoDup_snoc {A : Type} (l : list A) (x : A) :
  NoDup l -> ~ In x l -> NoDup (l ++ [x]).
Proof.
  intros Hl Hx. apply NoDup_rev in Hl.
  rewrite <- (rev_involutive (l ++ [x])). apply NoDup_rev.
  rewrite rev_app_distr. simpl. constructor; [|exact Hl].
  now rewrite <- in_rev.
Qed.

Lemma set_NoDup m k v :
  NoDup (JsMap.keys m) -> NoDup (JsMap.keys (JsMap.set m k v)).
Proof.
  intros Hnd. rewrite keys_set, has_get.
  destruct (JsMap.get m k) eqn:E; [exact Hnd|].
  apply NoDup_snoc; [exact Hnd|]. now apply get_None_keys.
Qed.

Lemma get_set m k v k' :
  JsMap.get (JsMap.set m k v) k' =
  if String.eqb k k' then Some v else JsMap.get m k'.
Proof.
  induction m as [|[k0 v0] m IH]; simpl.
  - reflexivity.
  - destruct (String.eqb_spec k0 k) as [->|Hne]; simpl.
    + now destruct (String.eqb_spec k k').
    + rewrite IH. destruct (String.eqb_spec k0 k') as [->|Hne'].
      * destruct (String.eqb_spec k k'); [congruence|reflexivity].
      * reflexivity.
Qed.

Lemma indexFrom_NoDup key l m0 :
  NoDup (JsMap.keys m0) -> NoDup (JsMap.keys (indexFrom key l m0)).
Proof.
  revert m0. induction l as [|x l IH]; intros m0 H; simpl; [exact H|].
  apply IH. now apply set_NoDup.
Qed.

Lemma In_set m k0 v0 k v :
  In (k, v) (JsMap.set m k0 v0) -> (k, v) = (k0, v0) \/ In (k, v) m.
Proof.
  induction m as [|[k1 v1] m IH]; simpl.
  - intros [H|[]]. left. now symmetry.
  - destruct (String.eqb_spec k1 k0) as [E|Hne]; simpl.
    + intros [H|H]; [left; congruence|right; now right].
    + intros [H|H]; [right; now left|].
      destruct (IH H) as [G|G]; [now left|right; now right].
Qed.

Lemma indexFrom_key key l m0 :
  (forall k v, In (k, v) m0 -> key v = k) ->
  forall k v, In (k, v) (indexFrom key l m0) -> key v = k.
Proof.
  revert m0. induction l as [|x l IH]; intros m0 H; simpl; [exact H|].
  apply IH. intros k v Hin.
  apply In_set in Hin. destruct Hin as [E|Hin]; [congruence|].
  now apply H.
Qed.

(** Re-indexing the values of a well-keyed map gives the map back. *)
Lemma indexFrom_values key (m2 : JsMap.t V) : forall m1,
  NoDup (JsMap.keys (m1 ++ m2)) ->
  (forall k v, In (k, v) m2 -> key v = k) ->
  indexFrom key (JsMap.values m2) m1 = m1 ++ m2.
Proof.
  induction m2 as [|[k v] m2 IH]; intros m1 Hnd Hk.
  - simpl. now rewrite app_nil_r.
  - assert (Hkv : key v = k) by (apply Hk; now left).
    change (indexFrom key (JsMap.values ((k, v) :: m2)) m1)
      with (indexFrom key (JsMap.values m2) (JsMap.set m1 (key v) v)).
    rewrite Hkv.
    assert (Hfresh : ~ In k (JsMap.keys m1)).
    { unfold JsMap.keys in *. rewrite map_app in Hnd. simpl in Hnd.
      apply NoDup_remove_2 in Hnd. intros H. apply Hnd.
      apply in_or_app. now left. }
    rewrite set_fresh by exact Hfresh.
    rewrite IH.
    + now rewrite <- app_assoc.
    + now rewrite <- app_assoc.
    + intros. apply Hk. now right.
Qed.
End JsMapFacts.

Section JsSetFacts.
Implicit Types (s : JsSet.t) (x : string).

Lemma set_has_In s x : JsSet.has s x = true <-> In x s.
Proof.
  unfold JsSet.has. rewrite existsb_exists. split.
  - intros [y [Hin Heq]]. apply String.eqb_eq in Heq. now subst.
  - intros H. exists x. split; [exact H|apply String.eqb_refl].
Qed.

Lemma set_has_false s x : JsSet.has s x = false <-> ~ In x s.
Proof.
  rewrite <- set_has_In. destruct (JsSet.has s x); intuition congruence.
Qed.

Lemma add_In s x y : In y (JsSet.add s x) <-> In y s \/ y = x.
Proof.
  unfold JsSet.add. destruct (JsSet.has s x) eqn:E.
  - apply set_has_In in E. intuition congruence.
  - rewrite in_app_iff. simpl. intuition.
Qed.

Lemma add_NoDup s x : NoDup s -> NoDup (JsSet.add s x).
Proof.
  intros H. unfold JsSet.add. destruct (JsSet.has s x) eqn:E; [exact H|].
  apply NoDup_snoc; [exact H|]. now apply set_has_false.
Qed.

Lemma add_length s x : List.length (JsSet.add s x) <= S (List.length s).
Proof.
  unfold JsSet.add. destruct (JsSet.has s x); [lia|].
  rewrite length_app. simpl. lia.
Qed.

Lemma fold_add_NoDup l : forall s, NoDup s -> NoDup (fold_left JsSet.add l s).
Proof.
  induction l as [|x l IH]; intros s H; simpl; [exact H|].
  apply IH. now apply add_NoDup.
Qed.

Lemma fold_add_In l : forall s y,
  In y (fold_left JsSet.add l s) <-> In y s \/ In y l.
Proof.
  induction l as [|x l IH]; intros s y; simpl; [tauto|].
  rewrite IH, add_In. intuition.
Qed.

Lemma of_list_NoDup l : NoDup (JsSet.of_list l).
Proof. apply fold_add_NoDup. constructor. Qed.

Lemma of_list_In l y : In y (JsSet.of_list l) <-> In y l.
Proof. unfold JsSet.of_list. rewrite fold_add_In. simpl. tauto. Qed.
End JsSetFacts.

(** ** Facts about the diff loops *)

Section DiffFacts.
Context {T : Type}.
Implicit Types (A B : JsMap.t T).

Lemma fold_pushAbsent A B acc :
  fold_left (pushAbsent A) B acc = acc ++ onlyIn B A.
Proof.
  revert acc. induction B as [|[k v] B IH]; intros acc; simpl.
  - now rewrite app_nil_r.
  - rewrite IH. unfold pushAbsent. simpl.
    destruct (JsMap.has A k); simpl; [reflexivity|].
    now rewrite <- app_assoc.
Qed.

Lemma common_In A B k x y :
  In (k, x, y) (common A B) <-> In (k, x) A /\ JsMap.get B k = Some y.
Proof.
  unfold common. rewrite in_flat_map. split.
  - intros [[k' x'] [Hin H]]. simpl in H.
    destruct (JsMap.get B k') eqn:E; simpl in H; [|tauto].
    destruct H as [[= -> -> ->]|[]]. auto.
  - intros [Hin Hg]. exists (k, x). split; [exact Hin|].
    simpl. rewrite Hg. now left.
Qed.

Lemma common_keys A B :
  map (fun p => fst (fst p)) (common A B)
  = filter (JsMap.has B) (JsMap.keys A).
Proof.
  induction A as [|[k v] A IH]; simpl; [reflexivity|].
  unfold JsMap.has at 1. destruct (JsMap.get B k); simpl; now rewrite IH.
Qed.

Lemma common_NoDup A B : NoDup (JsMap.keys A) -> NoDup (common A B).
Proof.
  intros H. apply (NoDup_map_inv (fun p => fst (fst p))).
  rewrite common_keys. now apply NoDup_filter.
Qed.

Lemma common_flip A B :
  NoDup (JsMap.keys A) -> NoDup (JsMap.keys B) ->
  Permutation (map flip3 (common A B)) (common B A).
Proof.
  intros HA HB. apply NoDup_Permutation.
  - apply (NoDup_map_inv (fun p => fst (fst p))).
    rewrite map_map.
    replace (map (fun x => fst (fst (flip3 x))) (common A B))
      with (map (fun p => fst (fst p)) (common A B))
      by (apply map_ext; intros [[? ?] ?]; reflexivity).
    rewrite common_keys. now apply NoDup_filter.
  - now apply common_NoDup.
  - intros [[k y] x]. rewrite in_map_iff. split.
    + intros [[[k' x'] y'] [[= -> -> ->] Hin]].
      apply common_In in Hin. destruct Hin as [Hin Hg].
      apply common_In. split; [now apply get_In|now apply In_get].
    + intros Hin. apply common_In in Hin. destruct Hin as [Hin Hg].
      exists (k, x, y). split; [reflexivity|].
      apply common_In. split; [now apply get_In|now apply In_get].
Qed.

End DiffFacts.

Section ChangedFacts.
Context {T C : Type}.
Implicit Types (A B : JsMap.t T).
Variable chg : string -> T -> T -> list C.

Lemma fold_diffStep (step : list T * list C -> string * T -> list T * list C) B :
  (forall r c k v,
      step (r, c) (k, v) =
      match JsMap.get B k with
      | None => (r ++ [v], c)
      | Some w => (r, c ++ chg k v w)
      end) ->
  forall A r c,
    fold_left step A (r, c) =
    (r ++ onlyIn A B, c ++ flat_map (chg3 chg) (common A B)).
Proof.
  intros Hstep. induction A as [|[k v] A IH]; intros r c; simpl.
  - now rewrite !app_nil_r.
  - rewrite Hstep. unfold JsMap.has.
    destruct (JsMap.get B k) as [w|]; rewrite IH; simpl.
    + now rewrite <- app_assoc.
    + now rewrite <- app_assoc.
Qed.

(** The changed lists of the two directions are permutations of each other
    up to any relation that holds between [chg k x y] and [chg k y x]. *)
Lemma changed_mirror (R : C -> C -> Prop) A B :
  (forall k x y, Forall2 R (chg k x y) (chg k y x)) ->
  NoDup (JsMap.keys A) -> NoDup (JsMap.keys B) ->
  exists l,
    Permutation l (flat_map (chg3 chg) (common B A))
    /\ Forall2 R (flat_map (chg3 chg) (common A B)) l.
Proof.
  intros HR HA HB.
  exists (flat_map (chg3 chg) (map flip3 (common A B))). split.
  - apply Permutation_flat_map. now apply common_flip.
  - induction (common A B) as [|[[k x] y] l IH]; simpl; [constructor|].
    apply Forall2_app; [apply HR|exact IH].
Qed.
End ChangedFacts.

Lemma flat_map_nil {X Y : Type} (f : X -> list Y) (l : list X) :
  (forall x, In x l -> f x = []) -> flat_map f l = [].
Proof.
  induction l as [|x l IH]; intros H; simpl; [reflexivity|].
  rewrite (H x) by now left. apply IH. intros. apply H. now right.
Qed.

Lemma onlyIn_self {T : Type} (A : JsMap.t T) : onlyIn A A = [].
Proof.
  apply flat_map_nil. intros [k v] Hin. simpl. unfold JsMap.has.
  destruct (JsMap.get A k) eqn:E; [reflexivity|].
  apply get_None_keys in E. exfalso. apply E.
  apply (in_map fst) in Hin. exact Hin.
Qed.

Lemma changed_self {T C : Type} (chg : string -> T -> T -> list C)
    (A : JsMap.t T) :
  (forall k x, chg k x x = []) -> NoDup (JsMap.keys A) ->
  flat_map (chg3 chg) (common A A) = [].
Proof.
  intros Hchg Hnd. apply flat_map_nil. intros [[k x] y] Hin.
  apply common_In in Hin. destruct Hin as [Hin Hg].
  apply In_get in Hin; [|exact Hnd].
  assert (x = y) by congruence. subst. apply Hchg.
Qed.

(** *** The diff loops in closed form *)

Lemma indexByName_NoDup {T : Type} (name : T -> string) (arr : list T) :
  NoDup (JsMap.keys (indexByName name arr)).
Proof. apply (indexFrom_NoDup name arr []). constructor. Qed.

Lemma diffAttrStep_eq attrsB r c k v :
  diffAttrStep attrsB (r, c) (k, v) =
  match JsMap.get attrsB k with
  | None => (r ++ [v], c)
  | Some w => (r, c ++ attrChg k v w)
  end.
Proof.
  unfold diffAttrStep, attrChg. destruct (JsMap.get attrsB k); [|reflexivity].
  destruct (negb (sameAttr v a)); [reflexivity|now rewrite app_nil_r].
Qed.

Lemma diffEntityStep_eq B r c k v :
  diffEntityStep B (r, c) (k, v) =
  match JsMap.get B k with
  | None => (r ++ [v], c)
  | Some w => (r, c ++ entityChg k v w)
  end.
Proof.
  unfold diffEntityStep, entityChg.
  destruct (JsMap.get B k) as [w|]; [|reflexivity].
  unfold JsMap.entries.
  rewrite (fold_diffStep attrChg _ _ (diffAttrStep_eq _)).
  rewrite fold_pushAbsent. simpl.
  match goal with |- context [if ?b then _ else _] => destruct b end;
    [reflexivity|now rewrite app_nil_r].
Qed.

Lemma diffRelationStep_eq B r c k v :
  diffRelationStep B (r, c) (k, v) =
  match JsMap.get B k with
  | None => (r ++ [v], c)
  | Some w => (r, c ++ relChg k v w)
  end.
Proof.
  unfold diffRelationStep, relChg. destruct (JsMap.get B k); [|reflexivity].
  destruct (relDiffers v r0); [reflexivity|now rewrite app_nil_r].
Qed.

Lemma diffEntities_closed a b :
  diffEntities a b =
  let A := indexByName e_name a in
  let B := indexByName e_name b in
  mkEntityDiff (onlyIn B A) (onlyIn A B) (flat_map (chg3 entityChg) (common A B)).
Proof.
  unfold diffEntities, JsMap.entries.
  rewrite (fold_diffStep entityChg _ _ (diffEntityStep_eq _)).
  now rewrite fold_pushAbsent.
Qed.

Lemma relIndex_NoDup a : NoDup (JsMap.keys (relIndex a)).
Proof.
  unfold relIndex, JsMap.of_list.
  assert (G : forall l (m0 : JsMap.t Relation),
             NoDup (JsMap.keys m0) ->
             NoDup (JsMap.keys
                      (fold_left (fun m kv => JsMap.set m (fst kv) (snd kv)) l m0))).
  { induction l as [|x l IH]; intros m0 H; simpl; [exact H|].
    apply IH. now apply set_NoDup. }
  apply G. constructor.
Qed.

Lemma diffRelations_closed a b :
  diffRelations a b =
  let A := relIndex a in
  let B := relIndex b in
  mkRelationDiff (onlyIn B A) (onlyIn A B) (flat_map (chg3 relChg) (common A B)).
Proof.
  unfold diffRelations, JsMap.entries. fold (relIndex a) (relIndex b).
  rewrite (fold_diffStep relChg _ _ (diffRelationStep_eq _)).
  now rewrite fold_pushAbsent.
Qed.

(** *** Reflexivity and symmetry of the comparisons *)

Lemma sameAttr_refl a : sameAttr a a = true.
Proof.
  unfold sameAttr. now rewrite !String.eqb_refl, !Bool.eqb_reflx.
Qed.

Lemma eqb_bool_sym (x y : bool) : Bool.eqb x y = Bool.eqb y x.
Proof. now destruct x, y. Qed.

Lemma sameAttr_sym a b : sameAttr a b = sameAttr b a.
Proof.
  unfold sameAttr.
  rewrite (String.eqb_sym (a_name a)), (String.eqb_sym (a_type a)).
  now rewrite (eqb_bool_sym (truthy (a_pk a))),
    (eqb_bool_sym (truthy (a_unique a))), (eqb_bool_sym (truthy (a_nullable a))).
Qed.

Lemma optStrEqb_refl x : optStrEqb x x = true.
Proof. destruct x; simpl; [apply String.eqb_refl|reflexivity]. Qed.

Lemma optStrEqb_sym x y : optStrEqb x y = optStrEqb y x.
Proof. destruct x, y; simpl; try reflexivity. apply String.eqb_sym. Qed.

Lemma kindEqb_refl k : kindEqb k k = true.
Proof. now destruct k. Qed.

Lemma kindEqb_sym x y : kindEqb x y = kindEqb y x.
Proof. now destruct x, y. Qed.

Lemma relDiffers_refl r : relDiffers r r = false.
Proof. unfold relDiffers. now rewrite kindEqb_refl, !String.eqb_refl. Qed.

Lemma relDiffers_sym x y : relDiffers x y = relDiffers y x.
Proof.
  unfold relDiffers.
  now rewrite (kindEqb_sym (r_kind x)),
    (String.eqb_sym (nullish (r_fromCard x) "")),
    (String.eqb_sym (nullish (r_toCard x) "")).
Qed.

Lemma attrChg_self k x : attrChg k x x = [].
Proof. unfold attrChg. now rewrite sameAttr_refl. Qed.

Lemma entityChg_self k x : entityChg k x x = [].
Proof.
  unfold entityChg. rewrite optStrEqb_refl, onlyIn_self.
  rewrite (changed_self attrChg); [reflexivity|apply attrChg_self|].
  apply indexByName_NoDup.
Qed.

Lemma relChg_self k x : relChg k x x = [].
Proof. unfold relChg. now rewrite relDiffers_refl. Qed.

Lemma diffEntities_self a : diffEntities a a = mkEntityDiff [] [] [].
Proof.
  rewrite diffEntities_closed. cbv zeta. rewrite onlyIn_self.
  rewrite (changed_self entityChg); [reflexivity|apply entityChg_self|].
  apply indexByName_NoDup.
Qed.

Lemma diffRelations_self a : diffRelations a a = mkRelationDiff [] [] [].
Proof.
  rewrite diffRelations_closed. cbv zeta. rewrite onlyIn_self.
  rewrite (changed_self relChg); [reflexivity|apply relChg_self|].
  apply relIndex_NoDup.
Qed.

(** *** Mirror images of change entries *)

Lemma Forall2_graph_map {X Y : Type} (f : X -> Y) (l : list X) (l' : list Y) :
  Forall2 (fun c c' => c' = f c) l l' -> l' = map f l.
Proof. induction 1; simpl; congruence. Qed.

Lemma changed_swap {T C : Type} (chg : string -> T -> T -> list C)
    (sw : C -> C) (A B : JsMap.t T) :
  (forall k x y, chg k y x = map sw (chg k x y)) ->
  NoDup (JsMap.keys A) -> NoDup (JsMap.keys B) ->
  Permutation (map sw (flat_map (chg3 chg) (common A B)))
    (flat_map (chg3 chg) (common B A)).
Proof.
  intros Hsw HA HB.
  destruct (changed_mirror chg (fun c c' => c' = sw c) A B) as [l [Hp Hf]];
    try assumption.
  - intros k x y. rewrite (Hsw k x y).
    induction (chg k x y); simpl; constructor; auto.
  - apply Forall2_graph_map in Hf. now subst.
Qed.

Lemma attrChg_swap k x y : attrChg k y x = map swapAttrChange (attrChg k x y).
Proof.
  unfold attrChg. rewrite (sameAttr_sym y x).
  now destruct (negb (sameAttr x y)).
Qed.

Lemma relChg_swap k x y : relChg k y x = map swapRelChange (relChg k x y).
Proof.
  unfold relChg. rewrite (relDiffers_sym y x). now destruct (relDiffers x y).
Qed.

Lemma nonEmpty_perm {X Y : Type} (f : X -> Y) (l : list X) (l' : list Y) :
  Permutation (map f l) l' -> nonEmpty l = nonEmpty l'.
Proof.
  intros H. apply Permutation_length in H. rewrite length_map in H.
  destruct l, l'; simpl in *; congruence.
Qed.

Lemma entityChg_mirror k x y :
  Forall2 mirrorEntityChange (entityChg k x y) (entityChg k y x).
Proof.
  unfold entityChg.
  set (aX := indexByName a_name (e_attrs x)).
  set (aY := indexByName a_name (e_attrs y)).
  assert (HP : Permutation
                 (map swapAttrChange (flat_map (chg3 attrChg) (common aX aY)))
                 (flat_map (chg3 attrChg) (common aY aX))).
  { apply changed_swap; [apply attrChg_swap| |]; apply indexByName_NoDup. }
  rewrite (optStrEqb_sym (e_stereotype y)).
  rewrite <- (nonEmpty_perm _ _ _ HP).
  replace (negb (optStrEqb (e_stereotype x) (e_stereotype y))
           || nonEmpty (onlyIn aX aY) || nonEmpty (onlyIn aY aX)
           || nonEmpty (flat_map (chg3 attrChg) (common aX aY)))%bool
    with (negb (optStrEqb (e_stereotype x) (e_stereotype y))
          || nonEmpty (onlyIn aY aX) || nonEmpty (onlyIn aX aY)
          || nonEmpty (flat_map (chg3 attrChg) (common aX aY)))%bool
    by (destruct (negb (optStrEqb (e_stereotype x) (e_stereotype y))),
          (nonEmpty (onlyIn aY aX)), (nonEmpty (onlyIn aX aY)); reflexivity).
  match goal with |- context [if ?b then _ else _] => destruct b end;
    constructor; [|constructor].
  unfold mirrorEntityChange. simpl. repeat split; try reflexivity. exact HP.
Qed.

(** ** Diff *)

(** C6. The diff is antisymmetric.  For all documents [A] and [B]: the
    entities added from [A] to [B] are exactly the entities removed from [B]
    to [A] and conversely; the changed entities of the two directions are the
    same set with every entry mirrored (stereotype from/to exchanged, added
    and removed attributes exchanged, changed attributes with from/to
    exchanged); and the same holds for relations, whose changed entries are
    the same set with from/to exchanged. *)
Theorem diff_antisymmetric (A B : DSL) :
  let eAB := diffEntities (entities A) (entities B) in
  let eBA := diffEntities (entities B) (entities A) in
  let rAB := diffRelations (relations A) (relations B) in
  let rBA := diffRelations (relations B) (relations A) in
  ed_added eAB = ed_removed eBA
  /\ ed_removed eAB = ed_added eBA
  /\ (exists l, Permutation l (ed_changed eBA)
                /\ Forall2 mirrorEntityChange (ed_changed eAB) l)
  /\ rd_added rAB = rd_removed rBA
  /\ rd_removed rAB = rd_added rBA
  /\ Permutation (map swapRelChange (rd_changed rAB)) (rd_changed rBA).
Proof.
  cbv zeta. rewrite !diffEntities_closed, !diffRelations_closed. cbv zeta.
  simpl. repeat split.
  - apply changed_mirror; [apply entityChg_mirror| |]; apply indexByName_NoDup.
  - apply changed_swap; [apply relChg_swap| |]; apply relIndex_NoDup.
Qed.

(** The report of [diff] on two versions with the same content. *)
Lemma diff_equal_content s p A B vA vB :
  String.eqb A B = false ->
  getVersion s p A = Ok vA -> getVersion s p B = Ok vB ->
  v_content vA = v_content vB ->
  exists s',
    diff p A B s =
    (Ok (mkDiffReport (mkDiffSummary (0, 0, 0) (0, 0, 0))
           (mkEntityDiff [] [] []) (mkRelationDiff [] [] [])), s').
Proof.
  intros Hne HA HB Hc. unfold diff. rewrite Hne.
  unfold bind, read. rewrite HA, HB. rewrite Hc.
  rewrite diffEntities_self, diffRelations_self. simpl.
  eexists. reflexivity.
Qed.

(** C5 (as amended). [diff(A, A)] never yields a report: the guard on
    identical ids rejects it with BadRequest and leaves the store untouched,
    whether or not [A] resolves.  The empty report is what [diff] returns for
    two distinct resolvable versions with equal content: all six lists
    (entities and relations, added/removed/changed) are empty. *)
Theorem diff_same_version (s : Store) (p A : string) :
  diff p A A s = (Err (BadRequest "Seleccione dos versiones distintas"), s)
  /\ forall B vA vB,
       A <> B ->
       getVersion s p A = Ok vA -> getVersion s p B = Ok vB ->
       v_content vA = v_content vB ->
       exists r s',
         diff p A B s = (Ok r, s')
         /\ dr_entities r = mkEntityDiff [] [] []
         /\ dr_relations r = mkRelationDiff [] [] [].
Proof.
  split.
  - unfold diff. now rewrite String.eqb_refl.
  - intros B vA vB Hne HA HB Hc.
    apply String.eqb_neq in Hne.
    destruct (diff_equal_content s p A B vA vB Hne HA HB Hc) as [s' E].
    eexists. exists s'. rewrite E. repeat split.
Qed.

(** ** Merge: constraints *)

Lemma merged_constraints base ours theirs :
  constraints (result (threeWayMerge base ours theirs))
  = Some (nullish (constraints base) []).
Proof.
  unfold threeWayMerge.
  destruct (fold_left _ _ (JsMap.empty, [])) as [resE c0].
  destruct (fold_left _ _ (JsMap.empty, c0)) as [resR c1].
  reflexivity.
Qed.

(** C9. The constraints of the merged document are those of [base] (the
    empty sequence when [base] has none), whatever [ours] and [theirs]
    carry: a constraint of the merge result is a constraint of [base]. *)
Theorem threeWayMerge_constraints (base ours theirs : DSL) :
  constraints (result (threeWayMerge base ours theirs))
  = Some (nullish (constraints base) [])
  /\ forall c,
       In c (nullish (constraints (result (threeWayMerge base ours theirs))) [])
       -> In c (nullish (constraints base) []).
Proof.
  split; [apply merged_constraints|].
  rewrite merged_constraints. simpl. auto.
Qed.

(** ** Facts about the merge loops *)

Section CollectFacts.
Context {V : Type}.
Variable out : string -> option V * list Conflict.

Lemma collected_keys_incl l k : In k (JsMap.keys (collected out l)) -> In k l.
Proof.
  unfold JsMap.keys, collected. rewrite in_map_iff.
  intros [[k' v] [E Hin]]. simpl in E. subst k'.
  apply in_flat_map in Hin. destruct Hin as [x [Hx Hin]].
  destruct (fst (out x)); simpl in Hin; [|tauto].
  destruct Hin as [[= -> _]|[]]. exact Hx.
Qed.

Lemma collected_NoDup l : NoDup l -> NoDup (JsMap.keys (collected out l)).
Proof.
  induction 1 as [|x l Hx Hnd IH]; simpl; [constructor|].
  destruct (fst (out x)); simpl; [|exact IH].
  constructor; [|exact IH]. intros H. apply Hx.
  now apply collected_keys_incl.
Qed.

Lemma collected_get l k :
  In k l -> JsMap.get (collected out l) k = fst (out k).
Proof.
  induction l as [|x l IH]; simpl; [tauto|].
  intros Hin. destruct (string_dec x k) as [->|Hne].
  - destruct (fst (out k)) as [v|] eqn:E; simpl.
    + now rewrite String.eqb_refl.
    + destruct (in_dec string_dec k l) as [Hl|Hl].
      * rewrite IH by exact Hl. first [reflexivity | exact E].
      * apply get_None_keys. intros H. apply Hl.
        now apply collected_keys_incl.
  - destruct Hin as [->|Hin]; [congruence|].
    destruct (fst (out x)) as [v|]; simpl; [|auto].
    apply String.eqb_neq in Hne. rewrite Hne. auto.
Qed.

Lemma collected_In l k v :
  In (k, v) (collected out l) -> In k l /\ fst (out k) = Some v.
Proof.
  unfold collected. rewrite in_flat_map. intros [x [Hx Hin]].
  destruct (fst (out x)) eqn:E; simpl in Hin; [|tauto].
  destruct Hin as [[= -> ->]|[]]. auto.
Qed.

Lemma fold_setOpt
    (step : JsMap.t V * list Conflict -> string -> JsMap.t V * list Conflict) :
  (forall m c k,
      step (m, c) k = (setOpt m k (fst (out k)), c ++ snd (out k))) ->
  forall l m c,
    NoDup l -> (forall k, In k l -> ~ In k (JsMap.keys m)) ->
    fold_left step l (m, c) =
    (m ++ collected out l, c ++ flat_map (fun k => snd (out k)) l).
Proof.
  intros Hstep. induction l as [|k l IH]; intros m c Hnd Hfresh; simpl.
  - now rewrite !app_nil_r.
  - inversion Hnd as [|? ? Hk Hnd']; subst.
    rewrite Hstep, IH; [|exact Hnd'|].
    + rewrite <- app_assoc. f_equal.
      destruct (fst (out k)) as [v|]; simpl; [|reflexivity].
      rewrite set_fresh by (apply Hfresh; now left).
      now rewrite <- app_assoc.
    + intros k' Hk'. destruct (fst (out k)) as [v|]; simpl.
      * rewrite set_fresh by (apply Hfresh; now left).
        unfold JsMap.keys. rewrite map_app, in_app_iff. simpl.
        intros [H|[->|[]]]; [|contradiction].
        revert H. apply Hfresh. now right.
      * apply Hfresh. now right.
Qed.
End CollectFacts.

(** *** The merge loops in closed form *)

Lemma mergeAttrStep_eq name b o t m c an :
  mergeAttrStep name b o t (m, c) an =
  (setOpt m an (fst (attrOutcome name b o t an)),
   c ++ snd (attrOutcome name b o t an)).
Proof.
  unfold mergeAttrStep, attrOutcome, attrConflictTest.
  destruct (findAttr an (attrsOf b)) as [bo|],
           (findAttr an (e_attrs o)) as [ao|],
           (findAttr an (e_attrs t)) as [att|]; simpl;
    rewrite ?app_nil_r; try reflexivity;
    match goal with |- context [if ?x then _ else _] => destruct x end;
    simpl; rewrite ?app_nil_r; reflexivity.
Qed.

Lemma mergeEntityStep_eq bE oE tE m c name :
  mergeEntityStep bE oE tE (m, c) name =
  (setOpt m name (fst (entityOutcome bE oE tE name)),
   c ++ snd (entityOutcome bE oE tE name)).
Proof.
  unfold mergeEntityStep, entityOutcome, mergedEntity.
  destruct (JsMap.get bE name) as [b|], (JsMap.get oE name) as [o|],
           (JsMap.get tE name) as [t|]; simpl;
    try (rewrite app_nil_r; reflexivity).
  - fold (attrNames (Some b) o t).
    rewrite (fold_setOpt _ _ (mergeAttrStep_eq name (Some b) o t));
      [|apply of_list_NoDup|intros ? _ []].
    unfold attrNames. simpl.
    destruct (stereotypeConflict (Some b) o t);
      [rewrite <- app_assoc|]; reflexivity.
  - fold (attrNames None o t).
    rewrite (fold_setOpt _ _ (mergeAttrStep_eq name None o t));
      [|apply of_list_NoDup|intros ? _ []].
    unfold attrNames. simpl.
    destruct (stereotypeConflict None o t);
      [rewrite <- app_assoc|]; reflexivity.
Qed.

Lemma mergeRelationStep_eq bR oR tR m c k :
  mergeRelationStep bR oR tR (m, c) k =
  (setOpt m k (fst (relOutcome bR oR tR k)),
   c ++ snd (relOutcome bR oR tR k)).
Proof.
  unfold mergeRelationStep, relOutcome, relConflictTest.
  destruct (JsMap.get bR k) as [b|], (JsMap.get oR k) as [o|],
           (JsMap.get tR k) as [t|]; simpl;
    rewrite ?app_nil_r; try reflexivity;
    match goal with |- context [if ?x then _ else _] => destruct x end;
    simpl; rewrite ?app_nil_r; reflexivity.
Qed.

Lemma threeWayMerge_closed base ours theirs :
  threeWayMerge base ours theirs =
  let bE := indexEntities base in
  let oE := indexEntities ours in
  let tE := indexEntities theirs in
  let bR := indexRelations base in
  let oR := indexRelations ours in
  let tR := indexRelations theirs in
  mkMergeOutcome
    (mkDSL
       (JsMap.values (collected (entityOutcome bE oE tE) (allKeys bE oE tE)))
       (JsMap.values (collected (relOutcome bR oR tR) (allKeys bR oR tR)))
       (Some (nullish (constraints base) [])))
    (flat_map (fun n => snd (entityOutcome bE oE tE n)) (allKeys bE oE tE)
     ++ flat_map (fun k => snd (relOutcome bR oR tR k)) (allKeys bR oR tR)).
Proof.
  unfold threeWayMerge. cbv zeta.
  fold (allKeys (indexEntities base) (indexEntities ours) (indexEntities theirs)).
  fold (allKeys (indexRelations base) (indexRelations ours)
          (indexRelations theirs)).
  rewrite (fold_setOpt _ _ (mergeEntityStep_eq _ _ _));
    [|apply of_list_NoDup|intros ? _ []].
  rewrite (fold_setOpt _ _ (mergeRelationStep_eq _ _ _));
    [|apply of_list_NoDup|intros ? _ []].
  reflexivity.
Qed.

(** *** Keys of conflicts and of merged entries *)

Lemma keyEqb_eq x y : keyEqb x y = true <-> x = y.
Proof.
  destruct x, y; simpl; try (split; [discriminate|intros [=]]).
  - rewrite String.eqb_eq. split; congruence.
  - rewrite andb_true_iff, !String.eqb_eq. split; [intros []|intros [=]]; subst; auto.
  - rewrite String.eqb_eq. split; congruence.
Qed.

Lemma keyEqb_refl x : keyEqb x x = true.
Proof. now apply keyEqb_eq. Qed.

Lemma conflictsAt_none key cs :
  (forall c, In c cs -> keyOf c <> key) -> conflictsAt key cs = [].
Proof.
  induction cs as [|c cs IH]; intros H; simpl; [reflexivity|].
  destruct (keyEqb (keyOf c) key) eqn:E.
  - apply keyEqb_eq in E. exfalso. apply (H c); [now left|exact E].
  - apply IH. intros. apply H. now right.
Qed.

Lemma conflictsAt_app key cs ds :
  conflictsAt key (cs ++ ds) = conflictsAt key cs ++ conflictsAt key ds.
Proof. apply filter_app. Qed.

Lemma conflictsAt_flat_map_none {X : Type} key (g : X -> list Conflict) l :
  (forall x, In x l -> conflictsAt key (g x) = []) ->
  conflictsAt key (flat_map g l) = [].
Proof.
  induction l as [|x l IH]; intros H; simpl; [reflexivity|].
  rewrite conflictsAt_app, (H x) by now left. apply IH.
  intros. apply H. now right.
Qed.

Lemma conflictsAt_flat_map_one key (g : string -> list Conflict) l x :
  NoDup l -> In x l ->
  (forall y, y <> x -> conflictsAt key (g y) = []) ->
  conflictsAt key (flat_map g l) = conflictsAt key (g x).
Proof.
  induction 1 as [|y l Hy Hnd IH]; intros Hin Hoth; simpl; [destruct Hin|].
  rewrite conflictsAt_app. destruct Hin as [->|Hin].
  - rewrite conflictsAt_flat_map_none; [now rewrite app_nil_r|].
    intros z Hz. apply Hoth. intros ->. contradiction.
  - rewrite Hoth by (intros ->; contradiction). simpl. now apply IH.
Qed.

Lemma findAttr_Some an attrs a :
  findAttr an attrs = Some a -> In a attrs /\ a_name a = an.
Proof.
  unfold findAttr. intros H. apply find_some in H.
  destruct H as [Hin Heq]. apply String.eqb_eq in Heq. auto.
Qed.

Lemma attrOutcome_keys name b o t an c :
  In c (snd (attrOutcome name b o t an)) -> keyOf c = KAttr name an.
Proof.
  unfold attrOutcome.
  destruct (findAttr an (attrsOf b)), (findAttr an (e_attrs o)),
           (findAttr an (e_attrs t)); simpl; try tauto;
    match goal with |- context [if ?x then _ else _] => destruct x end;
    simpl; intros H; try tauto; destruct H as [<-|[]]; reflexivity.
Qed.

Lemma attrOutcome_name name b o t an a :
  fst (attrOutcome name b o t an) = Some a -> a_name a = an.
Proof.
  unfold attrOutcome.
  destruct (findAttr an (attrsOf b)), (findAttr an (e_attrs o)) eqn:Eo,
           (findAttr an (e_attrs t)) eqn:Et; simpl; intros [= <-];
    first [now apply findAttr_Some in Eo | now apply findAttr_Some in Et].
Qed.

Lemma entityOutcome_keys bE oE tE n c :
  In c (snd (entityOutcome bE oE tE n)) ->
  keyOf c = KStereotype n \/ exists an, keyOf c = KAttr n an.
Proof.
  unfold entityOutcome.
  destruct (JsMap.get oE n) as [o|], (JsMap.get tE n) as [t|]; simpl;
    try tauto.
  rewrite in_app_iff, in_flat_map. intros [H|[an [_ H]]].
  - destruct (stereotypeConflict _ o t); simpl in H; [|tauto].
    destruct H as [<-|[]]. now left.
  - right. exists an. eapply attrOutcome_keys. exact H.
Qed.

Lemma relOutcome_keys bR oR tR k c :
  In c (snd (relOutcome bR oR tR k)) -> keyOf c = KRelation k.
Proof.
  unfold relOutcome.
  destruct (JsMap.get oR k) as [o|], (JsMap.get tR k) as [t|]; simpl;
    try tauto.
  destruct (relConflictTest _ o t); simpl; [|tauto].
  intros [<-|[]]. reflexivity.
Qed.

Lemma indexEntities_NoDup d : NoDup (JsMap.keys (indexEntities d)).
Proof. apply (indexFrom_NoDup e_name (entities d) []). constructor. Qed.

Lemma indexRelations_NoDup d : NoDup (JsMap.keys (indexRelations d)).
Proof. apply (indexFrom_NoDup keyRel (relations d) []). constructor. Qed.

Lemma indexEntities_name d k e :
  JsMap.get (indexEntities d) k = Some e -> e_name e = k.
Proof.
  intros H. apply get_In in H.
  apply (indexFrom_key e_name (entities d) []); [intros ? ? []|exact H].
Qed.

Lemma indexRelations_key d k r :
  JsMap.get (indexRelations d) k = Some r -> keyRel r = k.
Proof.
  intros H. apply get_In in H.
  apply (indexFrom_key keyRel (relations d) []); [intros ? ? []|exact H].
Qed.

Lemma allKeys_In {V : Type} (b o t : JsMap.t V) k :
  In k (allKeys b o t)
  <-> In k (JsMap.keys b) \/ In k (JsMap.keys o) \/ In k (JsMap.keys t).
Proof. unfold allKeys. now rewrite of_list_In, !in_app_iff. Qed.

(** Indexing the merged document gives back the maps the loops built. *)
Lemma merged_indexEntities base ours theirs :
  indexEntities (result (threeWayMerge base ours theirs)) =
  collected (entityOutcome (indexEntities base) (indexEntities ours)
               (indexEntities theirs))
    (allKeys (indexEntities base) (indexEntities ours) (indexEntities theirs)).
Proof.
  rewrite threeWayMerge_closed. cbv zeta. simpl.
  unfold indexEntities at 1. simpl.
  change (fold_left (fun m e => JsMap.set m (e_name e) e) ?l JsMap.empty)
    with (indexFrom e_name l []).
  rewrite indexFrom_values; [reflexivity| |].
  - simpl. apply collected_NoDup, of_list_NoDup.
  - intros k v Hin. apply collected_In in Hin. destruct Hin as [_ H].
    unfold entityOutcome in H.
    destruct (JsMap.get (indexEntities ours) k) eqn:Eo,
             (JsMap.get (indexEntities theirs) k) eqn:Et;
      simpl in H; inversion H; subst;
      first [reflexivity | eapply indexEntities_name; eassumption].
Qed.

Lemma merged_indexRelations base ours theirs :
  indexRelations (result (threeWayMerge base ours theirs)) =
  collected (relOutcome (indexRelations base) (indexRelations ours)
               (indexRelations theirs))
    (allKeys (indexRelations base) (indexRelations ours)
       (indexRelations theirs)).
Proof.
  rewrite threeWayMerge_closed. cbv zeta. simpl.
  unfold indexRelations at 1. simpl.
  change (fold_left (fun m r => JsMap.set m (keyRel r) r) ?l JsMap.empty)
    with (indexFrom keyRel l []).
  rewrite indexFrom_values; [reflexivity| |].
  - simpl. apply collected_NoDup, of_list_NoDup.
  - intros k v Hin. apply collected_In in Hin. destruct Hin as [_ H].
    unfold relOutcome in H.
    destruct (JsMap.get (indexRelations ours) k) eqn:Eo,
             (JsMap.get (indexRelations theirs) k) eqn:Et;
      simpl in H; inversion H; subst;
      eapply indexRelations_key; eassumption.
Qed.

Lemma merged_conflicts base ours theirs :
  conflicts (threeWayMerge base ours theirs) =
  flat_map (fun n => snd (entityOutcome (indexEntities base)
                            (indexEntities ours) (indexEntities theirs) n))
    (allKeys (indexEntities base) (indexEntities ours) (indexEntities theirs))
  ++ flat_map (fun k => snd (relOutcome (indexRelations base)
                               (indexRelations ours) (indexRelations theirs) k))
       (allKeys (indexRelations base) (indexRelations ours)
          (indexRelations theirs)).
Proof. now rewrite threeWayMerge_closed. Qed.

Lemma findAttr_values (m : JsMap.t Attr) an :
  (forall k v, In (k, v) m -> a_name v = k) ->
  findAttr an (JsMap.values m) = JsMap.get m an.
Proof.
  induction m as [|[k v] m IH]; intros H; simpl; [reflexivity|].
  rewrite (H k v) by now left.
  destruct (String.eqb k an); [reflexivity|].
  apply IH. intros. apply H. now right.
Qed.

Lemma mergedEntity_attr name b o t an :
  In an (attrNames b o t) ->
  findAttr an (e_attrs (mergedEntity name b o t))
  = fst (attrOutcome name b o t an).
Proof.
  intros Hin. unfold mergedEntity. simpl.
  rewrite findAttr_values.
  - now apply collected_get.
  - intros k v H. apply collected_In in H. destruct H as [_ H].
    eapply attrOutcome_name. exact H.
Qed.

(** The conflicts recorded under a key of entity [name] all come from the
    one iteration of the entity loop that handles [name]. *)
Lemma conflictsAt_entity base ours theirs name key :
  key = KStereotype name \/ (exists an, key = KAttr name an) ->
  In name (allKeys (indexEntities base) (indexEntities ours)
             (indexEntities theirs)) ->
  conflictsAt key (conflicts (threeWayMerge base ours theirs))
  = conflictsAt key
      (snd (entityOutcome (indexEntities base) (indexEntities ours)
              (indexEntities theirs) name)).
Proof.
  intros Hkey Hin. rewrite merged_conflicts, conflictsAt_app.
  rewrite (conflictsAt_flat_map_none key (fun k => snd (relOutcome _ _ _ k))).
  - rewrite app_nil_r.
    apply (conflictsAt_flat_map_one key
             (fun n => snd (entityOutcome _ _ _ n)));
      [apply of_list_NoDup|exact Hin|].
    intros y Hy. apply conflictsAt_none. intros c Hc.
    apply entityOutcome_keys in Hc.
    destruct Hkey as [->|[an ->]], Hc as [->|[an' ->]]; congruence.
  - intros k _. apply conflictsAt_none. intros c Hc.
    apply relOutcome_keys in Hc.
    destruct Hkey as [->|[an ->]]; congruence.
Qed.

Lemma conflictsAt_relation base ours theirs k :
  In k (allKeys (indexRelations base) (indexRelations ours)
          (indexRelations theirs)) ->
  conflictsAt (KRelation k) (conflicts (threeWayMerge base ours theirs))
  = conflictsAt (KRelation k)
      (snd (relOutcome (indexRelations base) (indexRelations ours)
              (indexRelations theirs) k)).
Proof.
  intros Hin. rewrite merged_conflicts, conflictsAt_app.
  rewrite (conflictsAt_flat_map_none _ (fun n => snd (entityOutcome _ _ _ n))).
  - simpl.
    apply (conflictsAt_flat_map_one _ (fun k => snd (relOutcome _ _ _ k)));
      [apply of_list_NoDup|exact Hin|].
    intros y Hy. apply conflictsAt_none. intros c Hc.
    apply relOutcome_keys in Hc. congruence.
  - intros n _. apply conflictsAt_none. intros c Hc.
    apply entityOutcome_keys in Hc. destruct Hc as [->|[an ->]]; congruence.
Qed.

(** Within the iteration for an entity present on both sides, the conflicts
    under attribute [an] come from the one iteration of the attribute loop
    that handles [an]. *)
Lemma conflictsAt_attr bE oE tE name o t an :
  JsMap.get oE name = Some o -> JsMap.get tE name = Some t ->
  In an (attrNames (JsMap.get bE name) o t) ->
  conflictsAt (KAttr name an) (snd (entityOutcome bE oE tE name))
  = conflictsAt (KAttr name an)
      (snd (attrOutcome name (JsMap.get bE name) o t an)).
Proof.
  intros Ho Ht Hin. unfold entityOutcome. rewrite Ho, Ht. simpl.
  rewrite conflictsAt_app.
  rewrite (conflictsAt_none _ (if stereotypeConflict _ o t then _ else _)).
  - simpl.
    apply (conflictsAt_flat_map_one _
             (fun an => snd (attrOutcome name (JsMap.get bE name) o t an)));
      [apply of_list_NoDup|exact Hin|].
    intros y Hy. apply conflictsAt_none. intros c Hc.
    apply attrOutcome_keys in Hc. congruence.
  - intros c Hc. destruct (stereotypeConflict _ o t); simpl in Hc; [|tauto].
    destruct Hc as [<-|[]]. discriminate.
Qed.

(** ** Merge: true conflicts *)




(** ** Merge: a change made on one side only *)

Lemma same_refl a : same a a = true.
Proof. unfold same. now rewrite String.eqb_refl, !Bool.eqb_reflx. Qed.

Lemma eqRel_refl r : eqRel r r = true.
Proof. unfold eqRel. now rewrite kindEqb_refl, !String.eqb_refl. Qed.

(** C1 (the code departs from it). Base and ours agree on attribute
    [User.email] (type varchar) and on relation [User::Order]
    (association); theirs alone changes the type to text and the kind to
    composition.  No conflict is recorded, and the merged document holds
    ours's unchanged values under both keys: the change made by theirs, the
    side that differs from base, is not kept. *)
Theorem threeWayMerge_theirs_change_lost :
  let base := tc_doc "entity" "varchar" association in
  let theirs := tc_doc "entity" "text" composition in
  let out := threeWayMerge base base theirs in
  conflicts out = []
  /\ (exists e,
        JsMap.get (indexEntities (result out)) "User" = Some e
        /\ findAttr "email" (e_attrs e) = Some (tc_attr "varchar")
        /\ findAttr "email" (e_attrs e) <> Some (tc_attr "text"))
  /\ JsMap.get (indexRelations (result out)) "User::Order"
     = Some (tc_rel association)
  /\ JsMap.get (indexRelations (result out)) "User::Order"
     <> Some (tc_rel composition).
Proof.
  cbv zeta. split; [reflexivity|]. split; [|split].
  - eexists. split; [reflexivity|]. split; [reflexivity|discriminate].
  - reflexivity.
  - discriminate.
Qed.

(** In general: when the two sides differ under a key and one of them
    equals the base, no conflict is recorded and the merged document holds
    ours's value, whichever side it was that changed. *)
Lemma threeWayMerge_one_side_changed (base ours theirs : DSL) :
  let out := threeWayMerge base ours theirs in
  (forall name o t an ao att bo,
      JsMap.get (indexEntities ours) name = Some o ->
      JsMap.get (indexEntities theirs) name = Some t ->
      findAttr an (e_attrs o) = Some ao ->
      findAttr an (e_attrs t) = Some att ->
      findAttr an (attrsOf (JsMap.get (indexEntities base) name)) = Some bo ->
      same ao att = false ->
      same ao bo = true \/ same att bo = true ->
      conflictsAt (KAttr name an) (conflicts out) = []
      /\ exists e,
           JsMap.get (indexEntities (result out)) name = Some e
           /\ findAttr an (e_attrs e) = Some ao)
  /\ (forall k o t b,
      JsMap.get (indexRelations ours) k = Some o ->
      JsMap.get (indexRelations theirs) k = Some t ->
      JsMap.get (indexRelations base) k = Some b ->
      eqRel o t = false ->
      eqRel o b = true \/ eqRel t b = true ->
      conflictsAt (KRelation k) (conflicts out) = []
      /\ JsMap.get (indexRelations (result out)) k = Some o).
Proof.
  cbv zeta. split.
  - intros name o t an ao att bo Ho Ht Hao Hat Hbo Hne Hb.
    assert (Hin : In name (allKeys (indexEntities base) (indexEntities ours)
                             (indexEntities theirs))).
    { apply allKeys_In. right. left. eapply get_Some_keys. exact Ho. }
    assert (Han : In an (attrNames (JsMap.get (indexEntities base) name) o t)).
    { unfold attrNames. rewrite of_list_In, in_app_iff. left.
      apply findAttr_Some in Hao. destruct Hao as [Hi <-].
      now apply in_map. }
    assert (Hout : attrOutcome name (JsMap.get (indexEntities base) name) o t an
                   = (Some ao, [])).
    { unfold attrOutcome, attrConflictTest. rewrite Hao, Hat, Hbo, Hne.
      destruct Hb as [-> | ->]; simpl; [reflexivity|].
      now rewrite andb_false_r. }
    split.
    + rewrite (conflictsAt_entity base ours theirs name)
        by (auto; right; now exists an).
      now rewrite (conflictsAt_attr _ _ _ name o t an Ho Ht Han), Hout.
    + exists (mergedEntity name (JsMap.get (indexEntities base) name) o t).
      split.
      * rewrite merged_indexEntities, collected_get by exact Hin.
        unfold entityOutcome. now rewrite Ho, Ht.
      * rewrite mergedEntity_attr by exact Han. now rewrite Hout.
  - intros k o t b Ho Ht Hb Hne Hside.
    assert (Hin : In k (allKeys (indexRelations base) (indexRelations ours)
                          (indexRelations theirs))).
    { apply allKeys_In. right. left. eapply get_Some_keys. exact Ho. }
    assert (Hout : relOutcome (indexRelations base) (indexRelations ours)
                     (indexRelations theirs) k = (Some o, [])).
    { unfold relOutcome, relConflictTest. rewrite Ho, Ht, Hb, Hne.
      destruct Hside as [-> | ->]; simpl; [reflexivity|].
      now rewrite andb_false_r. }
    split.
    + rewrite conflictsAt_relation by exact Hin. now rewrite Hout.
    + rewrite merged_indexRelations, collected_get by exact Hin.
      now rewrite Hout.
Qed.

(** ** Merge: fast-forward *)






(** ** Restore *)

Lemma latestOf_spec rows h :
  latestOf rows = Some h ->
  In h rows /\ forall w, In w rows -> (v_createdAt w <= v_createdAt h)%Z.
Proof.
  revert h. induction rows as [|v rows IH]; simpl; [discriminate|].
  intros h. destruct (latestOf rows) as [w|] eqn:E.
  - destruct (IH w eq_refl) as [Hin Hmax].
    destruct (Z.ltb_spec (v_createdAt v) (v_createdAt w)); intros [= <-].
    + split; [now right|]. intros x [<-|Hx]; [lia|auto].
    + split; [now left|]. intros x [<-|Hx]; [lia|].
      specialize (Hmax x Hx). lia.
  - intros [= <-]. split; [now left|].
    destruct rows as [|r rows]; [|simpl in E; destruct (latestOf rows);
      [destruct (v_createdAt r <? _)%Z|]; discriminate].
    intros x [<-|[]]. lia.
Qed.

Lemma latestOf_None rows : latestOf rows = None -> rows = [].
Proof.
  destruct rows as [|v rows]; [reflexivity|]. simpl.
  destruct (latestOf rows); [destruct (_ <? _)%Z|]; discriminate.
Qed.

Lemma getVersion_Ok s p id v :
  getVersion s p id = Ok v ->
  In v (versions s) /\ v_id v = id /\ v_projectId v = p.
Proof.
  unfold getVersion, findVersion.
  destruct (find _ (versions s)) as [w|] eqn:E; [|discriminate].
  intros [= <-]. apply find_some in E. destruct E as [Hin Hb].
  apply andb_true_iff in Hb. destruct Hb as [H1 H2].
  apply String.eqb_eq in H1, H2. auto.
Qed.

(** C7. When [V] resolves in the project (and the generated id is new),
    [restore] appends one version: on the branch of [V], with the content of
    [V], whose parent is the head of that branch, that is a version of the
    project on that branch whose [createdAt] is maximal among them; the head
    need not be [V]. *)
Theorem restore_onto_branch_head
    (s : Store) (p u vid : string) (msg : option string)
    (newId : string) (now : Z) (V : ModelVersion) :
  getVersion s p vid = Ok V ->
  existsb (fun v => String.eqb (v_id v) newId) (versions s) = false ->
  exists created s' h,
    restore p u vid msg newId now s = (Ok created, s')
    /\ versions s' = versions s ++ [created]
    /\ v_id created = newId
    /\ v_branchId created = v_branchId V
    /\ v_content created = v_content V
    /\ v_parentVersionId created = Some (v_id h)
    /\ In h (versions s)
    /\ v_projectId h = p
    /\ v_branchId h = v_branchId V
    /\ forall w,
         In w (versions s) -> v_projectId w = p ->
         v_branchId w = v_branchId V ->
         (v_createdAt w <= v_createdAt h)%Z.
Proof.
  intros HV Hfresh. unfold restore, bind, read. rewrite HV.
  apply getVersion_Ok in HV. destruct HV as [HinV [_ HpV]].
  unfold latestOnBranch.
  set (onBranch := fun v => (String.eqb (v_projectId v) p
                             && String.eqb (v_branchId v) (v_branchId V))%bool).
  assert (HVf : In V (filter onBranch (versions s))).
  { apply filter_In. split; [exact HinV|]. unfold onBranch.
    now rewrite HpV, !String.eqb_refl. }
  destruct (latestOf (filter onBranch (versions s))) as [h|] eqn:E.
  - apply latestOf_spec in E. destruct E as [Hh Hmax].
    apply filter_In in Hh. destruct Hh as [Hh Hb].
    unfold onBranch in Hb. apply andb_true_iff in Hb.
    destruct Hb as [Hb1 Hb2]. apply String.eqb_eq in Hb1, Hb2.
    unfold versionCreate. simpl. rewrite Hfresh. simpl.
    eexists. eexists. exists h. split; [reflexivity|]. simpl.
    repeat split; auto.
    intros w Hw Hwp Hwb. apply Hmax. apply filter_In. split; [exact Hw|].
    unfold onBranch. now rewrite Hwp, Hwb, !String.eqb_refl.
  - apply latestOf_None in E. rewrite E in HVf. destruct HVf.
Qed.

Lemma restore_onto_branch_head_witness :
  exists created s' h,
    restore "p" "bob" "v1" None "v3" 30 rs_store = (Ok created, s')
    /\ versions s' = versions rs_store ++ [created]
    /\ v_id created = "v3"
    /\ v_branchId created = "main"
    /\ v_content created = v_content (rs_version "v1" None "varchar" 10)
    /\ v_parentVersionId created = Some (v_id h)
    /\ In h (versions rs_store)
    /\ v_projectId h = "p"
    /\ v_branchId h = "main"
    /\ forall w,
         In w (versions rs_store) -> v_projectId w = "p" ->
         v_branchId w = "main" ->
         (v_createdAt w <= v_createdAt h)%Z.
Proof.
  apply (restore_onto_branch_head rs_store "p" "bob" "v1" None "v3" 30
           (rs_version "v1" None "varchar" 10)); reflexivity.
Defined.

(** ** Trimming the branch name *)

Lemma dropPrefix_sound pre x r :
  dropPrefix pre x = Some r -> x = (pre ++ r)%string.
Proof.
  revert x. induction pre as [|a pre IH]; intros x H.
  - simpl in H. now injection H as <-.
  - destruct x as [|c x]; [discriminate|]. simpl in H.
    destruct (Ascii.eqb a c) eqn:E; [|discriminate].
    apply Ascii.eqb_eq in E. subst c. simpl. f_equal. now apply IH.
Qed.

Lemma dropPrefix_complete pre r : dropPrefix pre (pre ++ r)%string = Some r.
Proof.
  induction pre as [|a pre IH]; [reflexivity|].
  simpl. now rewrite Ascii.eqb_refl.
Qed.

Lemma dropWhite_sound seqs x r :
  dropWhite seqs x = Some r -> exists q, In q seqs /\ x = (q ++ r)%string.
Proof.
  induction seqs as [|q seqs IH]; [discriminate|]. simpl.
  destruct (dropPrefix q x) as [r'|] eqn:E.
  - intros [= <-]. exists q. split; [now left|]. now apply dropPrefix_sound.
  - intros H. destruct (IH H) as [q' [Hq' Hx]]. exists q'. split; [now right|exact Hx].
Qed.

Lemma dropWhite_complete seqs q r :
  In q seqs -> dropWhite seqs (q ++ r)%string <> None.
Proof.
  induction seqs as [|q' seqs IH]; [intros []|].
  intros [->|Hin]; simpl.
  - now rewrite dropPrefix_complete.
  - destruct (dropPrefix q' (q ++ r)); [discriminate|]. now apply IH.
Qed.

Lemma append_length (a b : string) :
  String.length (a ++ b)%string = String.length a + String.length b.
Proof. induction a as [|c a IH]; simpl; [reflexivity|now rewrite IH]. Qed.

Lemma append_assoc (a b c : string) :
  ((a ++ b) ++ c)%string = (a ++ b ++ c)%string.
Proof. induction a as [|x a IH]; simpl; [reflexivity|now rewrite IH]. Qed.

Lemma append_empty_r (a : string) : (a ++ "")%string = a.
Proof. induction a as [|x a IH]; simpl; [reflexivity|now rewrite IH]. Qed.

Lemma joined_app l m : joined (l ++ m) = (joined l ++ joined m)%string.
Proof.
  induction l as [|y l IH]; simpl; [reflexivity|].
  now rewrite IH, append_assoc.
Qed.

Lemma dropWhite_shorter seqs x r :
  Forall (fun q => q <> "") seqs ->
  dropWhite seqs x = Some r -> String.length r < String.length x.
Proof.
  intros Hne H. destruct (dropWhite_sound _ _ _ H) as [q [Hq ->]].
  rewrite append_length. rewrite Forall_forall in Hne.
  specialize (Hne q Hq). destruct q; [congruence|]. simpl. lia.
Qed.

Lemma dropWhite_empty seqs :
  Forall (fun q => q <> "") seqs -> dropWhite seqs "" = None.
Proof.
  induction 1 as [|q seqs Hq _ IH]; [reflexivity|].
  simpl. destruct q; [congruence|]. exact IH.
Qed.

(** Stripping removes a run of [seqs] from the front. *)
Lemma trimStartN_prefix seqs n x :
  exists ws,
    Forall (fun w => In w seqs) ws
    /\ x = (joined ws ++ trimStartN n seqs x)%string.
Proof.
  revert x. induction n as [|n IH]; intros x.
  - exists []. split; [constructor|reflexivity].
  - simpl. destruct (dropWhite seqs x) as [r|] eqn:E.
    + destruct (dropWhite_sound _ _ _ E) as [q [Hq ->]].
      destruct (IH r) as [ws [Hws Hr]].
      exists (q :: ws). split; [now constructor|].
      simpl. rewrite append_assoc. now rewrite <- Hr.
    + exists []. split; [constructor|reflexivity].
Qed.

(** With enough rounds nothing strippable is left at the front. *)
Lemma trimStartN_clean seqs n x :
  Forall (fun q => q <> "") seqs ->
  String.length x <= n ->
  startsClean seqs (trimStartN n seqs x).
Proof.
  intros Hne. revert x. induction n as [|n IH]; intros x Hlen.
  - destruct x; [|simpl in Hlen; lia]. now apply dropWhite_empty.
  - simpl. destruct (dropWhite seqs x) as [r|] eqn:E; [|exact E].
    apply IH. apply (dropWhite_shorter _ _ _ Hne) in E. lia.
Qed.

Lemma whiteSpace_nonempty : Forall (fun q => q <> "") whiteSpace.
Proof. cbv. repeat constructor; discriminate. Qed.

Lemma string_of_list_ascii_length l :
  String.length (string_of_list_ascii l) = List.length l.
Proof. induction l; simpl; congruence. Qed.

Lemma list_ascii_of_string_length x :
  List.length (list_ascii_of_string x) = String.length x.
Proof. induction x; simpl; congruence. Qed.

Lemma string_of_list_ascii_app l m :
  string_of_list_ascii (l ++ m)
  = (string_of_list_ascii l ++ string_of_list_ascii m)%string.
Proof. induction l as [|a l IH]; simpl; [reflexivity|now rewrite IH]. Qed.

Lemma list_ascii_of_string_app a b :
  list_ascii_of_string (a ++ b)%string
  = list_ascii_of_string a ++ list_ascii_of_string b.
Proof. induction a as [|c a IH]; simpl; [reflexivity|now rewrite IH]. Qed.

Lemma revString_length x : String.length (revString x) = String.length x.
Proof.
  unfold revString.
  now rewrite string_of_list_ascii_length, length_rev, list_ascii_of_string_length.
Qed.

Lemma revString_involutive x : revString (revString x) = x.
Proof.
  unfold revString.
  now rewrite list_ascii_of_string_of_list_ascii, rev_involutive,
    string_of_list_ascii_of_string.
Qed.

Lemma revString_app a b :
  revString (a ++ b)%string = (revString b ++ revString a)%string.
Proof.
  unfold revString.
  now rewrite list_ascii_of_string_app, rev_app_distr, string_of_list_ascii_app.
Qed.

Lemma revString_nonempty x : x <> "" -> revString x <> "".
Proof.
  intros H E. apply H. rewrite <- (revString_involutive x), E. reflexivity.
Qed.

Lemma revString_joined ws :
  revString (joined ws) = joined (rev (map revString ws)).
Proof.
  induction ws as [|w ws IH]; [reflexivity|].
  simpl. rewrite revString_app, IH, joined_app. simpl.
  now rewrite append_empty_r.
Qed.

(** [trimStart] removes a run of white-space characters from the front and
    leaves a string that begins with none. *)
Lemma trimStart_spec x :
  (exists ws,
      Forall (fun w => In w whiteSpace) ws
      /\ x = (joined ws ++ trimStart x)%string)
  /\ startsClean whiteSpace (trimStart x).
Proof.
  split.
  - apply trimStartN_prefix.
  - apply trimStartN_clean; [exact whiteSpace_nonempty|lia].
Qed.

(** [trimEnd] removes a run of white-space characters from the back and
    leaves a string that ends with none. *)
Lemma trimEnd_spec x :
  (exists ws,
      Forall (fun w => In w whiteSpace) ws
      /\ x = (trimEnd x ++ joined ws)%string)
  /\ startsClean (map revString whiteSpace) (revString (trimEnd x)).
Proof.
  unfold trimEnd. split.
  - destruct (trimStartN_prefix (map revString whiteSpace) (String.length x)
                (revString x)) as [ws [Hws Hx]].
    exists (rev (map revString ws)). split.
    + rewrite Forall_forall in *. intros w Hw.
      apply in_rev in Hw. apply in_map_iff in Hw.
      destruct Hw as [w' [<- Hw']]. specialize (Hws w' Hw').
      apply in_map_iff in Hws. destruct Hws as [q [<- Hq]].
      now rewrite revString_involutive.
    + rewrite <- revString_joined.
      rewrite <- revString_app, <- Hx. now rewrite revString_involutive.
  - rewrite revString_involutive. apply trimStartN_clean.
    + rewrite Forall_forall. intros q Hq. apply in_map_iff in Hq.
      destruct Hq as [w [<- Hw]]. apply revString_nonempty.
      pose proof whiteSpace_nonempty as H. rewrite Forall_forall in H. now apply H.
    + rewrite revString_length. lia.
Qed.

(** A prefix of a string that begins with no white space begins with none,
    unless it is empty. *)
Lemma startsClean_prefix seqs (a b : string) :
  startsClean seqs (a ++ b)%string -> startsClean seqs a.
Proof.
  unfold startsClean. intros H.
  destruct (dropWhite seqs a) as [r|] eqn:E; [|reflexivity].
  destruct (dropWhite_sound _ _ _ E) as [q [Hq ->]].
  exfalso. rewrite append_assoc in H.
  now apply (dropWhite_complete seqs q (r ++ b)%string Hq).
Qed.

(** [trim]: the string is white space, the trimmed string, white space; the
    trimmed string neither begins nor ends with a white-space character. *)
Lemma trim_spec x :
  (exists lead trail,
      Forall (fun w => In w whiteSpace) lead
      /\ Forall (fun w => In w whiteSpace) trail
      /\ x = (joined lead ++ trim x ++ joined trail)%string)
  /\ startsClean whiteSpace (trim x)
  /\ startsClean (map revString whiteSpace) (revString (trim x)).
Proof.
  unfold trim.
  destruct (trimStart_spec x) as [[lead [Hl Hx]] Hc].
  destruct (trimEnd_spec (trimStart x)) as [[trail [Ht Hy]] Hc'].
  split; [|split].
  - exists lead, trail. split; [exact Hl|]. split; [exact Ht|].
    now rewrite <- Hy.
  - apply (startsClean_prefix _ _ (joined trail)). now rewrite <- Hy.
  - exact Hc'.
Qed.

Example trim_samples :
  trim " feature " = "feature"
  /\ trim (bytes [194; 160]) = ""
  /\ trim (bytes [9; 226; 128; 168] ++ "a b" ++ bytes [227; 128; 128; 10; 239; 187; 191])%string = "a b"
  /\ trim (bytes [226; 128; 139] ++ "x")%string = (bytes [226; 128; 139] ++ "x")%string.
Proof. repeat split. Qed.

(** A name made of white space only, whichever characters it uses, is
    rejected before anything is written. *)
Example createBranch_blank_name :
  createBranch "p" "bob" (bytes [194; 160]) (Some "nope") "b2" "v3" 30 rs_store
  = (Err (BadRequest "Nombre de rama requerido"), rs_store)
  /\ createBranch "p" "bob" (bytes [32; 227; 128; 128; 9; 239; 187; 191]) None
       "b2" "v3" 30 rs_store
     = (Err (BadRequest "Nombre de rama requerido"), rs_store).
Proof. split; reflexivity. Qed.

(** [slice(0, 7)] counts code units, not bytes: seven two-byte characters
    are kept whole, and a cut inside a surrogate pair keeps its first half. *)
Example slice7_samples :
  slice7 "ckv9x2m4q000" = "ckv9x2m"
  /\ slice7 "v1" = "v1"
  /\ slice7 (bytes [195; 177; 195; 177; 195; 177; 195; 177; 195; 177; 195; 177;
                    195; 177; 195; 177])
     = bytes [195; 177; 195; 177; 195; 177; 195; 177; 195; 177; 195; 177;
              195; 177]
  /\ slice7 ("abcde" ++ bytes [240; 159; 152; 128] ++ "fg")%string
     = ("abcde" ++ bytes [240; 159; 152; 128])%string
  /\ slice7 ("abcdef" ++ bytes [240; 159; 152; 128] ++ "g")%string
     = ("abcdef" ++ bytes [237; 160; 189])%string.
Proof. repeat split. Qed.

(** ** Branch creation *)

(** C10. With a name that is not blank, a branch id and name that are free,
    and a [fromVersionId] that is given but resolves to no version of the
    project, [createBranch] throws NotFound after the branch row has been
    inserted: the store keeps the new branch, with no seed version and no
    audit entry. *)
Theorem createBranch_unresolved_seed
    (s : Store) (p u name fid bid vid : string) (now : Z) :
  strTruthy (trim name) = true ->
  strTruthy fid = true ->
  findVersion s p fid = None ->
  existsb (fun b => String.eqb (b_id b) bid) (branches s) = false ->
  existsb (fun b => String.eqb (b_projectId b) p
                    && String.eqb (b_name b) (trim name)) (branches s) = false ->
  createBranch p u name (Some fid) bid vid now s
  = (Err (NotFound "Versión base no encontrada"),
     mkStore (branches s ++ [mkBranch bid p (trim name) false u])
       (versions s) (diffs s) (merges s) (audits s)).
Proof.
  intros Hname Hfid Hnone Hid Hnm. unfold createBranch.
  rewrite Hname. simpl. unfold bind, branchCreate. simpl.
  rewrite Hid, Hnm, Hfid. unfold read, findVersion in *. simpl.
  now rewrite Hnone.
Qed.

Lemma createBranch_unresolved_seed_witness :
  createBranch "p" "bob" " feature " (Some "missing") "b2" "v9" 30 rs_store
  = (Err (NotFound "Versión base no encontrada"),
     mkStore (branches rs_store ++ [mkBranch "b2" "p" "feature" false "bob"])
       (versions rs_store) [] [] []).
Proof.
  apply (createBranch_unresolved_seed rs_store "p" "bob" " feature "
           "missing" "b2" "v9" 30); reflexivity.
Defined.

(** ** Ancestry *)

Lemma findVersion_Some s p id v :
  findVersion s p id = Some v ->
  In v (versions s) /\ v_id v = id /\ v_projectId v = p.
Proof.
  intros H. apply getVersion_Ok. unfold getVersion. now rewrite H.
Qed.

Lemma traceLoop_length s p : forall limit cur visited r,
  traceLoop s p cur limit visited = Ok r ->
  List.length r <= List.length visited + limit.
Proof.
  induction limit as [|limit IH]; intros cur visited r; simpl.
  - intros [= <-]. lia.
  - pose proof (add_length visited (v_id cur)) as Hadd.
    destruct (v_parentVersionId cur) as [pid|]; [|intros [= <-]; lia].
    destruct (strTruthy pid); [|intros [= <-]; lia].
    destruct (getVersion s p pid) as [next|e]; [|discriminate].
    intros H. apply IH in H. lia.
Qed.

Lemma traceLoop_total s p :
  parentClosed s p ->
  forall limit cur visited,
    In cur (versions s) -> v_projectId cur = p ->
    exists r, traceLoop s p cur limit visited = Ok r.
Proof.
  intros Hc. induction limit as [|limit IH]; intros cur visited Hin Hp; simpl.
  - eauto.
  - destruct (v_parentVersionId cur) as [pid|] eqn:Epar; [|eauto].
    destruct (strTruthy pid) eqn:Et; [|eauto].
    unfold getVersion.
    destruct (findVersion s p pid) as [next|] eqn:Ef.
    + apply findVersion_Some in Ef. destruct Ef as [Hn [_ Hnp]]. now apply IH.
    + exfalso. exact (Hc cur pid Hin Hp Epar Et Ef).
Qed.

Lemma ancestorLoop_hit s p aAnc : forall limit cur v,
  ancestorLoop s p aAnc cur limit = Ok (Some v) ->
  exists n, n < limit /\ walk s p cur n = Some v
            /\ JsSet.has aAnc (v_id v) = true.
Proof.
  induction limit as [|limit IH]; intros cur v; simpl; [discriminate|].
  destruct (JsSet.has aAnc (v_id cur)) eqn:Eh.
  - intros [= <-]. exists 0. repeat split; [lia|exact Eh].
  - destruct (v_parentVersionId cur) as [pid|] eqn:Epar; [|discriminate].
    destruct (strTruthy pid) eqn:Et; [|discriminate].
    unfold getVersion.
    destruct (findVersion s p pid) as [next|] eqn:Ef; [|discriminate].
    intros H. apply IH in H. destruct H as [n [Hn [Hw Hhas]]].
    exists (S n). repeat split; [lia| |exact Hhas].
    simpl. now rewrite Epar, Et, Ef.
Qed.

Lemma ancestorLoop_total s p aAnc :
  parentClosed s p ->
  forall limit cur,
    In cur (versions s) -> v_projectId cur = p ->
    exists r, ancestorLoop s p aAnc cur limit = Ok r.
Proof.
  intros Hc. induction limit as [|limit IH]; intros cur Hin Hp; simpl.
  - eauto.
  - destruct (JsSet.has aAnc (v_id cur)); [eauto|].
    destruct (v_parentVersionId cur) as [pid|] eqn:Epar; [|eauto].
    destruct (strTruthy pid) eqn:Et; [|eauto].
    unfold getVersion.
    destruct (findVersion s p pid) as [next|] eqn:Ef.
    + apply findVersion_Some in Ef. destruct Ef as [Hn [_ Hnp]]. now apply IH.
    + exfalso. exact (Hc cur pid Hin Hp Epar Et Ef).
Qed.

Lemma findCommonAncestor_hit s p aId bId v :
  findCommonAncestor s p aId bId = Ok (Some v) ->
  exists cur n aAnc,
    getVersion s p bId = Ok cur /\ n < 200
    /\ walk s p cur n = Some v
    /\ traceParents s p aId 200 = Ok aAnc
    /\ JsSet.has aAnc (v_id v) = true.
Proof.
  unfold findCommonAncestor.
  destruct (traceParents s p aId 200) as [aAnc|e]; [|discriminate].
  destruct (getVersion s p bId) as [cur|e]; [|discriminate].
  intros H. apply ancestorLoop_hit in H. destruct H as [n [Hn [Hw Hh]]].
  exists cur, n, aAnc. auto.
Qed.

(** C8. The common-ancestor search is a total function of the store, cyclic
    parent chains included, and each walk is capped at 200 versions:
    - the first walk collects at most 200 ids;
    - an ancestor the search returns lies fewer than 200 parent links above
      [bId] and is among the ids the first walk collected;
    - when none of the first 200 versions of [bId]'s chain is among the
      collected ids, a search that returns returns "none";
    - when both ids resolve and every parent link resolves in the project,
      the search returns a value and not an error. *)
Theorem findCommonAncestor_bounded (s : Store) (p aId bId : string) :
  (forall visited,
      traceParents s p aId 200 = Ok visited -> List.length visited <= 200)
  /\ (forall v,
        findCommonAncestor s p aId bId = Ok (Some v) ->
        exists cur n aAnc,
          getVersion s p bId = Ok cur /\ n < 200
          /\ walk s p cur n = Some v
          /\ traceParents s p aId 200 = Ok aAnc
          /\ JsSet.has aAnc (v_id v) = true)
  /\ (forall r,
        findCommonAncestor s p aId bId = Ok r ->
        (forall cur n v aAnc,
            getVersion s p bId = Ok cur -> n < 200 ->
            walk s p cur n = Some v ->
            traceParents s p aId 200 = Ok aAnc ->
            JsSet.has aAnc (v_id v) = false) ->
        r = None)
  /\ (parentClosed s p ->
      findVersion s p aId <> None -> findVersion s p bId <> None ->
      exists r, findCommonAncestor s p aId bId = Ok r).
Proof.
  split; [|split; [|split]].
  - intros visited. unfold traceParents.
    destruct (getVersion s p aId) as [cur|e]; [|discriminate].
    intros H. apply traceLoop_length in H. simpl in H. exact H.
  - apply findCommonAncestor_hit.
  - intros [v|] Hr Hmiss; [|reflexivity].
    apply findCommonAncestor_hit in Hr.
    destruct Hr as [cur [n [aAnc [Hc [Hn [Hw [Ht Hh]]]]]]].
    rewrite (Hmiss cur n v aAnc Hc Hn Hw Ht) in Hh. discriminate.
  - intros Hc Ha Hb. unfold findCommonAncestor, traceParents, getVersion.
    destruct (findVersion s p aId) as [va|] eqn:Ea; [|congruence].
    destruct (findVersion s p bId) as [vb|] eqn:Eb; [|congruence].
    apply findVersion_Some in Ea, Eb.
    destruct Ea as [Hina [_ Hpa]], Eb as [Hinb [_ Hpb]].
    destruct (traceLoop_total s p Hc 200 va JsSet.empty Hina Hpa) as [aAnc ->].
    apply ancestorLoop_total; assumption.
Qed.

Lemma cyc_store_closed : parentClosed cyc_store "p".
Proof.
  intros v pid Hin _ Hpar _. simpl in Hin.
  destruct Hin as [<-|[<-|[<-|[]]]]; injection Hpar as <-; discriminate.
Qed.

Lemma findCommonAncestor_bounded_witness :
  exists r, findCommonAncestor cyc_store "p" "v1" "v3" = Ok r.
Proof.
  apply (proj2 (proj2 (proj2
           (findCommonAncestor_bounded cyc_store "p" "v1" "v3")))).
  - exact cyc_store_closed.
  - discriminate.
  - discriminate.
Defined.

(** On those cycles both walks stop at the cap and the answer is "none". *)
Example findCommonAncestor_cyclic :
  traceParents cyc_store "p" "v1" 200 = Ok ["v1"; "v2"]
  /\ findCommonAncestor cyc_store "p" "v1" "v3" = Ok None.
Proof. split; vm_compute; reflexivity. Qed.

(** ** Merge: the commit *)

(** C3 (counterexample). Merging feature into main when the insert of the
    result version fails (its id "v2" is taken): the call ends in an error,
    yet the store has changed.  The merge record "m1" is persisted with no
    result version, while no version and no audit record were written. *)
Lemma merge_commit_not_atomic_cex :
  let run := merge "p" "bob" mg_params "m1" "v2" 30 mg_store in
  fst run = Err (UniqueViolation "ModelVersion_pkey")
  /\ snd run <> mg_store
  /\ merges (snd run)
     = [mkMerge "m1" "p" "feat" "main" "v2" "v1" None COMPLETED None "bob"]
  /\ versions (snd run) = versions mg_store
  /\ audits (snd run) = [].
Proof.
  cbv zeta. split; [reflexivity|]. split; [|split; [|split]];
    try reflexivity.
  intros H. apply (f_equal merges) in H. discriminate H.
Qed.

Lemma update_fresh id rid (rows : list Merge) :
  existsb (fun m => String.eqb (m_id m) id) rows = false ->
  map (fun m => if String.eqb (m_id m) id then setResultVersion rid m else m)
    rows = rows.
Proof.
  induction rows as [|m rows IH]; simpl; [reflexivity|].
  intros H. apply orb_false_iff in H. destruct H as [H1 H2].
  rewrite H1, IH by exact H2. reflexivity.
Qed.

Lemma existsb_snoc_hit id (rows : list Merge) (row : Merge) :
  m_id row = id ->
  existsb (fun m => String.eqb (m_id m) id) (rows ++ [row]) = true.
Proof.
  intros <-. rewrite existsb_app. simpl.
  now rewrite String.eqb_refl, orb_true_r.
Qed.

(** C3 (as amended). The commit of [merge] is four separate writes in this
    order: the merge record without a result version, the result version,
    the update that links the two, the audit record.  For arguments that
    pass the checks (both versions resolve on the named branches, the
    ancestor search returns, the merge id is new):
    - when the version id is new, all writes happen: the store gains the
      result version, the merge record referencing it, and the audit record;
    - when the insert of the result version fails, the error leaves the
      merge record in the store, with no result version, and neither the
      version nor the audit record is written. *)
Theorem merge_commit_sequence
    (s : Store) (p u : string) (params : MergeParams) (mid vid : string)
    (now : Z) (src dst : ModelVersion) (anc : option ModelVersion) :
  getVersion s p (sourceVersionId params) = Ok src ->
  getVersion s p (targetVersionId params) = Ok dst ->
  v_branchId src = sourceBranchId params ->
  v_branchId dst = targetBranchId params ->
  findCommonAncestor s p (sourceVersionId params) (targetVersionId params)
  = Ok anc ->
  existsb (fun m => String.eqb (m_id m) mid) (merges s) = false ->
  let base := match anc with Some a => v_content a | None => emptyDSL end in
  let out := threeWayMerge base (v_content dst) (v_content src) in
  (existsb (fun v => String.eqb (v_id v) vid) (versions s) = false ->
   merge p u params mid vid now s
   = (Ok (mkMergeReply mid
            (if nonEmpty (conflicts out) then CONFLICTS else COMPLETED)
            (conflicts out) vid),
      mkStore (branches s)
        (versions s ++ [resultRow p u params vid now out])
        (diffs s)
        (merges s ++ [mergeRow p u params mid (Some vid) out])
        (audits s ++ [mergeAudit p u mid vid out])))
  /\ (existsb (fun v => String.eqb (v_id v) vid) (versions s) = true ->
      merge p u params mid vid now s
      = (Err (UniqueViolation "ModelVersion_pkey"),
         mkStore (branches s) (versions s) (diffs s)
           (merges s ++ [mergeRow p u params mid None out])
           (audits s))).
Proof.
  intros Hsrc Hdst Hbs Hbd Hanc Hmid. cbv zeta.
  assert (Hguard : (negb (String.eqb (v_branchId src) (sourceBranchId params))
                    || negb (String.eqb (v_branchId dst) (targetBranchId params)))%bool
                   = false).
  { now rewrite Hbs, Hbd, !String.eqb_refl. }
  split; intros Hvid.
  - unfold merge, bind, read. rewrite Hsrc, Hdst, Hguard, Hanc.
    unfold mergeCreate. simpl. rewrite Hmid.
    unfold versionCreate. simpl. rewrite Hvid.
    unfold mergeUpdate. simpl.
    rewrite existsb_snoc_hit by reflexivity.
    unfold auditCreate, ret. simpl.
    rewrite map_app, update_fresh by exact Hmid. simpl.
    rewrite String.eqb_refl. reflexivity.
  - unfold merge, bind, read. rewrite Hsrc, Hdst, Hguard, Hanc.
    unfold mergeCreate. simpl. rewrite Hmid.
    unfold versionCreate. simpl. rewrite Hvid. reflexivity.
Qed.

Lemma merge_commit_sequence_witness :
  let out := threeWayMerge (v_content (mg_version "v1" "main" None "varchar" 10))
               (v_content (mg_version "v1" "main" None "varchar" 10))
               (v_content (mg_version "v2" "feat" (Some "v1") "text" 20)) in
  merge "p" "bob" mg_params "m1" "v3" 30 mg_store
  = (Ok (mkMergeReply "m1"
           (if nonEmpty (conflicts out) then CONFLICTS else COMPLETED)
           (conflicts out) "v3"),
     mkStore (branches mg_store)
       (versions mg_store ++ [resultRow "p" "bob" mg_params "v3" 30 out])
       (diffs mg_store)
       (merges mg_store ++ [mergeRow "p" "bob" mg_params "m1" (Some "v3") out])
       (audits mg_store ++ [mergeAudit "p" "bob" "m1" "v3" out])).
Proof.
  apply (proj1 (merge_commit_sequence mg_store "p" "bob" mg_params "m1" "v3" 30
                  (mg_version "v2" "feat" (Some "v1") "text" 20)
                  (mg_version "v1" "main" None "varchar" 10)
                  (Some (mg_version "v1" "main" None "varchar" 10))
                  eq_refl eq_refl eq_refl eq_refl eq_refl eq_refl));
    reflexivity.
Defined.

(** ** Diff of a version against itself *)

(** C5 (counterexample). Version "v1" resolves in project "p", yet
    [diff] of "v1" against itself returns no report at all. *)
Lemma diff_same_version_cex :
  getVersion df_store "p" "v1" = Ok (rs_version "v1" None "varchar" 10)
  /\ ~ exists r s', diff "p" "v1" "v1" df_store = (Ok r, s').
Proof.
  split; [reflexivity|]. intros [r [s' H]]. discriminate H.
Qed.

Lemma diff_same_version_witness :
  exists r s',
    diff "p" "v1" "v2" df_store = (Ok r, s')
    /\ dr_entities r = mkEntityDiff [] [] []
    /\ dr_relations r = mkRelationDiff [] [] [].
Proof.
  apply (proj2 (diff_same_version df_store "p" "v1") "v2"
           (rs_version "v1" None "varchar" 10)
           (rs_version "v2" (Some "v1") "varchar" 20));
    [discriminate|reflexivity|reflexivity|reflexivity].
Defined.

Lemma threeWayMerge_constraints_witness :
  In "c1" (nullish (constraints (mkDSL [] [] (Some ["c1"]))) []).
Proof.
  apply (proj2 (threeWayMerge_constraints (mkDSL [] [] (Some ["c1"]))
                  (mkDSL [] [] (Some ["c1"; "c2"]))
                  (mkDSL [] [] (Some ["c3"])))).
  simpl. now left.
Defined.

(** * Further properties of the service *)

(** ** Merge: what the merged document holds *)

Lemma collected_get_notin {V : Type} (out : string -> option V * list Conflict)
    l k :
  ~ In k l -> JsMap.get (collected out l) k = None.
Proof.
  intros H. apply get_None_keys. intros Hin. apply H.
  eapply collected_keys_incl. exact Hin.
Qed.

Lemma allKeys_miss {V : Type} (b o t : JsMap.t V) k :
  ~ In k (allKeys b o t) ->
  JsMap.get b k = None /\ JsMap.get o k = None /\ JsMap.get t k = None.
Proof.
  intros H. rewrite allKeys_In in H.
  repeat split; apply get_None_keys; tauto.
Qed.

Lemma merged_relation_get base ours theirs k :
  JsMap.get (indexRelations (result (threeWayMerge base ours theirs))) k
  = nullishOpt (JsMap.get (indexRelations ours) k)
      (JsMap.get (indexRelations theirs) k).
Proof.
  rewrite merged_indexRelations.
  destruct (in_dec string_dec k
              (allKeys (indexRelations base) (indexRelations ours)
                 (indexRelations theirs))) as [Hin|Hout].
  - rewrite collected_get by exact Hin. unfold relOutcome.
    destruct (JsMap.get (indexRelations ours) k),
             (JsMap.get (indexRelations theirs) k); reflexivity.
  - rewrite collected_get_notin by exact Hout.
    apply allKeys_miss in Hout. destruct Hout as [_ [-> ->]]. reflexivity.
Qed.

Lemma merged_entity_get base ours theirs name :
  JsMap.get (indexEntities (result (threeWayMerge base ours theirs))) name
  = match JsMap.get (indexEntities ours) name,
          JsMap.get (indexEntities theirs) name with
    | Some o, Some t =>
        Some (mergedEntity name (JsMap.get (indexEntities base) name) o t)
    | Some o, None => Some o
    | None, Some t => Some t
    | None, None => None
    end.
Proof.
  rewrite merged_indexEntities.
  destruct (in_dec string_dec name
              (allKeys (indexEntities base) (indexEntities ours)
                 (indexEntities theirs))) as [Hin|Hout].
  - rewrite collected_get by exact Hin. unfold entityOutcome.
    destruct (JsMap.get (indexEntities ours) name),
             (JsMap.get (indexEntities theirs) name); reflexivity.
  - rewrite collected_get_notin by exact Hout.
    apply allKeys_miss in Hout. destruct Hout as [_ [-> ->]]. reflexivity.
Qed.

Lemma findAttr_None an attrs :
  findAttr an attrs = None <-> ~ In an (map a_name attrs).
Proof.
  unfold findAttr. induction attrs as [|a attrs IH]; simpl; [tauto|].
  destruct (String.eqb_spec (a_name a) an) as [E|Hne].
  - split; [discriminate|]. intros H. exfalso. apply H. now left.
  - rewrite IH. intuition congruence.
Qed.

Lemma attrOutcome_fst name b o t an :
  fst (attrOutcome name b o t an)
  = nullishOpt (findAttr an (e_attrs o)) (findAttr an (e_attrs t)).
Proof.
  unfold attrOutcome.
  destruct (findAttr an (attrsOf b)), (findAttr an (e_attrs o)),
           (findAttr an (e_attrs t)); reflexivity.
Qed.

Lemma mergedEntity_findAttr name b o t an :
  findAttr an (e_attrs (mergedEntity name b o t))
  = nullishOpt (findAttr an (e_attrs o)) (findAttr an (e_attrs t)).
Proof.
  destruct (in_dec string_dec an (attrNames b o t)) as [Hin|Hout].
  - rewrite mergedEntity_attr by exact Hin. apply attrOutcome_fst.
  - unfold mergedEntity. simpl. rewrite findAttr_values.
    + rewrite collected_get_notin by exact Hout.
      unfold attrNames in Hout. rewrite of_list_In, !in_app_iff in Hout.
      assert (Ho : findAttr an (e_attrs o) = None)
        by (apply findAttr_None; tauto).
      assert (Ht : findAttr an (e_attrs t) = None)
        by (apply findAttr_None; tauto).
      now rewrite Ho, Ht.
    + intros k v H. apply collected_In in H. destruct H as [_ H].
      eapply attrOutcome_name. exact H.
Qed.

Lemma values_names_keys (m : JsMap.t Attr) :
  (forall k v, In (k, v) m -> a_name v = k) ->
  map a_name (JsMap.values m) = JsMap.keys m.
Proof.
  induction m as [|[k v] m IH]; intros H; simpl; [reflexivity|].
  rewrite (H k v) by now left. f_equal. apply IH.
  intros. apply H. now right.
Qed.

Lemma mergedEntity_NoDup name b o t :
  NoDup (map a_name (e_attrs (mergedEntity name b o t))).
Proof.
  unfold mergedEntity. simpl. rewrite values_names_keys.
  - apply collected_NoDup, of_list_NoDup.
  - intros k v H. apply collected_In in H. destruct H as [_ H].
    eapply attrOutcome_name. exact H.
Qed.

(** X1. Merged relations are ours overlaid on theirs: under every key the
    merged document holds ours's relation when ours has one, otherwise
    theirs's, otherwise none.  The base never contributes a relation. *)
Theorem threeWayMerge_relations_overlay (base ours theirs : DSL) (k : string) :
  JsMap.get (indexRelations (result (threeWayMerge base ours theirs))) k
  = match JsMap.get (indexRelations ours) k with
    | Some o => Some o
    | None => JsMap.get (indexRelations theirs) k
    end.
Proof.
  rewrite merged_relation_get.
  destruct (JsMap.get (indexRelations ours) k); reflexivity.
Qed.

(** X2. Entities by presence.  An entity that only one side has is taken
    from that side unchanged, whether or not the base has it (added on one
    side, or deleted on the other side only); an entity neither side has is
    absent from the merge even when the base has it. *)
Theorem threeWayMerge_entity_presence (base ours theirs : DSL) (name : string) :
  (forall o,
      JsMap.get (indexEntities ours) name = Some o ->
      JsMap.get (indexEntities theirs) name = None ->
      JsMap.get (indexEntities (result (threeWayMerge base ours theirs))) name
      = Some o)
  /\ (forall t,
      JsMap.get (indexEntities ours) name = None ->
      JsMap.get (indexEntities theirs) name = Some t ->
      JsMap.get (indexEntities (result (threeWayMerge base ours theirs))) name
      = Some t)
  /\ (JsMap.get (indexEntities ours) name = None ->
      JsMap.get (indexEntities theirs) name = None ->
      JsMap.get (indexEntities (result (threeWayMerge base ours theirs))) name
      = None).
Proof.
  repeat split; intros; rewrite merged_entity_get;
    repeat match goal with H : JsMap.get _ _ = _ |- _ => rewrite H; clear H end;
    reflexivity.
Qed.

Lemma threeWayMerge_entity_presence_witness :
  JsMap.get (indexEntities (result (threeWayMerge ff_X ff_X ff_Z))) "Payment"
  = Some (mkEntity "Payment" None [])
  /\ JsMap.get (indexEntities (result (threeWayMerge ff_X ff_Z ff_X))) "Payment"
     = Some (mkEntity "Payment" None [])
  /\ JsMap.get (indexEntities (result (threeWayMerge ff_X ff_Y ff_Y))) "User"
     = None.
Proof.
  split; [|split].
  - apply (proj1 (proj2 (threeWayMerge_entity_presence ff_X ff_X ff_Z "Payment")));
      reflexivity.
  - apply (proj1 (threeWayMerge_entity_presence ff_X ff_Z ff_X "Payment"));
      reflexivity.
  - apply (proj2 (proj2 (threeWayMerge_entity_presence ff_X ff_Y ff_Y "User")));
      reflexivity.
Defined.

(** X3. An entity both sides have is rebuilt: it keeps the name, its
    stereotype is ours's, else theirs's, else the base's, and under every
    attribute name it holds ours's attribute when ours has one, otherwise
    theirs's, otherwise none; its attribute names are pairwise distinct.
    Attributes that only the base has are dropped. *)
Theorem threeWayMerge_entity_both (base ours theirs : DSL) (name : string)
    (o t : Entity) :
  JsMap.get (indexEntities ours) name = Some o ->
  JsMap.get (indexEntities theirs) name = Some t ->
  exists e,
    JsMap.get (indexEntities (result (threeWayMerge base ours theirs))) name
    = Some e
    /\ e_name e = name
    /\ e_stereotype e
       = match e_stereotype o, e_stereotype t with
         | Some s, _ => Some s
         | None, Some s => Some s
         | None, None => stereotypeOf (JsMap.get (indexEntities base) name)
         end
    /\ (forall an,
          findAttr an (e_attrs e)
          = match findAttr an (e_attrs o) with
            | Some a => Some a
            | None => findAttr an (e_attrs t)
            end)
    /\ NoDup (map a_name (e_attrs e)).
Proof.
  intros Ho Ht.
  exists (mergedEntity name (JsMap.get (indexEntities base) name) o t).
  split; [rewrite merged_entity_get, Ho, Ht; reflexivity|].
  split; [reflexivity|]. split; [|split].
  - simpl. destruct (e_stereotype o), (e_stereotype t); reflexivity.
  - intros an. rewrite mergedEntity_findAttr.
    destruct (findAttr an (e_attrs o)); reflexivity.
  - apply mergedEntity_NoDup.
Qed.

Lemma threeWayMerge_entity_both_witness :
  exists e,
    JsMap.get (indexEntities
                 (result (threeWayMerge (tc_doc "entity" "varchar" association)
                            (tc_doc "aggregate" "text" aggregation)
                            (tc_doc "value" "citext" composition)))) "User"
    = Some e
    /\ e_name e = "User"
    /\ e_stereotype e = Some "aggregate"
    /\ (forall an,
          findAttr an (e_attrs e)
          = match findAttr an [tc_attr "text"] with
            | Some a => Some a
            | None => findAttr an [tc_attr "citext"]
            end)
    /\ NoDup (map a_name (e_attrs e)).
Proof.
  apply (threeWayMerge_entity_both (tc_doc "entity" "varchar" association)
           (tc_doc "aggregate" "text" aggregation)
           (tc_doc "value" "citext" composition) "User"
           (mkEntity "User" (Some "aggregate") [tc_attr "text"])
           (mkEntity "User" (Some "value") [tc_attr "citext"]));
    reflexivity.
Defined.

(** ** Merge: keys of the merged document *)

Lemma values_key_keys {V : Type} (key : V -> string) (m : JsMap.t V) :
  (forall k v, In (k, v) m -> key v = k) ->
  map key (JsMap.values m) = JsMap.keys m.
Proof.
  induction m as [|[k v] m IH]; intros H; simpl; [reflexivity|].
  rewrite (H k v) by now left. f_equal. apply IH.
  intros. apply H. now right.
Qed.

Lemma keys_set_In {V : Type} (m : JsMap.t V) k v k' :
  In k' (JsMap.keys (JsMap.set m k v)) <-> In k' (JsMap.keys m) \/ k' = k.
Proof.
  rewrite keys_set, has_get. destruct (JsMap.get m k) eqn:E.
  - apply get_Some_keys in E. intuition congruence.
  - rewrite in_app_iff. simpl. intuition.
Qed.

Lemma keys_indexFrom_In {V : Type} (key : V -> string) l : forall m0 k,
  In k (JsMap.keys (indexFrom key l m0))
  <-> In k (JsMap.keys m0) \/ In k (map key l).
Proof.
  induction l as [|x l IH]; intros m0 k; simpl; [tauto|].
  change (indexFrom key (x :: l) m0)
    with (indexFrom key l (JsMap.set m0 (key x) x)).
  rewrite IH, keys_set_In. intuition.
Qed.

Lemma indexEntities_keys_In d name :
  In name (JsMap.keys (indexEntities d)) <-> In name (map e_name (entities d)).
Proof.
  change (indexEntities d) with (indexFrom e_name (entities d) []).
  rewrite keys_indexFrom_In. simpl. tauto.
Qed.

Lemma indexRelations_keys_In d k :
  In k (JsMap.keys (indexRelations d)) <-> In k (map keyRel (relations d)).
Proof.
  change (indexRelations d) with (indexFrom keyRel (relations d) []).
  rewrite keys_indexFrom_In. simpl. tauto.
Qed.

Lemma keys_get_Some {V : Type} (m : JsMap.t V) k :
  In k (JsMap.keys m) <-> JsMap.get m k <> None.
Proof.
  destruct (JsMap.get m k) eqn:E.
  - apply get_Some_keys in E. split; [discriminate|auto].
  - apply get_None_keys in E. split; [contradiction|congruence].
Qed.

Lemma entityOutcome_name bE oE tE d1 d2 k v :
  oE = indexEntities d1 -> tE = indexEntities d2 ->
  fst (entityOutcome bE oE tE k) = Some v -> e_name v = k.
Proof.
  intros -> -> H. unfold entityOutcome in H.
  destruct (JsMap.get (indexEntities d1) k) eqn:Eo,
           (JsMap.get (indexEntities d2) k) eqn:Et;
    simpl in H; inversion H; subst;
    first [reflexivity | eapply indexEntities_name; eassumption].
Qed.

Lemma relOutcome_key bR oR tR d1 d2 k v :
  oR = indexRelations d1 -> tR = indexRelations d2 ->
  fst (relOutcome bR oR tR k) = Some v -> keyRel v = k.
Proof.
  intros -> -> H. unfold relOutcome in H.
  destruct (JsMap.get (indexRelations d1) k) eqn:Eo,
           (JsMap.get (indexRelations d2) k) eqn:Et;
    simpl in H; inversion H; subst;
    eapply indexRelations_key; eassumption.
Qed.

Lemma merged_entity_names base ours theirs :
  map e_name (entities (result (threeWayMerge base ours theirs)))
  = JsMap.keys (indexEntities (result (threeWayMerge base ours theirs))).
Proof.
  rewrite merged_indexEntities, threeWayMerge_closed. cbv zeta. simpl.
  apply values_key_keys. intros k v H. apply collected_In in H.
  destruct H as [_ H].
  eapply entityOutcome_name; [reflexivity|reflexivity|exact H].
Qed.

Lemma merged_relation_keys base ours theirs :
  map keyRel (relations (result (threeWayMerge base ours theirs)))
  = JsMap.keys (indexRelations (result (threeWayMerge base ours theirs))).
Proof.
  rewrite merged_indexRelations, threeWayMerge_closed. cbv zeta. simpl.
  apply values_key_keys. intros k v H. apply collected_In in H.
  destruct H as [_ H].
  eapply relOutcome_key; [reflexivity|reflexivity|exact H].
Qed.

(** X4. The merged document is well keyed: its entity names are pairwise
    distinct and are exactly the names that ours or theirs have, and its
    relation keys ([from::to]) are pairwise distinct and are exactly the
    keys that ours or theirs have.  A name or key that only the base has
    never reaches the result. *)
Theorem threeWayMerge_keys (base ours theirs : DSL) :
  let merged := result (threeWayMerge base ours theirs) in
  NoDup (map e_name (entities merged))
  /\ (forall name,
        In name (map e_name (entities merged))
        <-> In name (map e_name (entities ours))
            \/ In name (map e_name (entities theirs)))
  /\ NoDup (map keyRel (relations merged))
  /\ (forall k,
        In k (map keyRel (relations merged))
        <-> In k (map keyRel (relations ours))
            \/ In k (map keyRel (relations theirs))).
Proof.
  cbv zeta. split; [|split; [|split]].
  - rewrite merged_entity_names. apply indexEntities_NoDup.
  - intros name. rewrite merged_entity_names, keys_get_Some, merged_entity_get.
    rewrite <- !indexEntities_keys_In, !keys_get_Some.
    destruct (JsMap.get (indexEntities ours) name),
             (JsMap.get (indexEntities theirs) name);
      intuition congruence.
  - rewrite merged_relation_keys. apply indexRelations_NoDup.
  - intros k. rewrite merged_relation_keys, keys_get_Some, merged_relation_get.
    rewrite <- !indexRelations_keys_In, !keys_get_Some.
    destruct (JsMap.get (indexRelations ours) k),
             (JsMap.get (indexRelations theirs) k);
      simpl; intuition congruence.
Qed.

(** ** Merge: which conflicts are recorded *)

Lemma entityOutcome_sound bE oE tE n c :
  In c (snd (entityOutcome bE oE tE n)) ->
  exists o t,
    JsMap.get oE n = Some o /\ JsMap.get tE n = Some t
    /\ ((c = CStereotype n (e_stereotype o) (e_stereotype t)
         /\ stereotypeConflict (JsMap.get bE n) o t = true)
        \/ exists an ao att,
             c = CAttr n an ao att
             /\ findAttr an (e_attrs o) = Some ao
             /\ findAttr an (e_attrs t) = Some att
             /\ attrConflictTest (findAttr an (attrsOf (JsMap.get bE n)))
                  ao att = true).
Proof.
  unfold entityOutcome.
  destruct (JsMap.get oE n) as [o|], (JsMap.get tE n) as [t|]; simpl;
    try tauto.
  rewrite in_app_iff, in_flat_map. intros H.
  exists o, t. split; [reflexivity|]. split; [reflexivity|].
  destruct H as [H|[an [_ H]]].
  - destruct (stereotypeConflict (JsMap.get bE n) o t) eqn:E;
      simpl in H; [|tauto].
    destruct H as [<-|[]]. left. auto.
  - right. unfold attrOutcome in H.
    destruct (findAttr an (attrsOf (JsMap.get bE n))) as [bo|] eqn:Eb,
             (findAttr an (e_attrs o)) as [ao|] eqn:Eo,
             (findAttr an (e_attrs t)) as [att|] eqn:Et;
      simpl in H; try tauto;
      match type of H with
      | In _ (if ?x then _ else _) => destruct x eqn:E
      end; simpl in H; try tauto;
      destruct H as [<-|[]]; exists an, ao, att; repeat split;
      try assumption; rewrite Eb; exact E.
Qed.

Lemma relOutcome_sound bR oR tR k c :
  In c (snd (relOutcome bR oR tR k)) ->
  exists o t,
    JsMap.get oR k = Some o /\ JsMap.get tR k = Some t
    /\ c = CRelation k o t
    /\ relConflictTest (JsMap.get bR k) o t = true.
Proof.
  unfold relOutcome.
  destruct (JsMap.get oR k) as [o|], (JsMap.get tR k) as [t|]; simpl;
    try tauto.
  destruct (relConflictTest (JsMap.get bR k) o t) eqn:E; simpl; [|tauto].
  intros [<-|[]]. exists o, t. auto.
Qed.

Lemma stereotypeConflict_true b o t :
  stereotypeConflict b o t = true ->
  pick (e_stereotype o) <> pick (e_stereotype t)
  /\ pick (e_stereotype o) <> pick (stereotypeOf b)
  /\ pick (e_stereotype t) <> pick (stereotypeOf b).
Proof.
  unfold stereotypeConflict. rewrite !andb_true_iff, !negb_true_iff.
  intros [[H1 H2] H3]. now rewrite <- !String.eqb_neq.
Qed.

Lemma attrConflictTest_true bo ao att :
  attrConflictTest bo ao att = true ->
  same ao att = false
  /\ match bo with
     | None => True
     | Some bo => same ao bo = false /\ same att bo = false
     end.
Proof.
  unfold attrConflictTest. rewrite andb_true_iff, negb_true_iff.
  intros [H1 H2]. split; [exact H1|]. destruct bo; [|exact I].
  now rewrite andb_true_iff, !negb_true_iff in H2.
Qed.

Lemma relConflictTest_true b o t :
  relConflictTest b o t = true ->
  eqRel o t = false
  /\ match b with
     | None => True
     | Some b => eqRel o b = false /\ eqRel t b = false
     end.
Proof.
  unfold relConflictTest. rewrite andb_true_iff, negb_true_iff.
  intros [H1 H2]. split; [exact H1|]. destruct b; [|exact I].
  now rewrite andb_true_iff, !negb_true_iff in H2.
Qed.

(** X5. Every recorded conflict is a true one.  A conflict names a key that
    both ours and theirs have, carries exactly the two values found there,
    and those values differ from each other and, when the base has the key,
    both differ from the base's value (stereotypes compared as [pick] reads
    them, attributes by type and flags, relations by kind and
    cardinalities). *)
Theorem threeWayMerge_conflicts_sound (base ours theirs : DSL) (c : Conflict) :
  In c (conflicts (threeWayMerge base ours theirs)) ->
  match c with
  | CStereotype name so st =>
      exists o t,
        JsMap.get (indexEntities ours) name = Some o
        /\ JsMap.get (indexEntities theirs) name = Some t
        /\ so = e_stereotype o /\ st = e_stereotype t
        /\ pick so <> pick st
        /\ pick so <> pick (stereotypeOf (JsMap.get (indexEntities base) name))
        /\ pick st <> pick (stereotypeOf (JsMap.get (indexEntities base) name))
  | CAttr name an ao att =>
      exists o t,
        JsMap.get (indexEntities ours) name = Some o
        /\ JsMap.get (indexEntities theirs) name = Some t
        /\ findAttr an (e_attrs o) = Some ao
        /\ findAttr an (e_attrs t) = Some att
        /\ same ao att = false
        /\ match findAttr an (attrsOf (JsMap.get (indexEntities base) name)) with
           | None => True
           | Some bo => same ao bo = false /\ same att bo = false
           end
  | CRelation k o t =>
      JsMap.get (indexRelations ours) k = Some o
      /\ JsMap.get (indexRelations theirs) k = Some t
      /\ eqRel o t = false
      /\ match JsMap.get (indexRelations base) k with
         | None => True
         | Some b => eqRel o b = false /\ eqRel t b = false
         end
  end.
Proof.
  rewrite merged_conflicts, in_app_iff, !in_flat_map.
  intros [[n [_ H]]|[k [_ H]]].
  - apply entityOutcome_sound in H.
    destruct H as [o [t [Ho [Ht [[-> Hs]|[an [ao [att [-> [Hao [Hat Hc]]]]]]]]]]].
    + apply stereotypeConflict_true in Hs. destruct Hs as [H1 [H2 H3]].
      exists o, t. repeat split; assumption.
    + apply attrConflictTest_true in Hc. destruct Hc as [H1 H2].
      exists o, t. repeat split; assumption.
  - apply relOutcome_sound in H.
    destruct H as [o [t [Ho [Ht [-> Hc]]]]].
    apply relConflictTest_true in Hc. destruct Hc as [H1 H2].
    repeat split; assumption.
Qed.

Lemma threeWayMerge_conflicts_sound_witness :
  JsMap.get (indexRelations (tc_doc "aggregate" "text" aggregation))
    "User::Order" = Some (tc_rel aggregation)
  /\ JsMap.get (indexRelations (tc_doc "value" "citext" composition))
       "User::Order" = Some (tc_rel composition)
  /\ eqRel (tc_rel aggregation) (tc_rel composition) = false
  /\ match JsMap.get (indexRelations (tc_doc "entity" "varchar" association))
             "User::Order" with
     | None => True
     | Some b => eqRel (tc_rel aggregation) b = false
                 /\ eqRel (tc_rel composition) b = false
     end.
Proof.
  apply (threeWayMerge_conflicts_sound (tc_doc "entity" "varchar" association)
           (tc_doc "aggregate" "text" aggregation)
           (tc_doc "value" "citext" composition)
           (CRelation "User::Order" (tc_rel aggregation) (tc_rel composition))).
  vm_compute. right. right. now left.
Defined.

(** ** Merge: disjoint sides and identical sides *)

Lemma entity_get_None d name :
  ~ In name (map e_name (entities d)) -> JsMap.get (indexEntities d) name = None.
Proof.
  intros H. apply get_None_keys. now rewrite indexEntities_keys_In.
Qed.

Lemma relation_get_None d k :
  ~ In k (map keyRel (relations d)) -> JsMap.get (indexRelations d) k = None.
Proof.
  intros H. apply get_None_keys. now rewrite indexRelations_keys_In.
Qed.

Lemma one_side_None {V : Type} (m1 m2 : JsMap.t V) k :
  (In k (JsMap.keys m1) -> In k (JsMap.keys m2) -> False) ->
  JsMap.get m1 k = None \/ JsMap.get m2 k = None.
Proof.
  intros H. destruct (JsMap.get m1 k) eqn:E1; [|now left].
  destruct (JsMap.get m2 k) eqn:E2; [|now right].
  exfalso. apply H; eapply get_Some_keys; eassumption.
Qed.

(** X6. Sides that share no key merge without conflict and lose nothing:
    when no entity name and no relation key occurs in both ours and theirs,
    the conflict list is empty and every entity and relation of either side
    is in the merged document exactly as that side has it, whatever the base
    is. *)
Theorem threeWayMerge_disjoint (base ours theirs : DSL) :
  (forall name,
      In name (map e_name (entities ours)) ->
      In name (map e_name (entities theirs)) -> False) ->
  (forall k,
      In k (map keyRel (relations ours)) ->
      In k (map keyRel (relations theirs)) -> False) ->
  let out := threeWayMerge base ours theirs in
  conflicts out = []
  /\ (forall name e,
        JsMap.get (indexEntities ours) name = Some e
        \/ JsMap.get (indexEntities theirs) name = Some e ->
        JsMap.get (indexEntities (result out)) name = Some e)
  /\ (forall k r,
        JsMap.get (indexRelations ours) k = Some r
        \/ JsMap.get (indexRelations theirs) k = Some r ->
        JsMap.get (indexRelations (result out)) k = Some r).
Proof.
  intros HE HR. cbv zeta.
  assert (HE' : forall name, JsMap.get (indexEntities ours) name = None
                             \/ JsMap.get (indexEntities theirs) name = None).
  { intros name. apply one_side_None. rewrite !indexEntities_keys_In.
    apply HE. }
  assert (HR' : forall k, JsMap.get (indexRelations ours) k = None
                          \/ JsMap.get (indexRelations theirs) k = None).
  { intros k. apply one_side_None. rewrite !indexRelations_keys_In.
    apply HR. }
  split; [|split].
  - rewrite merged_conflicts. rewrite !flat_map_nil; [reflexivity| |].
    + intros k _. unfold relOutcome.
      destruct (HR' k) as [-> | ->];
        [destruct (JsMap.get (indexRelations theirs) k)
        |destruct (JsMap.get (indexRelations ours) k)]; reflexivity.
    + intros n _. unfold entityOutcome.
      destruct (HE' n) as [-> | ->];
        [destruct (JsMap.get (indexEntities theirs) n)
        |destruct (JsMap.get (indexEntities ours) n)]; reflexivity.
  - intros name e H. rewrite merged_entity_get.
    destruct (HE' name) as [Hn|Hn]; rewrite Hn in *;
      destruct H as [H|H]; try discriminate; rewrite H; reflexivity.
  - intros k r H. rewrite merged_relation_get.
    destruct (HR' k) as [Hn|Hn]; rewrite Hn in *;
      destruct H as [H|H]; try discriminate; rewrite H; reflexivity.
Qed.

Lemma threeWayMerge_disjoint_witness :
  conflicts (threeWayMerge ff_Y dj_ours ff_Z) = []
  /\ (forall name e,
        JsMap.get (indexEntities dj_ours) name = Some e
        \/ JsMap.get (indexEntities ff_Z) name = Some e ->
        JsMap.get (indexEntities (result (threeWayMerge ff_Y dj_ours ff_Z))) name
        = Some e)
  /\ (forall k r,
        JsMap.get (indexRelations dj_ours) k = Some r
        \/ JsMap.get (indexRelations ff_Z) k = Some r ->
        JsMap.get (indexRelations (result (threeWayMerge ff_Y dj_ours ff_Z))) k
        = Some r).
Proof.
  apply (threeWayMerge_disjoint ff_Y dj_ours ff_Z).
  - simpl. intros name [<-|[]] [H|[]]. discriminate H.
  - simpl. intros k [].
Defined.

Lemma entityOutcome_same bE yE n :
  snd (entityOutcome bE yE yE n) = [].
Proof.
  unfold entityOutcome. destruct (JsMap.get yE n) as [y|]; [|reflexivity].
  simpl. unfold stereotypeConflict. rewrite String.eqb_refl. simpl.
  apply flat_map_nil. intros an _. unfold attrOutcome, attrConflictTest.
  destruct (findAttr an (attrsOf (JsMap.get bE n))),
           (findAttr an (e_attrs y)); simpl; try reflexivity;
    now rewrite same_refl.
Qed.

Lemma relOutcome_same bR yR k :
  snd (relOutcome bR yR yR k) = [].
Proof.
  unfold relOutcome, relConflictTest.
  destruct (JsMap.get yR k); [|reflexivity]. simpl. now rewrite eqRel_refl.
Qed.

(** X7. Identical sides.  Merging a document [Y] with itself over any base
    records no conflict; the merged relations are those of [Y] under every
    key, the merged entities are those of [Y] by name, each with the
    attributes of [Y] under every attribute name.  The one thing the base
    can add is a stereotype: an entity without one in [Y] gets the base
    entity's. *)
Theorem threeWayMerge_identical_sides (base Y : DSL) :
  let out := threeWayMerge base Y Y in
  conflicts out = []
  /\ (forall k,
        JsMap.get (indexRelations (result out)) k
        = JsMap.get (indexRelations Y) k)
  /\ (forall name,
        match JsMap.get (indexEntities Y) name with
        | None => JsMap.get (indexEntities (result out)) name = None
        | Some y =>
            exists e,
              JsMap.get (indexEntities (result out)) name = Some e
              /\ e_name e = name
              /\ e_stereotype e
                 = match e_stereotype y with
                   | Some s => Some s
                   | None => stereotypeOf (JsMap.get (indexEntities base) name)
                   end
              /\ forall an, findAttr an (e_attrs e) = findAttr an (e_attrs y)
        end).
Proof.
  cbv zeta. split; [|split].
  - rewrite merged_conflicts. rewrite !flat_map_nil; [reflexivity| |].
    + intros k _. apply relOutcome_same.
    + intros n _. apply entityOutcome_same.
  - intros k. rewrite merged_relation_get.
    destruct (JsMap.get (indexRelations Y) k); reflexivity.
  - intros name. rewrite merged_entity_get.
    destruct (JsMap.get (indexEntities Y) name) as [y|]; [|reflexivity].
    eexists. split; [reflexivity|]. split; [reflexivity|]. split.
    + simpl. destruct (e_stereotype y); reflexivity.
    + intros an. rewrite mergedEntity_findAttr.
      destruct (findAttr an (e_attrs y)); reflexivity.
Qed.

(** ** Diff: what each category holds *)

Lemma flat_map_nil_iff {X Y : Type} (f : X -> list Y) (l : list X) :
  flat_map f l = [] <-> forall x, In x l -> f x = [].
Proof.
  split; [|apply flat_map_nil].
  induction l as [|x l IH]; simpl; [tauto|].
  intros H. apply app_eq_nil in H. destruct H as [H1 H2].
  intros y [<-|Hy]; auto.
Qed.

Lemma nonEmpty_false {X : Type} (l : list X) : nonEmpty l = false <-> l = [].
Proof. destruct l; simpl; split; congruence. Qed.

Lemma optStrEqb_eq x y : optStrEqb x y = true <-> x = y.
Proof.
  destruct x, y; simpl; try (split; congruence).
  rewrite String.eqb_eq. split; congruence.
Qed.

Section AgreeFacts.
Context {T C : Type}.
Variable chg : string -> T -> T -> list C.
Variable R : T -> T -> Prop.
Hypothesis chg_nil : forall k x y, chg k x y = [] <-> R x y.

Lemma onlyIn_nil_iff (A B : JsMap.t T) :
  onlyIn A B = [] <-> forall k, In k (JsMap.keys A) -> JsMap.has B k = true.
Proof.
  unfold onlyIn. rewrite flat_map_nil_iff. split.
  - intros H k Hk. unfold JsMap.keys in Hk. apply in_map_iff in Hk.
    destruct Hk as [[k' v] [E Hin]]. simpl in E. subst k'.
    specialize (H (k, v) Hin). simpl in H.
    destruct (JsMap.has B k); [reflexivity|discriminate].
  - intros H [k v] Hin. simpl. rewrite H; [reflexivity|].
    apply (in_map fst) in Hin. exact Hin.
Qed.

Lemma changed_nil_iff (A B : JsMap.t T) :
  NoDup (JsMap.keys A) ->
  flat_map (chg3 chg) (common A B) = []
  <-> forall k x y,
        JsMap.get A k = Some x -> JsMap.get B k = Some y -> R x y.
Proof.
  intros Hnd. rewrite flat_map_nil_iff. split.
  - intros H k x y HA HB. apply (chg_nil k). apply (H (k, x, y)).
    apply common_In. split; [now apply get_In|exact HB].
  - intros H [[k x] y] Hin. apply common_In in Hin.
    destruct Hin as [HA HB]. simpl. apply chg_nil.
    apply (H k); [now apply In_get|exact HB].
Qed.

Lemma diff_nil_iff_agree (A B : JsMap.t T) :
  NoDup (JsMap.keys A) ->
  (onlyIn B A = [] /\ onlyIn A B = []
   /\ flat_map (chg3 chg) (common A B) = [])
  <-> agree R A B.
Proof.
  intros Hnd. rewrite !onlyIn_nil_iff, changed_nil_iff by exact Hnd.
  unfold agree. split.
  - intros [HBA [HAB Hc]] k.
    destruct (JsMap.get A k) as [x|] eqn:EA, (JsMap.get B k) as [y|] eqn:EB.
    + now apply (Hc k).
    + apply get_Some_keys in EA. apply HAB in EA.
      rewrite has_get, EB in EA. discriminate.
    + apply get_Some_keys in EB. apply HBA in EB.
      rewrite has_get, EA in EB. discriminate.
    + exact I.
  - intros H. repeat split.
    + intros k Hk. apply keys_get_Some in Hk. specialize (H k).
      rewrite has_get. destruct (JsMap.get A k); [reflexivity|].
      destruct (JsMap.get B k); [contradiction|congruence].
    + intros k Hk. apply keys_get_Some in Hk. specialize (H k).
      rewrite has_get. destruct (JsMap.get B k); [reflexivity|].
      destruct (JsMap.get A k); [contradiction|congruence].
    + intros k x y HA HB. specialize (H k). now rewrite HA, HB in H.
Qed.
End AgreeFacts.

Lemma attrChg_nil k x y : attrChg k x y = [] <-> sameAttr x y = true.
Proof.
  unfold attrChg. destruct (sameAttr x y); simpl; split; congruence.
Qed.

Lemma relChg_nil k x y : relChg k x y = [] <-> relDiffers x y = false.
Proof.
  unfold relChg. destruct (relDiffers x y); split; congruence.
Qed.

Lemma entityChg_nil k x y : entityChg k x y = [] <-> sameEntity x y.
Proof.
  unfold entityChg, sameEntity.
  rewrite <- (diff_nil_iff_agree attrChg _ attrChg_nil)
    by apply indexByName_NoDup.
  rewrite <- optStrEqb_eq, <- !nonEmpty_false.
  destruct (optStrEqb (e_stereotype x) (e_stereotype y)),
    (nonEmpty (onlyIn (indexByName a_name (e_attrs y))
                 (indexByName a_name (e_attrs x)))),
    (nonEmpty (onlyIn (indexByName a_name (e_attrs x))
                 (indexByName a_name (e_attrs y)))),
    (nonEmpty (flat_map (chg3 attrChg)
                 (common (indexByName a_name (e_attrs x))
                    (indexByName a_name (e_attrs y)))));
    simpl; intuition congruence.
Qed.

Lemma relIndex_eq d : relIndex (relations d) = indexRelations d.
Proof.
  unfold relIndex, JsMap.of_list, indexRelations.
  generalize (@JsMap.empty Relation).
  induction (relations d) as [|r l IH]; intros m; simpl; [reflexivity|].
  apply IH.
Qed.

Lemma diffEntities_nil_agree (A B : DSL) :
  diffEntities (entities A) (entities B) = mkEntityDiff [] [] []
  <-> agree sameEntity (indexEntities A) (indexEntities B).
Proof.
  rewrite diffEntities_closed. cbv zeta.
  change (indexByName e_name (entities A)) with (indexEntities A).
  change (indexByName e_name (entities B)) with (indexEntities B).
  rewrite <- (diff_nil_iff_agree entityChg _ entityChg_nil)
    by apply indexEntities_NoDup.
  split; [intros [= -> -> ->]; auto|intros [-> [-> ->]]; reflexivity].
Qed.

Lemma diffRelations_nil_agree (A B : DSL) :
  diffRelations (relations A) (relations B) = mkRelationDiff [] [] []
  <-> agree (fun x y => relDiffers x y = false)
        (indexRelations A) (indexRelations B).
Proof.
  rewrite diffRelations_closed. cbv zeta. rewrite !relIndex_eq.
  rewrite <- (diff_nil_iff_agree relChg _ relChg_nil)
    by apply indexRelations_NoDup.
  split; [intros [= -> -> ->]; auto|intros [-> [-> ->]]; reflexivity].
Qed.

(** X8. An empty diff means agreement, and conversely.  [diffEntities]
    reports nothing exactly when both documents have the same entity names
    and, under each name, entities with equal stereotypes, the same
    attribute names and attributes equal by name, type and flags;
    [diffRelations] reports nothing exactly when both documents have the
    same relation keys and, under each key, relations of equal kind and
    cardinalities (an absent cardinality counting as the empty string).
    Where a name or key is repeated in a document, its last occurrence is
    the one compared. *)
Theorem diff_empty_iff (A B : DSL) :
  (diffEntities (entities A) (entities B) = mkEntityDiff [] [] []
   <-> agree sameEntity (indexEntities A) (indexEntities B))
  /\ (diffRelations (relations A) (relations B) = mkRelationDiff [] [] []
      <-> agree (fun x y => relDiffers x y = false)
            (indexRelations A) (indexRelations B)).
Proof.
  split.
  - apply diffEntities_nil_agree.
  - apply diffRelations_nil_agree.
Qed.

(** ** Diff and merge together *)

Lemma indexFrom_In_list {V : Type} (key : V -> string) l : forall m0 k v,
  In (k, v) (indexFrom key l m0) -> In (k, v) m0 \/ In v l.
Proof.
  induction l as [|x l IH]; intros m0 k v; simpl; [auto|].
  change (indexFrom key (x :: l) m0)
    with (indexFrom key l (JsMap.set m0 (key x) x)).
  intros H. apply IH in H. destruct H as [H|H]; [|auto].
  apply In_set in H. destruct H as [[= _ ->]|H]; auto.
Qed.

Lemma indexEntities_In d name e :
  JsMap.get (indexEntities d) name = Some e -> In e (entities d).
Proof.
  intros H. apply get_In in H.
  apply (indexFrom_In_list e_name (entities d) []) in H.
  destruct H as [[]|H]. exact H.
Qed.

Lemma indexFrom_distinct {V : Type} (key : V -> string) l : forall m0,
  NoDup (map key l) ->
  (forall x, In x l -> ~ In (key x) (JsMap.keys m0)) ->
  indexFrom key l m0 = m0 ++ map (fun x => (key x, x)) l.
Proof.
  induction l as [|x l IH]; intros m0 Hnd Hfresh; simpl.
  - now rewrite app_nil_r.
  - change (indexFrom key (x :: l) m0)
      with (indexFrom key l (JsMap.set m0 (key x) x)).
    inversion Hnd as [|? ? Hx Hnd']; subst.
    rewrite set_fresh by (apply Hfresh; now left).
    rewrite IH; [now rewrite <- app_assoc|exact Hnd'|].
    intros y Hy. unfold JsMap.keys. rewrite map_app, in_app_iff. simpl.
    intros [H|[H|[]]].
    + revert H. apply Hfresh. now right.
    + apply Hx. rewrite H. now apply in_map.
Qed.

Lemma findAttr_index attrs an :
  NoDup (map a_name attrs) ->
  findAttr an attrs = JsMap.get (indexByName a_name attrs) an.
Proof.
  intros Hnd.
  change (indexByName a_name attrs) with (indexFrom a_name attrs []).
  rewrite indexFrom_distinct; [|exact Hnd|intros ? _ []]. simpl.
  unfold findAttr. clear Hnd.
  induction attrs as [|a attrs IH]; simpl; [reflexivity|].
  destruct (String.eqb (a_name a) an); [reflexivity|exact IH].
Qed.

Lemma sameAttr_same a b : sameAttr a b = true -> same a b = true.
Proof.
  unfold sameAttr, same. rewrite !andb_true_iff. tauto.
Qed.

Lemma relDiffers_eqRel x y : relDiffers x y = false -> eqRel x y = true.
Proof.
  unfold relDiffers, eqRel.
  rewrite !orb_false_iff, !negb_false_iff, !andb_true_iff. tauto.
Qed.

(** X9. Documents that [diff] cannot tell apart merge without conflict.
    When attribute names are unique within every entity of ours and of
    theirs, and the diff of ours against theirs is empty for entities and
    for relations, the three-way merge over any base records no conflict.
    (Uniqueness matters: the diff compares the last attribute of a name, the
    merge the first.) *)
Theorem empty_diff_merges_cleanly (base ours theirs : DSL) :
  (forall e, In e (entities ours) -> NoDup (map a_name (e_attrs e))) ->
  (forall e, In e (entities theirs) -> NoDup (map a_name (e_attrs e))) ->
  diffEntities (entities ours) (entities theirs) = mkEntityDiff [] [] [] ->
  diffRelations (relations ours) (relations theirs) = mkRelationDiff [] [] [] ->
  conflicts (threeWayMerge base ours theirs) = [].
Proof.
  intros Huo Hut HE HR.
  apply diffEntities_nil_agree in HE. apply diffRelations_nil_agree in HR.
  rewrite merged_conflicts. rewrite !flat_map_nil; [reflexivity| |].
  - intros k _. unfold relOutcome, relConflictTest. specialize (HR k).
    destruct (JsMap.get (indexRelations ours) k) as [o|],
             (JsMap.get (indexRelations theirs) k) as [t|];
      try reflexivity.
    apply relDiffers_eqRel in HR. simpl. now rewrite HR.
  - intros n _. unfold entityOutcome. specialize (HE n).
    destruct (JsMap.get (indexEntities ours) n) as [o|] eqn:Eo,
             (JsMap.get (indexEntities theirs) n) as [t|] eqn:Et;
      try reflexivity.
    destruct HE as [Hst Hat]. simpl.
    unfold stereotypeConflict. rewrite Hst, String.eqb_refl. simpl.
    apply flat_map_nil. intros an _. unfold attrOutcome, attrConflictTest.
    specialize (Hat an).
    rewrite <- !findAttr_index in Hat
      by first [apply Huo; eapply indexEntities_In; eassumption
               |apply Hut; eapply indexEntities_In; eassumption].
    destruct (findAttr an (attrsOf (JsMap.get (indexEntities base) n))),
             (findAttr an (e_attrs o)) as [ao|],
             (findAttr an (e_attrs t)) as [att|];
      simpl; try reflexivity;
      apply sameAttr_same in Hat; now rewrite Hat.
Qed.

Lemma empty_diff_merges_cleanly_witness :
  conflicts (threeWayMerge (tc_doc "entity" "varchar" association)
               (tc_doc "value" "text" composition)
               (tc_doc "value" "text" composition)) = [].
Proof.
  apply (empty_diff_merges_cleanly (tc_doc "entity" "varchar" association)
           (tc_doc "value" "text" composition)
           (tc_doc "value" "text" composition)).
  - intros e [<-|[]]. simpl. repeat constructor. intros [].
  - intros e [<-|[]]. simpl. repeat constructor. intros [].
  - reflexivity.
  - reflexivity.
Defined.

(** Without unique attribute names the two can disagree: here the diff is
    empty and the merge records a conflict. *)
Example empty_diff_conflict_on_duplicates :
  let o := mkDSL [mkEntity "User" None
                    [mkAttr "a" "int" None None None;
                     mkAttr "a" "text" None None None]] [] None in
  let t := mkDSL [mkEntity "User" None
                    [mkAttr "a" "bool" None None None;
                     mkAttr "a" "text" None None None]] [] None in
  diffEntities (entities o) (entities t) = mkEntityDiff [] [] []
  /\ conflicts (threeWayMerge emptyDSL o t)
     = [CAttr "User" "a" (mkAttr "a" "int" None None None)
          (mkAttr "a" "bool" None None None)].
Proof. split; reflexivity. Qed.

(** ** Diff: membership in the categories *)

Lemma onlyIn_In {T : Type} (key : T -> string) (A B : JsMap.t T) v :
  (forall k x, In (k, x) A -> key x = k) -> NoDup (JsMap.keys A) ->
  In v (onlyIn A B)
  <-> JsMap.get A (key v) = Some v /\ JsMap.get B (key v) = None.
Proof.
  intros Hkey Hnd. unfold onlyIn. rewrite in_flat_map. split.
  - intros [[k x] [Hin H]]. simpl in H. rewrite has_get in H.
    destruct (JsMap.get B k) eqn:E; simpl in H; [tauto|].
    destruct H as [->|[]]. rewrite (Hkey k v Hin).
    split; [now apply In_get|exact E].
  - intros [HA HB]. exists (key v, v). split; [now apply get_In|].
    simpl. rewrite has_get, HB. now left.
Qed.

Lemma changed_In {T C : Type} (chg : string -> T -> T -> list C)
    (A B : JsMap.t T) c :
  NoDup (JsMap.keys A) ->
  In c (flat_map (chg3 chg) (common A B))
  <-> exists k x y,
        JsMap.get A k = Some x /\ JsMap.get B k = Some y /\ In c (chg k x y).
Proof.
  intros Hnd. rewrite in_flat_map. split.
  - intros [[[k x] y] [Hin H]]. apply common_In in Hin.
    destruct Hin as [HA HB]. exists k, x, y.
    split; [now apply In_get|]. split; [exact HB|exact H].
  - intros [k [x [y [HA [HB H]]]]]. exists (k, x, y).
    split; [|exact H]. apply common_In. split; [now apply get_In|exact HB].
Qed.

Lemma indexRelations_consistent d k r :
  In (k, r) (indexRelations d) -> keyRel r = k.
Proof.
  apply (indexFrom_key keyRel (relations d) []). intros ? ? [].
Qed.

Lemma indexEntities_consistent d k e :
  In (k, e) (indexEntities d) -> e_name e = k.
Proof.
  apply (indexFrom_key e_name (entities d) []). intros ? ? [].
Qed.

Lemma indexByName_consistent attrs k a :
  In (k, a) (indexByName a_name attrs) -> a_name a = k.
Proof.
  apply (indexFrom_key a_name attrs []). intros ? ? [].
Qed.

Lemma relChg_In k x y c :
  In c (relChg k x y) <-> relDiffers x y = true /\ c = mkRelChange k x y.
Proof.
  unfold relChg. destruct (relDiffers x y); simpl.
  - split; [intros [<-|[]]; auto|intros [_ ->]; now left].
  - split; [tauto|intros [H _]; discriminate].
Qed.

Lemma attrChg_In k x y c :
  In c (attrChg k x y) <-> sameAttr x y = false /\ c = mkAttrChange k x y.
Proof.
  unfold attrChg. destruct (sameAttr x y); simpl.
  - split; [tauto|intros [H _]; discriminate].
  - split; [intros [<-|[]]; auto|intros [_ ->]; now left].
Qed.

(** X10. What [diffRelations] reports, relation by relation (relations are
    indexed by their [from::to] key, the last one of a key standing for it).
    A relation is added exactly when the target document has it under its
    key and the source has none under that key; removed exactly in the
    mirror case; a change entry [{key, from, to}] is reported exactly when
    both documents have a relation under [key], [from] and [to] are those
    two, and they differ in kind or in a cardinality.  A relation whose kind
    alone changes is therefore a change, never a removal plus an addition. *)
Theorem diffRelations_spec (A B : DSL) :
  let d := diffRelations (relations A) (relations B) in
  (forall r,
      In r (rd_added d)
      <-> JsMap.get (indexRelations B) (keyRel r) = Some r
          /\ JsMap.get (indexRelations A) (keyRel r) = None)
  /\ (forall r,
        In r (rd_removed d)
        <-> JsMap.get (indexRelations A) (keyRel r) = Some r
            /\ JsMap.get (indexRelations B) (keyRel r) = None)
  /\ (forall c,
        In c (rd_changed d)
        <-> JsMap.get (indexRelations A) (rc_key c) = Some (rc_from c)
            /\ JsMap.get (indexRelations B) (rc_key c) = Some (rc_to c)
            /\ relDiffers (rc_from c) (rc_to c) = true).
Proof.
  cbv zeta. rewrite diffRelations_closed. cbv zeta. rewrite !relIndex_eq.
  simpl. split; [|split].
  - intros r. apply (onlyIn_In keyRel);
      [apply indexRelations_consistent|apply indexRelations_NoDup].
  - intros r. apply (onlyIn_In keyRel);
      [apply indexRelations_consistent|apply indexRelations_NoDup].
  - intros c. rewrite changed_In by apply indexRelations_NoDup. split.
    + intros [k [x [y [HA [HB H]]]]]. apply relChg_In in H.
      destruct H as [Hd ->]. simpl. auto.
    + intros [HA [HB Hd]]. exists (rc_key c), (rc_from c), (rc_to c).
      split; [exact HA|]. split; [exact HB|].
      apply relChg_In. split; [exact Hd|]. now destruct c.
Qed.

Lemma entityChg_In k x y c :
  In c (entityChg k x y) ->
  c = mkEntityChange k (e_stereotype x) (e_stereotype y)
        (onlyIn (indexByName a_name (e_attrs y)) (indexByName a_name (e_attrs x)))
        (onlyIn (indexByName a_name (e_attrs x)) (indexByName a_name (e_attrs y)))
        (flat_map (chg3 attrChg)
           (common (indexByName a_name (e_attrs x))
              (indexByName a_name (e_attrs y)))).
Proof.
  unfold entityChg.
  match goal with |- context [if ?b then _ else _] => destruct b end;
    simpl; [intros [<-|[]]; reflexivity|tauto].
Qed.

Lemma entityChg_some k x y :
  ~ sameEntity x y -> exists c, In c (entityChg k x y) /\ ec_name c = k.
Proof.
  intros H. rewrite <- (entityChg_nil k) in H. unfold entityChg in *.
  match goal with |- context [if ?b then _ else _] => destruct b end;
    [|congruence].
  eexists. split; [now left|reflexivity].
Qed.

(** X11. What [diffEntities] reports, entity by entity (entities are indexed
    by name, the last one of a name standing for it, and so are the
    attributes within an entity).  An entity is added exactly when only the
    target has its name, removed exactly when only the source has it.  A
    name has a change entry exactly when both documents have it and the two
    entities differ in stereotype or attributes; the entry carries the two
    stereotypes, and its attribute lists are the same three-way report one
    level down: attributes only the target entity has, attributes only the
    source entity has, and, for names both have, the pairs that differ in
    type or flags. *)
Theorem diffEntities_spec (A B : DSL) :
  let d := diffEntities (entities A) (entities B) in
  (forall e,
      In e (ed_added d)
      <-> JsMap.get (indexEntities B) (e_name e) = Some e
          /\ JsMap.get (indexEntities A) (e_name e) = None)
  /\ (forall e,
        In e (ed_removed d)
        <-> JsMap.get (indexEntities A) (e_name e) = Some e
            /\ JsMap.get (indexEntities B) (e_name e) = None)
  /\ (forall name,
        (exists c, In c (ed_changed d) /\ ec_name c = name)
        <-> exists eA eB,
              JsMap.get (indexEntities A) name = Some eA
              /\ JsMap.get (indexEntities B) name = Some eB
              /\ ~ sameEntity eA eB)
  /\ (forall c,
        In c (ed_changed d) ->
        exists eA eB,
          JsMap.get (indexEntities A) (ec_name c) = Some eA
          /\ JsMap.get (indexEntities B) (ec_name c) = Some eB
          /\ ec_stereotype_from c = e_stereotype eA
          /\ ec_stereotype_to c = e_stereotype eB
          /\ (forall a,
                In a (ec_attrAdded c)
                <-> JsMap.get (indexByName a_name (e_attrs eB)) (a_name a)
                    = Some a
                    /\ JsMap.get (indexByName a_name (e_attrs eA)) (a_name a)
                       = None)
          /\ (forall a,
                In a (ec_attrRemoved c)
                <-> JsMap.get (indexByName a_name (e_attrs eA)) (a_name a)
                    = Some a
                    /\ JsMap.get (indexByName a_name (e_attrs eB)) (a_name a)
                       = None)
          /\ (forall ac,
                In ac (ec_attrChanged c)
                <-> JsMap.get (indexByName a_name (e_attrs eA)) (ac_name ac)
                    = Some (ac_from ac)
                    /\ JsMap.get (indexByName a_name (e_attrs eB)) (ac_name ac)
                       = Some (ac_to ac)
                    /\ sameAttr (ac_from ac) (ac_to ac) = false)).
Proof.
  cbv zeta. rewrite diffEntities_closed. cbv zeta.
  change (indexByName e_name (entities A)) with (indexEntities A).
  change (indexByName e_name (entities B)) with (indexEntities B).
  simpl. split; [|split; [|split]].
  - intros e. apply (onlyIn_In e_name);
      [apply indexEntities_consistent|apply indexEntities_NoDup].
  - intros e. apply (onlyIn_In e_name);
      [apply indexEntities_consistent|apply indexEntities_NoDup].
  - intros name. split.
    + intros [c [Hc Hn]]. apply changed_In in Hc;
        [|apply indexEntities_NoDup].
      destruct Hc as [k [x [y [HA [HB H]]]]].
      assert (Hne : entityChg k x y <> []) by (intros E; now rewrite E in H).
      apply entityChg_In in H. subst c. simpl in Hn. subst k.
      exists x, y. split; [exact HA|]. split; [exact HB|].
      intros Hs. apply Hne. now apply entityChg_nil.
    + intros [eA [eB [HA [HB Hs]]]].
      destruct (entityChg_some name eA eB Hs) as [c [Hc Hn]].
      exists c. split; [|exact Hn].
      apply changed_In; [apply indexEntities_NoDup|].
      exists name, eA, eB. auto.
  - intros c Hc. apply changed_In in Hc; [|apply indexEntities_NoDup].
    destruct Hc as [k [x [y [HA [HB H]]]]].
    apply entityChg_In in H. subst c. simpl.
    exists x, y. split; [exact HA|]. split; [exact HB|].
    split; [reflexivity|]. split; [reflexivity|]. split; [|split].
    + intros a. apply (onlyIn_In a_name);
        [apply indexByName_consistent|apply indexByName_NoDup].
    + intros a. apply (onlyIn_In a_name);
        [apply indexByName_consistent|apply indexByName_NoDup].
    + intros ac. rewrite changed_In by apply indexByName_NoDup. split.
      * intros [an [a [b [Ha [Hb H]]]]]. apply attrChg_In in H.
        destruct H as [Hd ->]. simpl. auto.
      * intros [Ha [Hb Hd]]. exists (ac_name ac), (ac_from ac), (ac_to ac).
        split; [exact Ha|]. split; [exact Hb|].
        apply attrChg_In. split; [exact Hd|]. now destruct ac.
Qed.

(** ** Relation keys *)

Lemma string_app_assoc (a b c : string) :
  ((a ++ b) ++ c)%string = (a ++ (b ++ c))%string.
Proof. induction a as [|x a IH]; simpl; [reflexivity|now rewrite IH]. Qed.

(** X12. The relation key is ambiguous when entity names contain "::".
    A relation from [a::b] to [c] and a relation from [a] to [b::c] get the
    same key, so the service takes them for one relation: with equal kind
    and cardinalities the diff of one against the other is empty, and
    merging them from two sides records no conflict and leaves ours's
    relation under the key, theirs's being left out. *)
Theorem keyRel_ambiguous (a b c : string) (k : RelKind)
    (fc tc : option string) :
  let r1 := mkRelation (a ++ "::" ++ b)%string c k fc tc in
  let r2 := mkRelation a (b ++ "::" ++ c)%string k fc tc in
  let out := threeWayMerge emptyDSL (mkDSL [] [r1] None) (mkDSL [] [r2] None) in
  keyRel r1 = keyRel r2
  /\ diffRelations [r1] [r2] = mkRelationDiff [] [] []
  /\ JsMap.get (indexRelations (result out)) (keyRel r2) = Some r1
  /\ conflicts out = [].
Proof.
  cbv zeta.
  set (r1 := mkRelation (a ++ "::" ++ b)%string c k fc tc).
  set (r2 := mkRelation a (b ++ "::" ++ c)%string k fc tc).
  assert (K : keyRel r1 = keyRel r2).
  { unfold keyRel, r1, r2. simpl r_from. simpl r_to.
    now rewrite !string_app_assoc. }
  assert (D : relDiffers r1 r2 = false).
  { unfold relDiffers, r1, r2. simpl.
    now rewrite kindEqb_refl, !String.eqb_refl. }
  assert (I1 : indexRelations (mkDSL [] [r1] None) = [(keyRel r1, r1)])
    by reflexivity.
  assert (I2 : indexRelations (mkDSL [] [r2] None) = [(keyRel r1, r2)])
    by (rewrite K; reflexivity).
  split; [exact K|]. split; [|split].
  - apply (diffRelations_nil_agree (mkDSL [] [r1] None) (mkDSL [] [r2] None)).
    intros k'. rewrite I1, I2. simpl.
    destruct (String.eqb (keyRel r1) k'); [exact D|exact I].
  - rewrite merged_relation_get, I1, I2, <- K. simpl.
    now rewrite String.eqb_refl.
  - rewrite merged_conflicts. rewrite !flat_map_nil; [reflexivity| |].
    + intros k' _. unfold relOutcome, relConflictTest. rewrite I1, I2. simpl.
      destruct (String.eqb (keyRel r1) k'); [|reflexivity].
      now rewrite (relDiffers_eqRel _ _ D).
    + intros n Hn. apply allKeys_In in Hn. simpl in Hn. tauto.
Qed.

(** ** Ancestry: what the search returns *)

Lemma getVersion_find s p id v :
  getVersion s p id = Ok v -> findVersion s p (v_id v) = Some v.
Proof.
  intros H. destruct (getVersion_Ok _ _ _ _ H) as [_ [E _]].
  unfold getVersion in H.
  destruct (findVersion s p id) as [w|] eqn:F; [|discriminate].
  injection H as ->. now rewrite E.
Qed.

Lemma findVersion_find s p id v :
  findVersion s p id = Some v -> findVersion s p (v_id v) = Some v.
Proof.
  intros H. apply (getVersion_find s p id). unfold getVersion. now rewrite H.
Qed.

Lemma walk_resolved s p : forall n cur w,
  findVersion s p (v_id cur) = Some cur ->
  walk s p cur n = Some w -> findVersion s p (v_id w) = Some w.
Proof.
  induction n as [|n IH]; intros cur w Hc; simpl.
  - now intros [= <-].
  - destruct (v_parentVersionId cur) as [pid|]; [|discriminate].
    destruct (strTruthy pid); [|discriminate].
    destruct (findVersion s p pid) as [next|] eqn:E; [|discriminate].
    apply IH. eapply findVersion_find. exact E.
Qed.

Lemma traceLoop_incl s p : forall limit cur visited r x,
  traceLoop s p cur limit visited = Ok r -> In x visited -> In x r.
Proof.
  induction limit as [|limit IH]; intros cur visited r x; simpl.
  - now intros [= <-].
  - assert (Hadd : In x visited -> In x (JsSet.add visited (v_id cur)))
      by (intros; apply add_In; now left).
    destruct (v_parentVersionId cur) as [pid|]; [|intros [= <-]; exact Hadd].
    destruct (strTruthy pid); [|intros [= <-]; exact Hadd].
    destruct (getVersion s p pid) as [next|e]; [|discriminate].
    intros H Hx. eapply IH; [exact H|auto].
Qed.

(** The walk collects the id of every version on the chain, up to the cap. *)
Lemma traceLoop_complete s p : forall limit cur visited r n w,
  traceLoop s p cur limit visited = Ok r ->
  n < limit -> walk s p cur n = Some w -> In (v_id w) r.
Proof.
  induction limit as [|limit IH]; intros cur visited r n w H Hn Hw; [lia|].
  simpl in H.
  assert (Hcur : In (v_id cur) (JsSet.add visited (v_id cur)))
    by (apply add_In; now right).
  destruct n as [|n].
  - simpl in Hw. injection Hw as <-.
    destruct (v_parentVersionId cur) as [pid|];
      [|injection H as <-; exact Hcur].
    destruct (strTruthy pid); [|injection H as <-; exact Hcur].
    destruct (getVersion s p pid) as [next|e]; [|discriminate].
    eapply traceLoop_incl; eassumption.
  - simpl in Hw.
    destruct (v_parentVersionId cur) as [pid|]; [|discriminate].
    destruct (strTruthy pid); [|discriminate].
    unfold getVersion in H.
    destruct (findVersion s p pid) as [next|]; [|discriminate].
    apply (IH next _ r n w H); [lia|exact Hw].
Qed.

(** Every id the walk adds is the id of a version on the chain, within the
    cap. *)
Lemma traceLoop_sound s p : forall limit cur visited r x,
  traceLoop s p cur limit visited = Ok r -> In x r ->
  In x visited
  \/ exists n w, n < limit /\ walk s p cur n = Some w /\ v_id w = x.
Proof.
  induction limit as [|limit IH]; intros cur visited r x; simpl.
  - intros [= <-]. auto.
  - assert (Hadd : In x (JsSet.add visited (v_id cur)) ->
                   In x visited
                   \/ exists n w, n < S limit /\ walk s p cur n = Some w
                                  /\ v_id w = x).
    { intros Hx. apply add_In in Hx. destruct Hx as [Hx| ->]; [now left|].
      right. exists 0, cur. repeat split. lia. }
    destruct (v_parentVersionId cur) as [pid|] eqn:Ep;
      [|intros [= <-]; exact Hadd].
    destruct (strTruthy pid) eqn:Et; [|intros [= <-]; exact Hadd].
    unfold getVersion.
    destruct (findVersion s p pid) as [next|] eqn:Ef; [|discriminate].
    intros H Hx. destruct (IH _ _ _ _ H Hx) as [Hv|[n [w [Hn [Hw E]]]]].
    + exact (Hadd Hv).
    + right. exists (S n), w. repeat split; [lia| |exact E].
      simpl. now rewrite Ep, Et, Ef.
Qed.

Lemma ancestorLoop_first s p aAnc : forall limit cur v,
  ancestorLoop s p aAnc cur limit = Ok (Some v) ->
  exists n,
    n < limit /\ walk s p cur n = Some v
    /\ JsSet.has aAnc (v_id v) = true
    /\ forall m w, m < n -> walk s p cur m = Some w ->
                   JsSet.has aAnc (v_id w) = false.
Proof.
  induction limit as [|limit IH]; intros cur v; simpl; [discriminate|].
  destruct (JsSet.has aAnc (v_id cur)) eqn:Eh.
  - intros [= <-]. exists 0. repeat split; [lia|exact Eh|]. intros; lia.
  - destruct (v_parentVersionId cur) as [pid|] eqn:Epar; [|discriminate].
    destruct (strTruthy pid) eqn:Et; [|discriminate].
    unfold getVersion.
    destruct (findVersion s p pid) as [next|] eqn:Ef; [|discriminate].
    intros H. apply IH in H. destruct H as [n [Hn [Hw [Hhas Hfirst]]]].
    exists (S n). repeat split; [lia| |exact Hhas|].
    + simpl. now rewrite Epar, Et, Ef.
    + intros m w Hm Hwm. destruct m as [|m].
      * simpl in Hwm. injection Hwm as <-. exact Eh.
      * simpl in Hwm. rewrite Epar, Et, Ef in Hwm.
        apply (Hfirst m); [lia|exact Hwm].
Qed.

(** X13. The ancestor the search returns is a common ancestor, and the
    nearest one on [bId]'s side: it is reached from [aId] and from [bId] by
    fewer than 200 parent links each, and no version strictly nearer to
    [bId] on its chain is within 200 links of [aId]. *)
Theorem findCommonAncestor_common (s : Store) (p aId bId : string)
    (v : ModelVersion) :
  findCommonAncestor s p aId bId = Ok (Some v) ->
  exists va vb n m,
    getVersion s p aId = Ok va /\ getVersion s p bId = Ok vb
    /\ n < 200 /\ m < 200
    /\ walk s p va n = Some v
    /\ walk s p vb m = Some v
    /\ forall m' w n',
         m' < m -> walk s p vb m' = Some w ->
         n' < 200 -> walk s p va n' <> Some w.
Proof.
  unfold findCommonAncestor, traceParents.
  destruct (getVersion s p aId) as [va|e] eqn:Ea; [|discriminate].
  destruct (traceLoop s p va 200 JsSet.empty) as [aAnc|e] eqn:Et;
    [|discriminate].
  destruct (getVersion s p bId) as [vb|e] eqn:Eb; [|discriminate].
  intros H. apply ancestorLoop_first in H.
  destruct H as [m [Hm [Hw [Hhas Hfirst]]]].
  apply set_has_In in Hhas.
  destruct (traceLoop_sound _ _ _ _ _ _ _ Et Hhas) as [[]|[n [w [Hn [Hwa E]]]]].
  assert (w = v).
  { apply getVersion_find in Ea, Eb.
    apply (walk_resolved s p n va w Ea) in Hwa as Rw.
    apply (walk_resolved s p m vb v Eb) in Hw as Rv.
    rewrite E in Rw. congruence. }
  subst w. exists va, vb, n, m. repeat split; try assumption.
  intros m' w n' Hm' Hwm Hn' Hwn.
  specialize (Hfirst m' w Hm' Hwm). apply set_has_false in Hfirst.
  apply Hfirst. eapply traceLoop_complete; eassumption.
Qed.

Lemma findCommonAncestor_common_witness :
  exists va vb n m,
    getVersion an_store "p" "v3" = Ok va /\ getVersion an_store "p" "v4" = Ok vb
    /\ n < 200 /\ m < 200
    /\ walk an_store "p" va n = Some (an_version "v2" (Some "v1"))
    /\ walk an_store "p" vb m = Some (an_version "v2" (Some "v1"))
    /\ forall m' w n',
         m' < m -> walk an_store "p" vb m' = Some w ->
         n' < 200 -> walk an_store "p" va n' <> Some w.
Proof.
  apply (findCommonAncestor_common an_store "p" "v3" "v4"
           (an_version "v2" (Some "v1"))).
  reflexivity.
Defined.

(** X14. The ancestor of a version and one of its own ancestors is that
    ancestor.  When [bId] resolves to a version that lies on [aId]'s parent
    chain fewer than 200 links up, and the first walk completes, the search
    returns the version of [bId]; with no link at all this says that a
    version is its own nearest ancestor. *)
Theorem findCommonAncestor_of_ancestor (s : Store) (p aId bId : string)
    (va vb : ModelVersion) (aAnc : JsSet.t) (n : nat) :
  getVersion s p aId = Ok va ->
  getVersion s p bId = Ok vb ->
  traceParents s p aId 200 = Ok aAnc ->
  n < 200 -> walk s p va n = Some vb ->
  findCommonAncestor s p aId bId = Ok (Some vb).
Proof.
  intros Ha Hb Ht Hn Hw. unfold findCommonAncestor. rewrite Ht, Hb.
  unfold traceParents in Ht. rewrite Ha in Ht.
  assert (Hin : In (v_id vb) aAnc)
    by (apply (traceLoop_complete s p 200 va JsSet.empty aAnc n vb Ht Hn Hw)).
  apply set_has_In in Hin. cbn [ancestorLoop]. now rewrite Hin.
Qed.

Lemma findCommonAncestor_of_ancestor_witness :
  findCommonAncestor an_store "p" "v3" "v1" = Ok (Some (an_version "v1" None))
  /\ findCommonAncestor cyc_store "p" "v1" "v1"
     = Ok (Some (cyc_version "v1" "v2")).
Proof.
  split.
  - apply (findCommonAncestor_of_ancestor an_store "p" "v3" "v1"
             (an_version "v3" (Some "v2")) (an_version "v1" None)
             ["v3"; "v2"; "v1"] 2); try reflexivity. lia.
  - apply (findCommonAncestor_of_ancestor cyc_store "p" "v1" "v1"
             (cyc_version "v1" "v2") (cyc_version "v1" "v2")
             ["v1"; "v2"] 0); try reflexivity. lia.
Defined.

Lemma traceLoop_dangling s p : forall n limit cur visited w pid,
  n < limit -> walk s p cur n = Some w ->
  v_parentVersionId w = Some pid -> strTruthy pid = true ->
  findVersion s p pid = None ->
  traceLoop s p cur limit visited = Err (NotFound "Versión no encontrada").
Proof.
  induction n as [|n IH]; intros limit cur visited w pid Hn Hw Hp Ht Hf;
    (destruct limit as [|limit]; [lia|]); simpl in *.
  - injection Hw as <-. rewrite Hp, Ht. unfold getVersion. now rewrite Hf.
  - destruct (v_parentVersionId cur) as [q|]; [|discriminate].
    destruct (strTruthy q); [|discriminate].
    unfold getVersion.
    destruct (findVersion s p q) as [next|]; [|discriminate].
    eapply IH; try eassumption. lia.
Qed.

(** X15. A broken parent link is an error, not "none": when a version
    within 200 links of [aId] names a parent that does not resolve in the
    project, the search throws NotFound, whatever [bId] is. *)
Theorem findCommonAncestor_dangling (s : Store) (p aId bId : string)
    (va w : ModelVersion) (n : nat) (pid : string) :
  getVersion s p aId = Ok va ->
  n < 200 -> walk s p va n = Some w ->
  v_parentVersionId w = Some pid -> strTruthy pid = true ->
  findVersion s p pid = None ->
  findCommonAncestor s p aId bId = Err (NotFound "Versión no encontrada").
Proof.
  intros Ha Hn Hw Hp Ht Hf. unfold findCommonAncestor, traceParents.
  rewrite Ha.
  now rewrite (traceLoop_dangling s p n 200 va JsSet.empty w pid Hn Hw Hp Ht Hf).
Qed.

Lemma findCommonAncestor_dangling_witness :
  findCommonAncestor dg_store "p" "v3" "v3"
  = Err (NotFound "Versión no encontrada").
Proof.
  apply (findCommonAncestor_dangling dg_store "p" "v3" "v3"
           (an_version "v3" (Some "v2")) (an_version "v2" (Some "v1")) 1 "v1");
    try reflexivity. lia.
Defined.

(** ** Operations: rejected calls *)

(** X16. [merge] checks before it writes.  When the two versions resolve
    but one of them is not on the branch named for it, the call is rejected
    with BadRequest; and whenever [merge] ends in BadRequest or NotFound
    (an unresolved version, a mismatched branch, a broken parent link met by
    the ancestor search) the store is exactly as it was. *)
Theorem merge_rejections
    (s : Store) (p u : string) (params : MergeParams) (mid vid : string)
    (now : Z) :
  (forall src dst,
      getVersion s p (sourceVersionId params) = Ok src ->
      getVersion s p (targetVersionId params) = Ok dst ->
      v_branchId src <> sourceBranchId params
      \/ v_branchId dst <> targetBranchId params ->
      merge p u params mid vid now s
      = (Err (BadRequest "Las versiones no corresponden a las ramas indicadas"),
         s))
  /\ (forall msg,
        fst (merge p u params mid vid now s) = Err (NotFound msg)
        \/ fst (merge p u params mid vid now s) = Err (BadRequest msg) ->
        snd (merge p u params mid vid now s) = s).
Proof.
  split.
  - intros src dst Hs Hd Hne. unfold merge, bind, read. rewrite Hs, Hd.
    assert (G : (negb (String.eqb (v_branchId src) (sourceBranchId params))
                 || negb (String.eqb (v_branchId dst) (targetBranchId params)))%bool
                = true).
    { apply orb_true_iff.
      destruct Hne as [H|H]; [left|right];
        apply negb_true_iff; now apply String.eqb_neq. }
    now rewrite G.
  - intros msg. unfold merge, bind, read.
    destruct (getVersion s p (sourceVersionId params)) as [src|e];
      [|reflexivity].
    destruct (getVersion s p (targetVersionId params)) as [dst|e];
      [|reflexivity].
    destruct (negb (String.eqb (v_branchId src) (sourceBranchId params))
              || negb (String.eqb (v_branchId dst) (targetBranchId params)))%bool;
      [reflexivity|].
    destruct (findCommonAncestor s p (sourceVersionId params)
                (targetVersionId params)) as [anc|e]; [|reflexivity].
    unfold mergeCreate. simpl.
    destruct (existsb (fun m => String.eqb (m_id m) mid) (merges s)) eqn:Em;
      [simpl; intros [H|H]; discriminate|].
    unfold versionCreate. simpl.
    destruct (existsb (fun v => String.eqb (v_id v) vid) (versions s));
      [simpl; intros [H|H]; discriminate|].
    unfold mergeUpdate. simpl. rewrite existsb_snoc_hit by reflexivity.
    simpl. intros [H|H]; discriminate.
Qed.

Lemma merge_rejections_witness :
  merge "p" "bob" (mkMergeParams "main" "feat" "v2" "v1") "m1" "v3" 30 mg_store
  = (Err (BadRequest "Las versiones no corresponden a las ramas indicadas"),
     mg_store).
Proof.
  apply (proj1 (merge_rejections mg_store "p" "bob"
                  (mkMergeParams "main" "feat" "v2" "v1") "m1" "v3" 30)
           (mg_version "v2" "feat" (Some "v1") "text" 20)
           (mg_version "v1" "main" None "varchar" 10));
    try reflexivity.
  left. discriminate.
Defined.

(** X17. [restore] and [diff] on a version that does not resolve in the
    project throw NotFound and leave the store as it was; and whatever its
    outcome, [diff] never touches branches, versions, merges or the audit
    log: its only write is to the diff cache. *)
Theorem restore_diff_not_found (s : Store) (p : string) :
  (forall u vid msg newId now,
      findVersion s p vid = None ->
      restore p u vid msg newId now s
      = (Err (NotFound "Versión no encontrada"), s))
  /\ (forall a b,
        a <> b ->
        findVersion s p a = None \/ findVersion s p b = None ->
        diff p a b s = (Err (NotFound "Versión no encontrada"), s))
  /\ (forall a b,
        branches (snd (diff p a b s)) = branches s
        /\ versions (snd (diff p a b s)) = versions s
        /\ merges (snd (diff p a b s)) = merges s
        /\ audits (snd (diff p a b s)) = audits s).
Proof.
  split; [|split].
  - intros u vid msg newId now H. unfold restore, bind, read, getVersion.
    now rewrite H.
  - intros a b Hne H. apply String.eqb_neq in Hne.
    unfold diff, bind, read, getVersion. rewrite Hne.
    destruct (findVersion s p a); [|reflexivity].
    destruct H as [H|H]; [discriminate|]. now rewrite H.
  - intros a b. unfold diff, bind, read.
    destruct (String.eqb a b); [simpl; auto|].
    destruct (getVersion s p a); [|simpl; auto].
    destruct (getVersion s p b); simpl; auto.
Qed.

Lemma restore_diff_not_found_witness :
  restore "p" "bob" "v9" None "v3" 30 rs_store
  = (Err (NotFound "Versión no encontrada"), rs_store)
  /\ diff "p" "v1" "v9" rs_store
     = (Err (NotFound "Versión no encontrada"), rs_store).
Proof.
  destruct (restore_diff_not_found rs_store "p") as [HR [HD _]].
  split.
  - apply HR. reflexivity.
  - apply HD; [discriminate|right; reflexivity].
Defined.

(** ** Diff: the cache *)

Lemma diffUpsert_eq row s :
  diffUpsert row s
  = (Ok tt,
     mkStore (branches s) (versions s)
       (if existsb (cacheHit (d_fromVersionId row) (d_toVersionId row)) (diffs s)
        then map (cacheUpdate row) (diffs s)
        else diffs s ++ [row])
       (merges s) (audits s)).
Proof. reflexivity. Qed.

Lemma cacheUpdate_hit row d :
  cacheHit (d_fromVersionId row) (d_toVersionId row) (cacheUpdate row d)
  = cacheHit (d_fromVersionId row) (d_toVersionId row) d.
Proof.
  unfold cacheUpdate.
  destruct (cacheHit (d_fromVersionId row) (d_toVersionId row) d) eqn:H;
    [|exact H]. exact H.
Qed.

Lemma cacheHit_row row :
  cacheHit (d_fromVersionId row) (d_toVersionId row) row = true.
Proof. unfold cacheHit. now rewrite !String.eqb_refl. Qed.

Lemma diffUpsert_rows row s :
  let rows := diffs (snd (diffUpsert row s)) in
  let hit := cacheHit (d_fromVersionId row) (d_toVersionId row) in
  (forall d, In d rows -> hit d = true -> d_diff d = d_diff row)
  /\ (exists d, In d rows /\ hit d = true)
  /\ (forall d, hit d = false -> (In d rows <-> In d (diffs s))).
Proof.
  cbv zeta. rewrite diffUpsert_eq. cbn [snd diffs].
  set (hit := cacheHit (d_fromVersionId row) (d_toVersionId row)).
  destruct (existsb hit (diffs s)) eqn:E.
  - split; [|split].
    + intros d Hin Hd. apply in_map_iff in Hin.
      destruct Hin as [d0 [E0 _]]. subst d.
      unfold hit in Hd. rewrite cacheUpdate_hit in Hd.
      unfold cacheUpdate. now rewrite Hd.
    + apply existsb_exists in E. destruct E as [d0 [Hin H0]].
      exists (cacheUpdate row d0). split; [now apply in_map|].
      unfold hit. now rewrite cacheUpdate_hit.
    + intros d Hd. rewrite in_map_iff. split.
      * intros [d0 [E0 Hin]]. subst d.
        unfold hit in Hd. rewrite cacheUpdate_hit in Hd.
        unfold cacheUpdate. now rewrite Hd.
      * intros Hin. exists d. split; [|exact Hin].
        unfold cacheUpdate. fold hit. now rewrite Hd.
  - split; [|split].
    + intros d Hin Hd. apply in_app_or in Hin. destruct Hin as [Hin|[<-|[]]].
      * exfalso. assert (X : existsb hit (diffs s) = true)
          by (apply existsb_exists; eauto). congruence.
      * reflexivity.
    + exists row. split; [apply in_or_app; right; now left|].
      apply cacheHit_row.
    + intros d Hd. rewrite in_app_iff. simpl. split; [|auto].
      intros [H|[<-|[]]]; [exact H|].
      unfold hit in Hd. now rewrite cacheHit_row in Hd.
Qed.

Lemma diffUpsert_twice row s :
  diffUpsert row (snd (diffUpsert row s)) = diffUpsert row s.
Proof.
  rewrite !diffUpsert_eq. cbn [snd diffs branches versions merges audits].
  set (hit := cacheHit (d_fromVersionId row) (d_toVersionId row)).
  assert (Hidem : forall d, cacheUpdate row (cacheUpdate row d)
                            = cacheUpdate row d).
  { intros d. unfold cacheUpdate at 1. rewrite cacheUpdate_hit.
    unfold cacheUpdate. fold hit. destruct (hit d); reflexivity. }
  assert (Hrow' : cacheUpdate row row = row).
  { unfold cacheUpdate. rewrite cacheHit_row. now destruct row. }
  f_equal. f_equal.
  destruct (existsb hit (diffs s)) eqn:E.
  - assert (E' : existsb hit (map (cacheUpdate row) (diffs s)) = true).
    { apply existsb_exists in E. destruct E as [d [Hin Hd]].
      apply existsb_exists. exists (cacheUpdate row d).
      split; [now apply in_map|]. unfold hit. now rewrite cacheUpdate_hit. }
    rewrite E', map_map. apply map_ext. exact Hidem.
  - assert (E' : existsb hit (diffs s ++ [row]) = true).
    { rewrite existsb_app. simpl. unfold hit.
      now rewrite cacheHit_row, orb_true_r. }
    rewrite E', map_app. simpl. rewrite Hrow'. f_equal.
    rewrite <- (map_id (diffs s)) at 2. apply map_ext_in.
    intros d Hin. unfold cacheUpdate. fold hit.
    destruct (hit d) eqn:H; [|reflexivity].
    exfalso. assert (X : existsb hit (diffs s) = true)
      by (apply existsb_exists; eauto). congruence.
Qed.

(** X18. The diff cache.  After a successful [diff] of [a] against [b] the
    cache holds a row for the pair [(a, b)], every row for that pair carries
    the report just returned (an older report is overwritten, not kept),
    and the rows of other pairs are as they were.  Asking again returns the
    same report and leaves the store unchanged. *)
Theorem diff_cache (s s' : Store) (p a b : string) (r : DiffReport) :
  diff p a b s = (Ok r, s') ->
  (exists d, In d (diffs s') /\ cacheHit a b d = true)
  /\ (forall d, In d (diffs s') -> cacheHit a b d = true -> d_diff d = r)
  /\ (forall d, cacheHit a b d = false -> (In d (diffs s') <-> In d (diffs s)))
  /\ diff p a b s' = (Ok r, s').
Proof.
  unfold diff, bind, read.
  destruct (String.eqb a b) eqn:Eab; [discriminate|].
  destruct (getVersion s p a) as [A|e] eqn:EA; [|discriminate].
  destruct (getVersion s p b) as [B|e] eqn:EB; [|discriminate].
  set (rep := mkDiffReport _ _ _).
  set (row := mkModelDiff p a b rep).
  destruct (diffUpsert row s) as [res s1] eqn:Eu.
  assert (Hres : res = Ok tt) by (unfold diffUpsert in Eu; congruence).
  subst res. unfold ret. intros [= <- <-].
  pose proof (diffUpsert_rows row s) as Hrows. cbv zeta in Hrows.
  rewrite Eu in Hrows. simpl in Hrows.
  destruct Hrows as [H1 [H2 H3]].
  split; [exact H2|]. split; [exact H1|]. split; [exact H3|].
  assert (Hv : versions s1 = versions s).
  { unfold diffUpsert in Eu. injection Eu as <-. reflexivity. }
  assert (EA' : getVersion s1 p a = Ok A)
    by (unfold getVersion, findVersion in *; now rewrite Hv).
  assert (EB' : getVersion s1 p b = Ok B)
    by (unfold getVersion, findVersion in *; now rewrite Hv).
  rewrite EA', EB'. fold rep. fold row.
  assert (Es1 : s1 = snd (diffUpsert row s)) by now rewrite Eu.
  rewrite Es1, diffUpsert_twice, Eu. reflexivity.
Qed.

Lemma diff_cache_witness :
  (exists d, In d (diffs (snd (diff "p" "v1" "v2" rs_store)))
             /\ cacheHit "v1" "v2" d = true)
  /\ diff "p" "v1" "v2" (snd (diff "p" "v1" "v2" rs_store))
     = diff "p" "v1" "v2" rs_store.
Proof.
  destruct (diff "p" "v1" "v2" rs_store) as [res s'] eqn:E.
  destruct res as [r|e]; [|discriminate E].
  destruct (diff_cache rs_store s' "p" "v1" "v2" r E) as [H1 [_ [_ H4]]].
  split; [exact H1|exact H4].
Defined.

(** ** Branch creation: the other paths *)

(** X19. A seeded branch.  With a name that is not blank, a branch id and
    name that are free, a [fromVersionId] that resolves in the project and a
    version id that is new, [createBranch] returns the branch (stored under
    the trimmed name, not default) and leaves three new rows: the branch, a
    first version on it whose content is the seed's and whose parent is the
    seed, and one audit record. *)
Theorem createBranch_seeded
    (s : Store) (p u name fid bid vid : string) (now : Z)
    (base : ModelVersion) :
  strTruthy (trim name) = true ->
  strTruthy fid = true ->
  findVersion s p fid = Some base ->
  existsb (fun b => String.eqb (b_id b) bid) (branches s) = false ->
  existsb (fun b => String.eqb (b_projectId b) p
                    && String.eqb (b_name b) (trim name)) (branches s) = false ->
  existsb (fun v => String.eqb (v_id v) vid) (versions s) = false ->
  createBranch p u name (Some fid) bid vid now s
  = (Ok (mkBranch bid p (trim name) false u),
     mkStore (branches s ++ [mkBranch bid p (trim name) false u])
       (versions s
        ++ [mkModelVersion vid p bid (Some fid) u
              (Some ("branch: " ++ name ++ " from " ++ slice7 fid)%string)
              (v_content base) now])
       (diffs s) (merges s)
       (audits s ++ [branchAudit p u bid name])).
Proof.
  intros Hname Hfid Hbase Hid Hnm Hvid.
  assert (Eid : v_id base = fid)
    by (apply findVersion_Some in Hbase; tauto).
  unfold createBranch. rewrite Hname. simpl. unfold bind, branchCreate.
  simpl. rewrite Hid, Hnm, Hfid. unfold read, findVersion in *. simpl.
  rewrite Hbase. unfold versionCreate. simpl. rewrite Hvid. simpl.
  now rewrite Eid.
Qed.

Lemma createBranch_seeded_witness :
  createBranch "p" "bob" " feature " (Some "v1") "b2" "v3" 30 rs_store
  = (Ok (mkBranch "b2" "p" "feature" false "bob"),
     mkStore (branches rs_store ++ [mkBranch "b2" "p" "feature" false "bob"])
       (versions rs_store
        ++ [mkModelVersion "v3" "p" "b2" (Some "v1") "bob"
              (Some "branch:  feature  from v1")
              (v_content (rs_version "v1" None "varchar" 10)) 30])
       [] []
       [branchAudit "p" "bob" "b2" " feature "]).
Proof.
  apply (createBranch_seeded rs_store "p" "bob" " feature " "v1" "b2" "v3" 30
           (rs_version "v1" None "varchar" 10)); reflexivity.
Defined.

(** X20. An unseeded branch, and the calls that are turned down.  Without a
    [fromVersionId], or with an empty one, a valid call stores the branch
    and one audit record and creates no version.  A blank name (empty, or
    white space only) is rejected with BadRequest, and a name already used
    in the project (after trimming) is rejected by the unique index; in
    both cases the store is left as it was. *)
Theorem createBranch_unseeded
    (s : Store) (p u name bid vid : string) (now : Z) (from : option string) :
  (from = None \/ from = Some ""%string) ->
  (strTruthy (trim name) = true ->
   existsb (fun b => String.eqb (b_id b) bid) (branches s) = false ->
   existsb (fun b => String.eqb (b_projectId b) p
                     && String.eqb (b_name b) (trim name)) (branches s) = false ->
   createBranch p u name from bid vid now s
   = (Ok (mkBranch bid p (trim name) false u),
      mkStore (branches s ++ [mkBranch bid p (trim name) false u])
        (versions s) (diffs s) (merges s)
        (audits s ++ [branchAudit p u bid name])))
  /\ (strTruthy (trim name) = false ->
      createBranch p u name from bid vid now s
      = (Err (BadRequest "Nombre de rama requerido"), s))
  /\ (strTruthy (trim name) = true ->
      existsb (fun b => String.eqb (b_id b) bid) (branches s) = false ->
      existsb (fun b => String.eqb (b_projectId b) p
                        && String.eqb (b_name b) (trim name)) (branches s) = true ->
      createBranch p u name from bid vid now s
      = (Err (UniqueViolation "Branch_projectId_name_key"), s)).
Proof.
  intros Hfrom. split; [|split].
  - intros Hname Hid Hnm. unfold createBranch. rewrite Hname. simpl.
    unfold bind, branchCreate. simpl. rewrite Hid, Hnm.
    destruct Hfrom as [-> | ->]; reflexivity.
  - intros Hname. unfold createBranch. now rewrite Hname.
  - intros Hname Hid Hnm. unfold createBranch. rewrite Hname. simpl.
    unfold bind, branchCreate. simpl. now rewrite Hid, Hnm.
Qed.

Lemma createBranch_unseeded_witness :
  createBranch "p" "bob" "feature" None "b2" "v3" 30 rs_store
  = (Ok (mkBranch "b2" "p" "feature" false "bob"),
     mkStore (branches rs_store ++ [mkBranch "b2" "p" "feature" false "bob"])
       (versions rs_store) [] [] [branchAudit "p" "bob" "b2" "feature"])
  /\ createBranch "p" "bob" "   " None "b2" "v3" 30 rs_store
     = (Err (BadRequest "Nombre de rama requerido"), rs_store)
  /\ createBranch "p" "bob" (bytes [194; 160; 9]) None "b2" "v3" 30 rs_store
     = (Err (BadRequest "Nombre de rama requerido"), rs_store)
  /\ createBranch "p" "bob" " main" (Some ""%string) "b2" "v3" 30 rs_store
     = (Err (UniqueViolation "Branch_projectId_name_key"), rs_store).
Proof.
  split; [|split; [|split]].
  - apply (proj1 (createBranch_unseeded rs_store "p" "bob" "feature" "b2" "v3"
                    30 None (or_introl eq_refl))); reflexivity.
  - apply (proj1 (proj2 (createBranch_unseeded rs_store "p" "bob" "   " "b2"
                           "v3" 30 None (or_introl eq_refl)))); reflexivity.
  - apply (proj1 (proj2 (createBranch_unseeded rs_store "p" "bob"
                           (bytes [194; 160; 9]) "b2" "v3" 30 None
                           (or_introl eq_refl)))); reflexivity.
  - apply (proj2 (proj2 (createBranch_unseeded rs_store "p" "bob" " main" "b2"
                           "v3" 30 (Some ""%string) (or_intror eq_refl))));
      reflexivity.
Defined.

(** ** Operations: how the store grows *)

Lemma grows_intro p s s' lb lv lm la :
  branches s' = branches s ++ lb ->
  versions s' = versions s ++ lv ->
  merges s' = merges s ++ lm ->
  audits s' = audits s ++ la ->
  List.length lv <= 1 ->
  (forall v, In v lv ->
     v_projectId v = p
     /\ forall pid, v_parentVersionId v = Some pid ->
                    findVersion s p pid <> None) ->
  grows p s s'.
Proof. intros. exists lb, lv, lm, la. auto 10. Qed.

Ltac grows_field := first [reflexivity | symmetry; apply app_nil_r].

(** The store gained no version. *)
Ltac grows_plain :=
  eapply grows_intro;
  [simpl; grows_field | simpl; grows_field | simpl; grows_field
  | simpl; grows_field | simpl; lia | intros ? []].

(** The store gained one version; what is left is its parent link. *)
Ltac grows_one :=
  eapply grows_intro;
  [simpl; grows_field | simpl; grows_field | simpl; grows_field
  | simpl; grows_field | simpl; lia
  | let v := fresh "v" in
    intros v [<-|[]]; split; [reflexivity|simpl]].

Lemma latestOnBranch_resolves s p b h :
  latestOnBranch s p b = Some h -> findVersion s p (v_id h) <> None.
Proof.
  unfold latestOnBranch. intros H. apply latestOf_spec in H.
  destruct H as [H _]. apply filter_In in H. destruct H as [Hin Hb].
  apply andb_true_iff in Hb. destruct Hb as [Hp _].
  unfold findVersion. intros Hnone.
  apply (find_none _ _ Hnone) in Hin.
  rewrite String.eqb_refl in Hin. simpl in Hin. congruence.
Qed.

Lemma createBranch_grows s p u name from bid vid now :
  grows p s (snd (createBranch p u name from bid vid now s)).
Proof.
  unfold createBranch.
  destruct (strTruthy (trim name)); simpl; [|grows_plain].
  unfold bind, branchCreate. simpl.
  destruct (existsb _ (branches s)); [grows_plain|].
  destruct (existsb _ (branches s)); [grows_plain|].
  destruct from as [fid|]; [|grows_plain].
  destruct (strTruthy fid); [|grows_plain].
  unfold read. simpl.
  change (findVersion (mkStore (branches s ++ [mkBranch bid p (trim name) false u])
                         (versions s) (diffs s) (merges s) (audits s)) p fid)
    with (findVersion s p fid).
  destruct (findVersion s p fid) as [base|] eqn:Eb; [|grows_plain].
  unfold versionCreate. simpl.
  destruct (existsb _ (versions s)); [grows_plain|].
  grows_one. intros pid [= <-]. apply findVersion_find in Eb. congruence.
Qed.

Lemma restore_grows s p u vid msg newId now :
  grows p s (snd (restore p u vid msg newId now s)).
Proof.
  unfold restore, bind, read.
  destruct (getVersion s p vid) as [V|e]; [|grows_plain].
  unfold versionCreate. simpl.
  destruct (existsb _ (versions s)); [grows_plain|].
  grows_one.
  destruct (latestOnBranch s p (v_branchId V)) as [h|] eqn:E; [|discriminate].
  intros pid [= <-]. eapply latestOnBranch_resolves. exact E.
Qed.

Lemma merge_grows s p u params mid vid now :
  grows p s (snd (merge p u params mid vid now s)).
Proof.
  unfold merge, bind, read.
  destruct (getVersion s p (sourceVersionId params)) as [src|e];
    [|grows_plain].
  destruct (getVersion s p (targetVersionId params)) as [dst|e] eqn:Ed;
    [|grows_plain].
  destruct (negb _ || negb _)%bool; [grows_plain|].
  destruct (findCommonAncestor s p _ _) as [anc|e]; [|grows_plain].
  unfold mergeCreate. simpl.
  destruct (existsb (fun m => String.eqb (m_id m) mid) (merges s)) eqn:Em;
    [grows_plain|].
  unfold versionCreate. simpl.
  destruct (existsb (fun v => String.eqb (v_id v) vid) (versions s));
    [grows_plain|].
  unfold mergeUpdate. simpl. rewrite existsb_snoc_hit by reflexivity.
  simpl. rewrite map_app, update_fresh by exact Em.
  grows_one. intros pid [= <-]. unfold getVersion in Ed.
  destruct (findVersion s p (targetVersionId params)); congruence.
Qed.

Lemma diff_grows s p a b : grows p s (snd (diff p a b s)).
Proof.
  unfold diff, bind, read.
  destruct (String.eqb a b); [grows_plain|].
  destruct (getVersion s p a); [|grows_plain].
  destruct (getVersion s p b); [|grows_plain].
  rewrite diffUpsert_eq. grows_plain.
Qed.

(** X21. History is append-only.  Whatever their arguments and outcome,
    [createBranch], [restore], [merge] and [diff] leave every existing
    branch, version, merge record and audit record in place and unchanged:
    each of the four tables afterwards is the table before with rows
    appended, and at most one version is appended per call. *)
Theorem operations_append_only (s : Store) (p u : string) :
  let appended s' :=
    (exists l, branches s' = branches s ++ l)
    /\ (exists l, versions s' = versions s ++ l /\ List.length l <= 1)
    /\ (exists l, merges s' = merges s ++ l)
    /\ (exists l, audits s' = audits s ++ l) in
  (forall name from bid vid now,
      appended (snd (createBranch p u name from bid vid now s)))
  /\ (forall vid msg newId now,
        appended (snd (restore p u vid msg newId now s)))
  /\ (forall params mid vid now,
        appended (snd (merge p u params mid vid now s)))
  /\ (forall a b, appended (snd (diff p a b s))).
Proof.
  cbv zeta.
  assert (G : forall s', grows p s s' ->
              (exists l, branches s' = branches s ++ l)
              /\ (exists l, versions s' = versions s ++ l /\ List.length l <= 1)
              /\ (exists l, merges s' = merges s ++ l)
              /\ (exists l, audits s' = audits s ++ l)).
  { intros s' [lb [lv [lm [la [Hb [Hv [Hm [Ha [Hl _]]]]]]]]]. eauto 10. }
  split; [|split; [|split]]; intros; apply G.
  - apply createBranch_grows.
  - apply restore_grows.
  - apply merge_grows.
  - apply diff_grows.
Qed.

Lemma find_app_Some {X : Type} (f : X -> bool) l l' x :
  find f l = Some x -> find f (l ++ l') = Some x.
Proof.
  induction l as [|y l IH]; simpl; [discriminate|].
  destruct (f y); auto.
Qed.

Lemma grows_parentClosed p q s s' :
  grows p s s' -> parentClosed s q -> parentClosed s' q.
Proof.
  intros [lb [lv [lm [la [_ [Hv [_ [_ [_ Hnew]]]]]]]]] Hc.
  assert (Hkeep : forall r pid, findVersion s r pid <> None ->
                                findVersion s' r pid <> None).
  { intros r pid H. unfold findVersion in *. rewrite Hv.
    destruct (find _ (versions s)) as [x|] eqn:E; [|congruence].
    now rewrite (find_app_Some _ _ lv x E). }
  intros v pid Hin Hq Hpar Ht. rewrite Hv in Hin.
  apply in_app_or in Hin. destruct Hin as [Hin|Hin].
  - apply Hkeep. now apply (Hc v pid).
  - destruct (Hnew v Hin) as [Hp Hres]. apply Hkeep. subst q.
    rewrite Hp. now apply Hres.
Qed.

(** X22. Parent links stay resolvable.  If every parent link of the store
    resolves within its project, then it still does after any call of
    [createBranch], [restore], [merge] or [diff], successful or not: the
    versions these operations create point at a version that exists in the
    same project, so the ancestor search never meets a broken link they
    made. *)
Theorem operations_keep_parents (s : Store) (p u q : string) :
  parentClosed s q ->
  (forall name from bid vid now,
      parentClosed (snd (createBranch p u name from bid vid now s)) q)
  /\ (forall vid msg newId now,
        parentClosed (snd (restore p u vid msg newId now s)) q)
  /\ (forall params mid vid now,
        parentClosed (snd (merge p u params mid vid now s)) q)
  /\ (forall a b, parentClosed (snd (diff p a b s)) q).
Proof.
  intros Hc. split; [|split; [|split]]; intros;
    eapply grows_parentClosed; try exact Hc.
  - apply createBranch_grows.
  - apply restore_grows.
  - apply merge_grows.
  - apply diff_grows.
Qed.

Lemma rs_store_closed : parentClosed rs_store "p".
Proof.
  intros v pid Hin _ Hpar _. simpl in Hin.
  destruct Hin as [<-|[<-|[]]]; [discriminate Hpar|].
  injection Hpar as <-. discriminate.
Qed.

Lemma operations_keep_parents_witness :
  parentClosed (snd (restore "p" "bob" "v1" None "v3" 30 rs_store)) "p"
  /\ parentClosed (snd (createBranch "p" "bob" "feature" (Some "v2") "b2" "v3"
                          30 rs_store)) "p".
Proof.
  destruct (operations_keep_parents rs_store "p" "bob" "p" rs_store_closed)
    as [HB [HR _]].
  split; [apply HR|apply HB].
Defined.

(** ** Operations and the branch head *)

Lemma latestOf_snoc rows x :
  (forall w, In w rows -> (v_createdAt w < v_createdAt x)%Z) ->
  latestOf (rows ++ [x]) = Some x.
Proof.
  induction rows as [|v rows IH]; intros H; simpl; [reflexivity|].
  rewrite IH by (intros; apply H; now right).
  assert (Hv : (v_createdAt v < v_createdAt x)%Z) by (apply H; now left).
  apply Z.ltb_lt in Hv. now rewrite Hv.
Qed.

Lemma latestOnBranch_snoc s s' p b x :
  versions s' = versions s ++ [x] ->
  v_projectId x = p -> v_branchId x = b ->
  (forall w, In w (versions s) -> v_projectId w = p -> v_branchId w = b ->
             (v_createdAt w < v_createdAt x)%Z) ->
  latestOnBranch s' p b = Some x.
Proof.
  intros Hv Hp Hb Hlt. unfold latestOnBranch. rewrite Hv, filter_app. simpl.
  rewrite Hp, Hb, !String.eqb_refl. simpl. apply latestOf_snoc.
  intros w Hw. apply filter_In in Hw. destruct Hw as [Hin Hw].
  apply andb_true_iff in Hw. destruct Hw as [H1 H2].
  apply String.eqb_eq in H1, H2. subst p b. now apply Hlt.
Qed.

Lemma getVersion_app s s' p id v l :
  versions s' = versions s ++ l ->
  getVersion s p id = Ok v -> getVersion s' p id = Ok v.
Proof.
  intros Hv H. unfold getVersion, findVersion in *. rewrite Hv.
  destruct (find _ (versions s)) as [w|] eqn:E; [|discriminate].
  now rewrite (find_app_Some _ _ l w E).
Qed.

(** X23. A restore becomes the head.  When the restore's timestamp is later
    than that of every version of the branch, the version it creates is the
    branch's head afterwards; so a second restore made right after it, of
    any version of that branch, has the first restore as its parent. *)
Theorem restore_becomes_head
    (s : Store) (p u vid : string) (msg : option string)
    (newId : string) (now : Z) (V : ModelVersion) :
  getVersion s p vid = Ok V ->
  existsb (fun v => String.eqb (v_id v) newId) (versions s) = false ->
  (forall w, In w (versions s) -> v_projectId w = p ->
             v_branchId w = v_branchId V -> (v_createdAt w < now)%Z) ->
  exists created s',
    restore p u vid msg newId now s = (Ok created, s')
    /\ v_id created = newId
    /\ latestOnBranch s' p (v_branchId V) = Some created
    /\ forall u2 vid2 msg2 newId2 now2 c2 s2 V2,
         getVersion s p vid2 = Ok V2 -> v_branchId V2 = v_branchId V ->
         restore p u2 vid2 msg2 newId2 now2 s' = (Ok c2, s2) ->
         v_parentVersionId c2 = Some newId.
Proof.
  intros HV Hfresh Hlt. unfold restore at 1. unfold bind, read. rewrite HV.
  unfold versionCreate. simpl. rewrite Hfresh. simpl.
  eexists. eexists. split; [reflexivity|]. split; [reflexivity|].
  match goal with |- latestOnBranch ?s1 _ _ = Some ?c /\ _ =>
    set (s' := s1); set (created := c) end.
  assert (Hhead : latestOnBranch s' p (v_branchId V) = Some created).
  { apply (latestOnBranch_snoc s); try reflexivity. exact Hlt. }
  split; [exact Hhead|].
  intros u2 vid2 msg2 newId2 now2 c2 s2 V2 HV2 Hb2 Hr.
  assert (HV2' : getVersion s' p vid2 = Ok V2)
    by (apply (getVersion_app s s' p vid2 V2 [created]); [reflexivity|exact HV2]).
  unfold restore, bind, read in Hr. rewrite HV2', Hb2, Hhead in Hr.
  unfold versionCreate in Hr. cbn [v_id] in Hr.
  destruct (existsb _ (versions s')); [discriminate|].
  simpl in Hr. injection Hr as <- _. reflexivity.
Qed.

Lemma restore_becomes_head_witness :
  exists created s',
    restore "p" "bob" "v1" None "v3" 30 rs_store = (Ok created, s')
    /\ v_id created = "v3"
    /\ latestOnBranch s' "p" "main" = Some created
    /\ forall u2 vid2 msg2 newId2 now2 c2 s2 V2,
         getVersion rs_store "p" vid2 = Ok V2 -> v_branchId V2 = "main" ->
         restore "p" u2 vid2 msg2 newId2 now2 s' = (Ok c2, s2) ->
         v_parentVersionId c2 = Some "v3".
Proof.
  apply (restore_becomes_head rs_store "p" "bob" "v1" None "v3" 30
           (rs_version "v1" None "varchar" 10)); try reflexivity.
  intros w [<-|[<-|[]]] _ _; simpl; lia.
Defined.

Lemma merge_Ok_versions s s' p u params mid vid now reply :
  merge p u params mid vid now s = (Ok reply, s') ->
  resultVersionId reply = vid
  /\ exists msg content,
       versions s' = versions s
                     ++ [mkModelVersion vid p (targetBranchId params)
                           (Some (targetVersionId params)) u msg content now].
Proof.
  unfold merge, bind, read.
  destruct (getVersion s p (sourceVersionId params)) as [src|e];
    [|discriminate].
  destruct (getVersion s p (targetVersionId params)) as [dst|e];
    [|discriminate].
  destruct (negb _ || negb _)%bool; [discriminate|].
  destruct (findCommonAncestor s p _ _) as [anc|e]; [|discriminate].
  unfold mergeCreate. simpl.
  destruct (existsb (fun m => String.eqb (m_id m) mid) (merges s));
    [discriminate|].
  unfold versionCreate. simpl.
  destruct (existsb (fun v => String.eqb (v_id v) vid) (versions s));
    [discriminate|].
  unfold mergeUpdate. simpl. rewrite existsb_snoc_hit by reflexivity.
  simpl. intros [= <- <-]. simpl. eauto.
Qed.

(** X24. A merge result becomes the head of the target branch.  After a
    successful [merge] whose timestamp is later than that of every version
    of the target branch, the head of the target branch is the result
    version named in the reply, and its parent is the target version that
    was merged into (not the common ancestor). *)
Theorem merge_result_is_head
    (s s' : Store) (p u : string) (params : MergeParams) (mid vid : string)
    (now : Z) (reply : MergeReply) :
  merge p u params mid vid now s = (Ok reply, s') ->
  (forall w, In w (versions s) -> v_projectId w = p ->
             v_branchId w = targetBranchId params -> (v_createdAt w < now)%Z) ->
  exists v,
    latestOnBranch s' p (targetBranchId params) = Some v
    /\ v_id v = resultVersionId reply
    /\ v_parentVersionId v = Some (targetVersionId params).
Proof.
  intros Hm Hlt. apply merge_Ok_versions in Hm.
  destruct Hm as [Hid [msg [content Hv]]].
  eexists. split; [|split].
  - apply (latestOnBranch_snoc s s' p _ _ Hv); try reflexivity. exact Hlt.
  - simpl. now rewrite Hid.
  - reflexivity.
Qed.

Lemma merge_result_is_head_witness :
  exists v,
    latestOnBranch (snd (merge "p" "bob" mg_params "m1" "v3" 30 mg_store))
      "p" "main" = Some v
    /\ v_id v = "v3"
    /\ v_parentVersionId v = Some "v1".
Proof.
  destruct (merge "p" "bob" mg_params "m1" "v3" 30 mg_store) as [res s'] eqn:E.
  destruct res as [reply|e]; [|discriminate E].
  assert (Hid : resultVersionId reply = "v3")
    by (injection E as <- _; reflexivity).
  rewrite <- Hid.
  apply (merge_result_is_head mg_store s' "p" "bob" mg_params "m1" "v3" 30
           reply E).
  intros w [<-|[<-|[]]] _ Hb; simpl in *; [lia|discriminate Hb].
Defined.

(** ** Merge: a stereotype conflict that ours cannot win *)

(** X25. On a stereotype conflict the merged entity takes ours's stereotype
    only if ours has one.  For an entity both sides have, when ours carries
    no stereotype while theirs and the base carry two different non-empty
    ones, a stereotype conflict is recorded (with ours's side empty) and the
    merged entity holds theirs's stereotype. *)
Theorem threeWayMerge_stereotype_falls_to_theirs
    (base ours theirs : DSL) (name : string) (o t b : Entity) (st sb : string) :
  JsMap.get (indexEntities ours) name = Some o ->
  JsMap.get (indexEntities theirs) name = Some t ->
  JsMap.get (indexEntities base) name = Some b ->
  e_stereotype o = None ->
  e_stereotype t = Some st -> e_stereotype b = Some sb ->
  st <> ""%string -> sb <> ""%string -> st <> sb ->
  conflictsAt (KStereotype name) (conflicts (threeWayMerge base ours theirs))
  = [CStereotype name None (Some st)]
  /\ exists e,
       JsMap.get (indexEntities (result (threeWayMerge base ours theirs))) name
       = Some e
       /\ e_stereotype e = Some st.
Proof.
  intros Ho Ht Hb Eo Et Eb Hst Hsb Hne.
  assert (Hin : In name (allKeys (indexEntities base) (indexEntities ours)
                           (indexEntities theirs))).
  { apply allKeys_In. right. left. eapply get_Some_keys. exact Ho. }
  assert (Htest : stereotypeConflict (Some b) o t = true).
  { apply String.eqb_neq in Hne.
    assert (H1 : String.eqb "" st = false)
      by (apply String.eqb_neq; congruence).
    assert (H2 : String.eqb "" sb = false)
      by (apply String.eqb_neq; congruence).
    unfold stereotypeConflict, stereotypeOf, pick, nullish.
    rewrite Eo, Et, Eb, H1, H2, Hne. reflexivity. }
  split.
  - rewrite (conflictsAt_entity base ours theirs name) by (auto; now left).
    unfold entityOutcome. rewrite Ho, Ht, Hb. simpl. rewrite Htest.
    rewrite conflictsAt_app. simpl. rewrite String.eqb_refl, Eo, Et.
    rewrite conflictsAt_flat_map_none; [reflexivity|].
    intros an _. apply conflictsAt_none. intros c Hc.
    apply attrOutcome_keys in Hc. congruence.
  - exists (mergedEntity name (Some b) o t). split.
    + rewrite merged_entity_get, Ho, Ht, Hb. reflexivity.
    + simpl. now rewrite Eo, Et.
Qed.

Lemma threeWayMerge_stereotype_falls_to_theirs_witness :
  let base := tc_doc "entity" "varchar" association in
  let ours := mkDSL [mkEntity "User" None [tc_attr "varchar"]] [] None in
  let theirs := tc_doc "value" "varchar" association in
  conflictsAt (KStereotype "User") (conflicts (threeWayMerge base ours theirs))
  = [CStereotype "User" None (Some "value")]
  /\ exists e,
       JsMap.get (indexEntities (result (threeWayMerge base ours theirs))) "User"
       = Some e
       /\ e_stereotype e = Some "value".
Proof.
  cbv zeta.
  apply (threeWayMerge_stereotype_falls_to_theirs
           (tc_doc "entity" "varchar" association)
           (mkDSL [mkEntity "User" None [tc_attr "varchar"]] [] None)
           (tc_doc "value" "varchar" association) "User"
           (mkEntity "User" None [tc_attr "varchar"])
           (mkEntity "User" (Some "value") [tc_attr "varchar"])
           (mkEntity "User" (Some "entity") [tc_attr "varchar"])
           "value" "entity"); try reflexivity; discriminate.
Defined.
